(** * HuizenZoeker: normalisation, cross-source deduplication and change tracking

    A shallow embedding of the core of the rental monitor:
    - [Text]: the Python string and [re] operations the sources rely on;
    - [Neighborhood]: [src/matcher/neighborhood.py];
    - [Engine]: [src/dedupe/engine.py];
    - [Pipeline]: the filter and dedupe-id steps of [src/pipeline.py];
    - [Binary64]: the engine's score and the two selection loops in the
      float arithmetic of the interpreter;
    - [Collector]: [BaseCollector.safe_collect] of [src/collectors/base.py];
    - [Store] and [Price]: the change-tracking store and the price-string
      parser, whose modules ([src/storage/database.py],
      [src/normalizer/price.py]) are not part of the sources at hand.

    Text is ASCII. [Engine] and [Pipeline] take the value of a Python
    float as an exact rational ([Q]), which serves for what rounding
    leaves alone: floors, bounds, symmetry, and what two loops run on
    the same scores agree on. Which candidate wins a comparison of
    scores depends on rounding, and is stated on [Binary64]. *)

From Stdlib Require Import QArith Qabs ZArith Lia Ascii String List Bool DecimalString.
From Stdlib Require Import Lqa Sorted.
From Stdlib Require Floats.
From stdpp Require Import gmap strings list.

Local Open Scope string_scope.
Local Open Scope list_scope.

(** ** Python text primitives *)

Module Text.

(** [str.isspace] / the regex class [\s] on ASCII code points:
    TAB..CR, FS..US and the space. *)
Definition is_space (c : ascii) : bool :=
  let n := nat_of_ascii c in
  ((9 <=? n)%nat && (n <=? 13)%nat) || ((28 <=? n)%nat && (n <=? 32)%nat).

Definition is_digit (c : ascii) : bool :=
  let n := nat_of_ascii c in (48 <=? n)%nat && (n <=? 57)%nat.

Definition lower_char (c : ascii) : ascii :=
  let n := nat_of_ascii c in
  if (65 <=? n)%nat && (n <=? 90)%nat then ascii_of_nat (n + 32) else c.

(** [str.lower()] *)
Fixpoint lower (s : string) : string :=
  match s with
  | EmptyString => EmptyString
  | String c s' => String (lower_char c) (lower s')
  end.

(** Python truthiness of a [str] and of a [str | None]. *)
Definition truthy (s : string) : bool :=
  match s with EmptyString => false | String _ _ => true end.

Definition truthy_opt (o : option string) : bool :=
  match o with None => false | Some s => truthy s end.

(** [re.sub(r"[cls]+", " ", s)]: every maximal run of characters of the
    class becomes one space. [in_run] tells that the previous character
    was already part of the current run. *)
Fixpoint sub_runs_from (cls : ascii -> bool) (in_run : bool) (s : string) : string :=
  match s with
  | EmptyString => EmptyString
  | String c s' =>
      if cls c
      then if in_run then sub_runs_from cls true s'
           else String " " (sub_runs_from cls true s')
      else String c (sub_runs_from cls false s')
  end.

Definition sub_runs (cls : ascii -> bool) (s : string) : string :=
  sub_runs_from cls false s.

Fixpoint lstrip (s : string) : string :=
  match s with
  | String c s' => if is_space c then lstrip s' else s
  | EmptyString => EmptyString
  end.

(** [rstrip] drops the trailing white space: a character is kept when
    something that is kept follows it, or when it is not white space. *)
Fixpoint rstrip (s : string) : string :=
  match s with
  | EmptyString => EmptyString
  | String c s' =>
      match rstrip s' with
      | EmptyString => if is_space c then EmptyString else String c EmptyString
      | r => String c r
      end
  end.

(** [str.strip()] *)
Definition strip (s : string) : string := rstrip (lstrip s).

(** [s.startswith(p)], returning the rest of [s] after [p]. *)
Fixpoint drop_prefix (p s : string) : option string :=
  match p with
  | EmptyString => Some s
  | String a p' =>
      match s with
      | String b s' => if Ascii.eqb a b then drop_prefix p' s' else None
      | EmptyString => None
      end
  end.

(** [re.search(r"(?:^|\s|,)" + re.escape(v) + r"(?:\s|,|$)", t)]: the
    literal [v] occurs in [t], preceded by the start of the text, a white
    space or a comma, and followed by a white space, a comma or the end.
    [at_boundary] tells that the left condition holds at the head of [t]. *)
Definition is_sep (c : ascii) : bool := is_space c || Ascii.eqb c ",".

Definition right_boundary (rest : string) : bool :=
  match rest with
  | EmptyString => true
  | String c _ => is_sep c
  end.

Fixpoint word_search_from (at_boundary : bool) (v t : string) : bool :=
  (at_boundary &&
   match drop_prefix v t with
   | Some rest => right_boundary rest
   | None => false
   end)
  || match t with
     | EmptyString => false
     | String c t' => word_search_from (is_sep c) v t'
     end.

Definition word_search (v t : string) : bool := word_search_from true v t.

End Text.

(** ** Python numbers *)

(** [max(x, y)] and [min(x, y)] return their first argument unless the
    second is strictly greater (smaller). *)
Definition Qltb (x y : Q) : bool := negb (Qle_bool y x).

Definition py_max (x y : Q) : Q := if Qltb x y then y else x.
Definition py_min (x y : Q) : Q := if Qltb y x then y else x.

(** ** Configuration ([src/config.py]) *)

Module Config.

Definition MAX_PRICE_EUR : Q := 2500.

(** The registry is a dict literal with distinct keys; its iteration
    order is the order of the entries. *)
Definition TARGET_NEIGHBORHOODS : list (string * list string) :=
  [ ("De Baarsjes",
      ["de baarsjes"; "baarsjes"; "amsterdam-west de baarsjes";
       "amsterdam west de baarsjes"]);
    ("Centrum",
      ["centrum"; "amsterdam centrum"; "amsterdam-centrum"; "binnenstad"]);
    ("Houthavens", ["houthavens"; "houthaven"]);
    ("Oud-West",
      ["oud-west"; "oud west"; "oudwest"; "amsterdam oud-west";
       "amsterdam oud west"]);
    ("Oud-Zuid",
      ["oud-zuid"; "oud zuid"; "oudzuid"; "amsterdam oud-zuid";
       "amsterdam oud zuid"; "amsterdam-zuid oud-zuid"]);
    ("De Pijp", ["de pijp"; "pijp"; "depijp"]);
    ("Plantagebuurt", ["plantagebuurt"; "plantage"; "plantage buurt"]);
    ("Rivierenbuurt", ["rivierenbuurt"; "rivieren buurt"]);
    ("Schinkelbuurt", ["schinkelbuurt"; "schinkel buurt"; "schinkel"]);
    ("Weesperzijde", ["weesperzijde"]);
    ("Westerpark", ["westerpark"; "wester park"]) ].

Definition DEDUPE_PRICE_TOLERANCE_EUR : Q := 50.
Definition DEDUPE_AREA_TOLERANCE_M2 : Q := 5.
Definition DEDUPE_TITLE_SIMILARITY_THRESHOLD : Q := 75 # 100.
Definition DEDUPE_COMBINED_THRESHOLD : Q := 70 # 100.

Definition REMOVED_AFTER_MISSING_RUNS : nat := 2.

End Config.

(** ** Neighborhood matcher ([src/matcher/neighborhood.py]) *)

Module Neighborhood.
Import Text.

Record NeighborhoodResult := {
  name : option string;
  confidence : Q;
  ambiguous : bool
}.

(** The character class of [re.sub(r"[,.\-/|()]+", " ", text)]. *)
Definition is_punct (c : ascii) : bool :=
  existsb (Ascii.eqb c) ["," ; "." ; "-" ; "/" ; "|" ; "(" ; ")"]%char.

Definition _normalize_text (text : string) : string :=
  let text := lower text in
  let text := sub_runs is_punct text in
  let text := sub_runs is_space text in
  strip text.

(** The three fields in the iteration order of the [fields] dict, each
    with its entry of [field_weights]. *)
Definition fields (title location_text description : string) : list (string * Q) :=
  [ (_normalize_text location_text, (9 # 10)%Q);
    (_normalize_text title, (8 # 10)%Q);
    (_normalize_text description, (6 # 10)%Q) ].

(** The innermost loop: one variant against the three fields. *)
Definition score_fields (norm_variant : string) (fs : list (string * Q)) (best_score : Q) : Q :=
  fold_left
    (fun best (f : string * Q) =>
       let '(field_text, weight) := f in
       if negb (truthy field_text) then best
       else if word_search norm_variant field_text then
         let score := weight in
         let score :=
           if (8 <? String.length norm_variant)%nat
           then py_min 1%Q (score + (5 # 100))%Q
           else score in
         py_max best score
       else best)
    fs best_score.

(** The loop over the variants of one neighborhood, from [best_score = 0.0]. *)
Definition score_variants (variants : list string) (fs : list (string * Q)) : Q :=
  fold_left
    (fun best variant => score_fields (_normalize_text variant) fs best)
    variants 0%Q.

(** The outer loop: [matches] in insertion order. *)
Definition collect_matches (registry : list (string * list string))
    (fs : list (string * Q)) : list (string * Q) :=
  fold_left
    (fun matches (entry : string * list string) =>
       let '(canonical_name, variants) := entry in
       let best_score := score_variants variants fs in
       if Qltb 0%Q best_score then (matches ++ [(canonical_name, best_score)])%list
       else matches)
    registry [].

(** [sorted(matches.items(), key=lambda x: x[1], reverse=True)]: a stable
    sort, so entries of equal confidence keep their order. *)
Fixpoint insert_desc (x : string * Q) (l : list (string * Q)) : list (string * Q) :=
  match l with
  | [] => [x]
  | y :: l' => if Qltb (snd y) (snd x) then x :: y :: l' else y :: insert_desc x l'
  end.

Definition sorted_desc (l : list (string * Q)) : list (string * Q) :=
  fold_left (fun acc x => insert_desc x acc) l [].

Definition match_neighborhood_in (registry : list (string * list string))
    (title location_text description : string) : NeighborhoodResult :=
  let matches := collect_matches registry (fields title location_text description) in
  match sorted_desc matches with
  | [] => {| name := None; confidence := 0%Q; ambiguous := false |}
  | (best_name, best_conf) :: rest =>
      let ambiguous :=
        match rest with
        | (_, second_conf) :: _ => Qltb (best_conf - second_conf)%Q (15 # 100)%Q
        | [] => false
        end in
      let best_name :=
        match rest with
        | (second_name, second_conf) :: _ =>
            if Qeq_bool best_conf second_conf
               && (String.length best_name <? String.length second_name)%nat
            then second_name else best_name
        | [] => best_name
        end in
      {| name := Some best_name; confidence := best_conf; ambiguous := ambiguous |}
  end.

Definition match_neighborhood (title location_text description : string) : NeighborhoodResult :=
  match_neighborhood_in Config.TARGET_NEIGHBORHOODS title location_text description.

(** The neighborhoods whose best score equals the top score of the input:
    what the tie-break chooses among. *)
Definition tied_at_top (title location_text description : string) : list string :=
  let matches :=
    collect_matches Config.TARGET_NEIGHBORHOODS (fields title location_text description) in
  match sorted_desc matches with
  | [] => []
  | (_, best_conf) :: _ =>
      map fst (filter (fun m => Qeq_bool (snd m) best_conf) matches)
  end.

End Neighborhood.

(** ** Data model ([src/models.py], as the sources construct and read it) *)

Inductive PriceQuality := CONFIRMED | UNKNOWN.

Record RawListing := {
  raw_source : string;
  raw_source_id : option string;
  raw_url : string;
  raw_title : string;
  raw_raw_location_text : string;
  raw_price_raw : option Q;
  raw_service_costs_raw : option Q;
  raw_price_includes_service_costs : bool;
  raw_gwl_included : bool;
  raw_area_m2 : option Q;
  raw_bedrooms : option Z;
  raw_property_type : option string;
  raw_available_from : option string;
  raw_description_snippet : string;
  raw_image_urls : list string
}.

(** A [NormalizedListing] has no [dedupe_id] field: the correlation tag
    lives on [StoredListing] only. *)
Record NormalizedListing := {
  source : string;
  source_id : option string;
  url : string;
  title : string;
  raw_location_text : string;
  neighborhood_match : option string;
  neighborhood_confidence : Q;
  price_total_eur : option Q;
  price_quality : PriceQuality;
  price_includes_service_costs : bool;
  gwl_included : bool;
  area_m2 : option Q;
  bedrooms : option Z;
  property_type : option string;
  available_from : option string;
  description_snippet : string;
  images_hash : option string;
  ambiguous_neighborhood : bool
}.

Inductive Status := ACTIVE | REMOVED.

Module ChangeType.
Inductive t := NEW | CHANGED | REACTIVATED | UNCHANGED | REMOVED.
End ChangeType.

(** A value of a monitored field, as a change-log entry records it (the
    store persists them stringified). *)
Inductive FieldValue :=
| PriceValue (p : option Q)
| TextValue (s : string).

(** The diff map [field -> {old, new}] of one upsert. *)
Definition DiffMap := list (string * (FieldValue * FieldValue)).

Record ChangeLogEntry := {
  timestamp : string;
  changes : DiffMap
}.

Record StoredListing := {
  sl_dedupe_id : string;
  sl_source : string;
  sl_source_id : option string;
  sl_url : string;
  sl_title : string;
  sl_raw_location_text : string;
  sl_neighborhood_match : option string;
  sl_neighborhood_confidence : Q;
  sl_price_total_eur : option Q;
  sl_price_quality : PriceQuality;
  sl_price_includes_service_costs : bool;
  sl_gwl_included : bool;
  sl_area_m2 : option Q;
  sl_bedrooms : option Z;
  sl_property_type : option string;
  sl_available_from : option string;
  sl_description_snippet : string;
  sl_images_hash : option string;
  sl_ambiguous_neighborhood : bool;
  sl_first_seen_at : string;
  sl_last_seen_at : string;
  sl_last_changed_at : string;
  sl_status : Status;
  sl_missing_runs : nat;
  sl_change_log : list ChangeLogEntry
}.

(** ** The two library functions the engine calls *)

(** [rapidfuzz.fuzz.token_sort_ratio], a similarity in percent. *)
Class RapidFuzz := token_sort_ratio : string -> string -> Q.

(** The similarity does not depend on the order of its arguments. *)
Class RapidFuzzSymmetric (fuzz : RapidFuzz) : Prop :=
  token_sort_ratio_sym : forall s t, (token_sort_ratio s t == token_sort_ratio t s)%Q.

(** The two components of [urllib.parse.urlparse(url)] the engine reads. *)
Record ParseResult := { netloc : string; path : string }.

Class UrlLib := urlparse : string -> ParseResult.

(** [uuid.uuid4()]: the [n]-th value the generator draws in a process. *)
Class UuidSource := uuid4 : nat -> string.

(** ** Dedupe engine ([src/dedupe/engine.py])

    Scores are taken here at their exact value. The order in which two
    candidates compare can depend on rounding; the statements about
    which candidate a loop keeps are made on [Binary64] below. *)

Module Engine.
Import Text.

Record DedupeScore := {
  title_sim : Q;
  price_sim : Q;
  area_sim : Q;
  url_match : bool;
  images_match : bool;
  address_sim : Q;
  combined : Q
}.

(** One prefix pattern of [_clean_title]:
    [^w1\s+w2...\s*[:!-]\s*]. Each greedy white-space run is followed by
    a character that is not white space, so the match is unique. *)
Fixpoint match_words (ws : list string) (s : string) : option string :=
  match ws with
  | [] => Some s
  | w :: ws' =>
      match drop_prefix w s with
      | None => None
      | Some rest =>
          match ws' with
          | [] => Some rest
          | _ :: _ =>
              match rest with
              | String c _ => if is_space c then match_words ws' (lstrip rest) else None
              | EmptyString => None
              end
          end
      end
  end.

Definition is_prefix_mark (c : ascii) : bool :=
  existsb (Ascii.eqb c) [":" ; "!" ; "-"]%char.

(** [re.sub(pat, "", title)] for such an anchored pattern. *)
Definition remove_prefix (ws : list string) (title : string) : string :=
  match match_words ws title with
  | Some rest =>
      match lstrip rest with
      | String c rest' => if is_prefix_mark c then lstrip rest' else title
      | EmptyString => title
      end
  | None => title
  end.

Definition prefixes : list (list string) :=
  [ ["te"; "huur"]; ["huurwoning"]; ["appartement"]; ["studio"] ].

Definition _clean_title (title : string) : string :=
  let title := lower title in
  let title := fold_left (fun t pat => remove_prefix pat t) prefixes title in
  strip (sub_runs is_space title).

Section WithLibraries.
Context {fuzz : RapidFuzz} {urllib : UrlLib}.

Definition _urls_same_property (url_a url_b : string) : bool :=
  let pa := urlparse url_a in
  let pb := urlparse url_b in
  if String.eqb (netloc pa) (netloc pb) && String.eqb (path pa) (path pb)
  then true
  else false.

(** Price and area closeness share their shape: [tol] is the tolerance,
    [neutral] the credit when both sides lack the value. *)
Definition closeness (tol neutral : Q) (x y : option Q) : Q :=
  match x, y with
  | Some vx, Some vy =>
      let diff := Qabs (vx - vy) in
      if Qle_bool diff tol then 1 - diff / py_max tol 1 else 0
  | None, None => neutral
  | _, _ => 0
  end%Q.

Definition flag (b : bool) : Q := if b then 1%Q else 0%Q.

Definition compute_dedupe_score (a b : NormalizedListing) : DedupeScore :=
  let title_sim :=
    if truthy (title a) && truthy (title b)
    then (token_sort_ratio (_clean_title (title a)) (_clean_title (title b)) / 100)%Q
    else 0%Q in
  let price_sim :=
    closeness Config.DEDUPE_PRICE_TOLERANCE_EUR (5 # 10)%Q
      (price_total_eur a) (price_total_eur b) in
  let area_sim :=
    closeness Config.DEDUPE_AREA_TOLERANCE_M2 (3 # 10)%Q (area_m2 a) (area_m2 b) in
  let url_match :=
    if truthy (url a) && truthy (url b)
    then _urls_same_property (url a) (url b)
    else false in
  let images_match :=
    if truthy_opt (images_hash a) && truthy_opt (images_hash b)
    then bool_decide (images_hash a = images_hash b)
    else false in
  let address_sim :=
    if truthy (raw_location_text a) && truthy (raw_location_text b)
    then (token_sort_ratio (lower (raw_location_text a))
                           (lower (raw_location_text b)) / 100)%Q
    else 0%Q in
  let combined :=
    ((25 # 100) * title_sim
     + (20 # 100) * price_sim
     + (15 # 100) * area_sim
     + (10 # 100) * flag url_match
     + (15 # 100) * flag images_match
     + (15 # 100) * address_sim)%Q in
  let combined := if images_match then py_max combined (85 # 100)%Q else combined in
  let combined := if url_match then py_max combined (90 # 100)%Q else combined in
  {| title_sim := title_sim; price_sim := price_sim; area_sim := area_sim;
     url_match := url_match; images_match := images_match;
     address_sim := address_sim; combined := combined |}.

(** [if listing.neighborhood_match and existing.neighborhood_match and
    listing.neighborhood_match != existing.neighborhood_match]. *)
Definition neighborhoods_differ (listing existing_listing : NormalizedListing) : bool :=
  truthy_opt (neighborhood_match listing)
  && truthy_opt (neighborhood_match existing_listing)
  && negb (bool_decide (neighborhood_match listing = neighborhood_match existing_listing)).

(** The loop of [find_duplicate] from index [i] on; the state is the pair
    of [best_match_idx] and [best_score], which are set together. *)
Fixpoint find_loop (listing : NormalizedListing) (i : nat)
    (existing : list NormalizedListing) (best : option (nat * DedupeScore))
    : option (nat * DedupeScore) :=
  match existing with
  | [] => best
  | existing_listing :: rest =>
      let best' :=
        if String.eqb (source existing_listing) (source listing) then best
        else if neighborhoods_differ listing existing_listing then best
        else
          let score := compute_dedupe_score listing existing_listing in
          if Qle_bool Config.DEDUPE_COMBINED_THRESHOLD (combined score) then
            match best with
            | None => Some (i, score)
            | Some (_, best_score) =>
                if Qltb (combined best_score) (combined score)
                then Some (i, score) else best
            end
          else best in
      find_loop listing (S i) rest best'
  end.

(** The result pair of [find_duplicate]; [(None, None)] is "no match".
    The index kept by the loop is always in range, so the last branch is
    never taken. *)
Definition find_duplicate (listing : NormalizedListing)
    (existing : list NormalizedListing) : option string * option DedupeScore :=
  match find_loop listing 0 existing None with
  | Some (best_match_idx, best_score) =>
      match existing !! best_match_idx with
      | Some e => (source_id e, Some best_score)
      | None => (None, None)
      end
  | None => (None, None)
  end.

(** The weighted sum of the six signals of a score. *)
Definition weighted_sum (s : DedupeScore) : Q :=
  ((25 # 100) * title_sim s
   + (20 # 100) * price_sim s
   + (15 # 100) * area_sim s
   + (10 # 100) * flag (url_match s)
   + (15 # 100) * flag (images_match s)
   + (15 # 100) * address_sim s)%Q.

(** The candidates [find_duplicate] is specified to choose among: those
    of another source, whose neighborhood does not disagree with the
    listing's when both are known, and whose score reaches the
    threshold. A neighborhood is known when it is present and not the
    empty string. *)
Definition known (o : option string) : Prop :=
  exists s, o = Some s /\ s <> "".

Definition eligible (listing e : NormalizedListing) : Prop :=
  source e <> source listing
  /\ ~ (known (neighborhood_match listing)
        /\ known (neighborhood_match e)
        /\ neighborhood_match listing <> neighborhood_match e).

Definition qualifies (listing e : NormalizedListing) : Prop :=
  eligible listing e
  /\ (Config.DEDUPE_COMBINED_THRESHOLD <= combined (compute_dedupe_score listing e))%Q.

(** The invariant of the loop of [find_duplicate] after the candidates
    [seen]: [best] is the first of the best-scoring qualifying ones. *)
Definition best_among (listing : NormalizedListing) (seen : list NormalizedListing)
    (best : option (nat * DedupeScore)) : Prop :=
  match best with
  | None => forall j e, seen !! j = Some e -> ~ qualifies listing e
  | Some (k, s) =>
      exists e,
        seen !! k = Some e
        /\ qualifies listing e
        /\ s = compute_dedupe_score listing e
        /\ (forall j e', seen !! j = Some e' -> qualifies listing e' ->
              (combined (compute_dedupe_score listing e') <= combined s)%Q)
        /\ (forall j e', (j < k)%nat -> seen !! j = Some e' -> qualifies listing e' ->
              (combined (compute_dedupe_score listing e') < combined s)%Q)
  end.

End WithLibraries.

End Engine.

(** ** Reference models of the two libraries

    Executable models used to run the engine on concrete listings. The
    engine itself is stated over any [RapidFuzz] and [UrlLib]. *)

Module Lib.
Import Text.

(** [str.split()]: the maximal runs of characters that are not white
    space. [cur] is the token being read, if any. *)
Definition flush (cur : option string) : list string :=
  match cur with Some w => [w] | None => [] end.

Fixpoint split_from (cur : option string) (s : string) : list string :=
  match s with
  | EmptyString => flush cur
  | String c s' =>
      if is_space c then (flush cur ++ split_from None s')%list
      else split_from (Some (default "" cur ++ String c "")%string) s'
  end.

Definition split (s : string) : list string := split_from None s.

Fixpoint insert_token (w : string) (l : list string) : list string :=
  match l with
  | [] => [w]
  | v :: l' => if String.leb w v then w :: v :: l' else v :: insert_token w l'
  end.

(** [sorted(tokens)] *)
Definition sorted_tokens (l : list string) : list string :=
  fold_right insert_token [] l.

(** [" ".join(tokens)] *)
Fixpoint join_space (l : list string) : string :=
  match l with
  | [] => ""
  | [w] => w
  | w :: l' => (w ++ " " ++ join_space l')%string
  end.

(** Length of a longest common subsequence. *)
Fixpoint lcs (xs ys : list ascii) : nat :=
  match xs with
  | [] => 0
  | x :: xs' =>
      (fix inner (ys : list ascii) : nat :=
         match ys with
         | [] => 0
         | y :: ys' =>
             if Ascii.eqb x y then S (lcs xs' ys')
             else Nat.max (lcs xs' ys) (inner ys')
         end) ys
  end.

(** [fuzz.ratio]: the normalised Indel similarity, in percent. The Indel
    distance is [len1 + len2 - 2 * lcs]; two empty strings are at
    distance [0] of a maximum [0], hence similar at 100. *)
Definition ratio (s1 s2 : string) : Q :=
  let l1 := list_ascii_of_string s1 in
  let l2 := list_ascii_of_string s2 in
  let maximum := (length l1 + length l2)%nat in
  let dist := (maximum - 2 * lcs l1 l2)%nat in
  let norm_dist :=
    match maximum with
    | O => 0%Q
    | S _ => (inject_Z (Z.of_nat dist) / inject_Z (Z.of_nat maximum))%Q
    end in
  ((1 - norm_dist) * 100)%Q.

Definition indel_token_sort_ratio (s1 s2 : string) : Q :=
  ratio (join_space (sorted_tokens (split s1)))
        (join_space (sorted_tokens (split s2))).

(** [urlparse] on a URL without control characters, parameters or
    bracketed host: an optional [scheme:], then [//netloc] up to the
    first of [/?#], then the path up to the first of [?#]. *)
Fixpoint take_until (stop : ascii -> bool) (s : string) : string * string :=
  match s with
  | EmptyString => ("", "")
  | String c s' =>
      if stop c then ("", s)
      else let '(pre, rest) := take_until stop s' in (String c pre, rest)
  end.

Definition is_alpha (c : ascii) : bool :=
  let n := nat_of_ascii (lower_char c) in (97 <=? n)%nat && (n <=? 122)%nat.

Definition is_scheme_char (c : ascii) : bool :=
  is_alpha c || is_digit c || existsb (Ascii.eqb c) ["+" ; "-" ; "."]%char.

Definition after_scheme (url : string) : string :=
  let '(pre, rest) := take_until (Ascii.eqb ":") url in
  match pre, rest with
  | String c0 _, String _ rest' =>
      if is_alpha c0 && forallb is_scheme_char (list_ascii_of_string pre)
      then rest' else url
  | _, _ => url
  end.

Definition plain_urlparse (url : string) : ParseResult :=
  let rest := after_scheme url in
  let '(host, rest) :=
    match drop_prefix "//" rest with
    | Some r =>
        take_until (fun c => existsb (Ascii.eqb c) ["/" ; "?" ; "#"]%char) r
    | None => ("", rest)
    end in
  let '(p, _) :=
    take_until (fun c => existsb (Ascii.eqb c) ["?" ; "#"]%char) rest in
  {| netloc := host; path := p |}.

(** A generator that never repeats itself: the draw number, printed. *)
Definition numbered_uuid (n : nat) : string :=
  ("00000000-0000-4000-8000-" ++ NilEmpty.string_of_uint (Nat.to_uint n))%string.

#[export] Instance numbered_uuids : UuidSource := numbered_uuid.
#[export] Instance indel_fuzz : RapidFuzz := indel_token_sort_ratio.
#[export] Instance plain_urllib : UrlLib := plain_urlparse.

End Lib.

(** ** Change-tracking store

    [src/storage/database.py] is not among the sources; the operations
    below follow sections 4.5 and 6 of the specification. The store is
    the list of its rows. *)

Module Store.
Import Text.

Abbreviation Db := (list StoredListing).

#[export] Instance Status_eq_dec : EqDecision Status.
Proof. solve_decision. Defined.

(** Modelled from the spec: [get_listings(conn, status=...)] of the
    missing [database.py], the [query_active] capability: the rows with
    the given status, in store order. *)
Definition get_listings (conn : Db) (status : Status) : list StoredListing :=
  filter (fun sl => sl_status sl = status) conn.

(** The lifecycle part of a row replaced, the rest kept. *)
Definition with_lifecycle (sl : StoredListing) (status : Status) (missing_runs : nat)
    (last_seen_at last_changed_at : string) (log : list ChangeLogEntry) : StoredListing :=
  {| sl_dedupe_id := sl_dedupe_id sl; sl_source := sl_source sl;
     sl_source_id := sl_source_id sl; sl_url := sl_url sl; sl_title := sl_title sl;
     sl_raw_location_text := sl_raw_location_text sl;
     sl_neighborhood_match := sl_neighborhood_match sl;
     sl_neighborhood_confidence := sl_neighborhood_confidence sl;
     sl_price_total_eur := sl_price_total_eur sl;
     sl_price_quality := sl_price_quality sl;
     sl_price_includes_service_costs := sl_price_includes_service_costs sl;
     sl_gwl_included := sl_gwl_included sl; sl_area_m2 := sl_area_m2 sl;
     sl_bedrooms := sl_bedrooms sl; sl_property_type := sl_property_type sl;
     sl_available_from := sl_available_from sl;
     sl_description_snippet := sl_description_snippet sl;
     sl_images_hash := sl_images_hash sl;
     sl_ambiguous_neighborhood := sl_ambiguous_neighborhood sl;
     sl_first_seen_at := sl_first_seen_at sl;
     sl_last_seen_at := last_seen_at; sl_last_changed_at := last_changed_at;
     sl_status := status; sl_missing_runs := missing_runs; sl_change_log := log |}.

(** The fields of a sighting written over those of a row. *)
Definition with_fields (sl : StoredListing) (l : NormalizedListing) : StoredListing :=
  {| sl_dedupe_id := sl_dedupe_id sl; sl_source := sl_source sl;
     sl_source_id := sl_source_id sl; sl_url := url l; sl_title := title l;
     sl_raw_location_text := raw_location_text l;
     sl_neighborhood_match := neighborhood_match l;
     sl_neighborhood_confidence := neighborhood_confidence l;
     sl_price_total_eur := price_total_eur l;
     sl_price_quality := price_quality l;
     sl_price_includes_service_costs := price_includes_service_costs l;
     sl_gwl_included := gwl_included l; sl_area_m2 := area_m2 l;
     sl_bedrooms := bedrooms l; sl_property_type := property_type l;
     sl_available_from := available_from l;
     sl_description_snippet := description_snippet l;
     sl_images_hash := images_hash l;
     sl_ambiguous_neighborhood := ambiguous_neighborhood l;
     sl_first_seen_at := sl_first_seen_at sl;
     sl_last_seen_at := sl_last_seen_at sl;
     sl_last_changed_at := sl_last_changed_at sl;
     sl_status := sl_status sl; sl_missing_runs := sl_missing_runs sl;
     sl_change_log := sl_change_log sl |}.

(** Modelled from the spec: the row a first sighting creates ("absent ->
    ACTIVE: first sighting creates a row"). *)
Definition new_row (now dedupe_id : string) (l : NormalizedListing) : StoredListing :=
  with_fields
    {| sl_dedupe_id := dedupe_id; sl_source := source l; sl_source_id := source_id l;
       sl_url := ""; sl_title := ""; sl_raw_location_text := "";
       sl_neighborhood_match := None; sl_neighborhood_confidence := 0%Q;
       sl_price_total_eur := None; sl_price_quality := UNKNOWN;
       sl_price_includes_service_costs := false; sl_gwl_included := false;
       sl_area_m2 := None; sl_bedrooms := None; sl_property_type := None;
       sl_available_from := None; sl_description_snippet := "";
       sl_images_hash := None; sl_ambiguous_neighborhood := false;
       sl_first_seen_at := now; sl_last_seen_at := now; sl_last_changed_at := now;
       sl_status := ACTIVE; sl_missing_runs := 0; sl_change_log := [] |}
    l.

(** Modelled from the spec: the diff of the monitored fields of the
    missing [upsert_listing]: "price beyond a 0.01 tolerance, non-empty
    title change, non-empty description change". *)
Definition price_changed (old new : option Q) : bool :=
  match old, new with
  | Some o, Some n => Qltb (1 # 100) (Qabs (n - o))
  | _, _ => false
  end.

Definition text_changed (old new : string) : bool :=
  truthy new && negb (String.eqb old new).

Definition field_diff (sl : StoredListing) (l : NormalizedListing) : DiffMap :=
  (if price_changed (sl_price_total_eur sl) (price_total_eur l)
   then [("price_total_eur",
          (PriceValue (sl_price_total_eur sl), PriceValue (price_total_eur l)))]
   else [])
  ++ (if text_changed (sl_title sl) (title l)
      then [("title", (TextValue (sl_title sl), TextValue (title l)))]
      else [])
  ++ (if text_changed (sl_description_snippet sl) (description_snippet l)
      then [("description_snippet",
             (TextValue (sl_description_snippet sl),
              TextValue (description_snippet l)))]
      else []).

(** Modelled from the spec: the transitions of an existing row on a
    re-sighting, of the missing [upsert_listing]. The specification
    gives REACTIVATED for a REMOVED row re-sighted "with no field diff"
    and is silent on a REMOVED row re-sighted with a diff: that case has
    no transition here. *)
Definition resight (now : string) (sl : StoredListing) (l : NormalizedListing)
    : option (StoredListing * (ChangeType.t * DiffMap)) :=
  let diff := field_diff sl l in
  match sl_status sl, diff with
  | ACTIVE, [] =>
      Some (with_lifecycle sl ACTIVE 0 now (sl_last_changed_at sl) (sl_change_log sl),
            (ChangeType.UNCHANGED, []))
  | ACTIVE, _ :: _ =>
      Some (with_lifecycle (with_fields sl l) ACTIVE 0 now now
              (sl_change_log sl ++ [{| timestamp := now; changes := diff |}]),
            (ChangeType.CHANGED, diff))
  | REMOVED, [] =>
      Some (with_lifecycle sl ACTIVE 0 now (sl_last_changed_at sl) (sl_change_log sl),
            (ChangeType.REACTIVATED, []))
  | REMOVED, _ :: _ => None
  end.

(** Modelled from the spec: identity resolution of the missing
    [upsert_listing]: "match first by (source, source_id) when source_id
    is present; else by (dedupe_id, source)". *)
Definition same_identity (dedupe_id : string) (l : NormalizedListing)
    (sl : StoredListing) : bool :=
  if truthy_opt (source_id l)
  then String.eqb (sl_source sl) (source l)
       && bool_decide (sl_source_id sl = source_id l)
  else String.eqb (sl_dedupe_id sl) dedupe_id
       && String.eqb (sl_source sl) (source l).

Fixpoint upsert_rows (now dedupe_id : string) (l : NormalizedListing) (rows : Db)
    : option (Db * (ChangeType.t * DiffMap)) :=
  match rows with
  | [] => Some ([new_row now dedupe_id l], (ChangeType.NEW, []))
  | sl :: rest =>
      if same_identity dedupe_id l sl
      then match resight now sl l with
           | Some (sl', change) => Some (sl' :: rest, change)
           | None => None
           end
      else match upsert_rows now dedupe_id l rest with
           | Some (rest', change) => Some (sl :: rest', change)
           | None => None
           end
  end.

Definition upsert_listing (now : string) (conn : Db) (dedupe_id : string)
    (l : NormalizedListing) : option (Db * (ChangeType.t * DiffMap)) :=
  upsert_rows now dedupe_id l conn.

(** The identity a run's [seen_source_ids] holds: [source_id or url]. *)
Definition identity (sl : StoredListing) : string :=
  match sl_source_id sl with
  | Some sid => if truthy sid then sid else sl_url sl
  | None => sl_url sl
  end.

(** Modelled from the spec: the missing [mark_missing] on one row. "Any
    ACTIVE row for that source whose identity was not among the run's
    freshly seen identities is a miss"; "missing_runs increments; while
    below the removal threshold the row stays ACTIVE; at/above threshold
    it transitions to REMOVED and is reported". The flag tells that the
    row is reported as newly REMOVED. *)
Definition is_miss (source : string) (seen : gset string) (sl : StoredListing) : bool :=
  String.eqb (sl_source sl) source
  && bool_decide (sl_status sl = ACTIVE)
  && negb (bool_decide (identity sl ∈ seen)).

Definition mark_row (source : string) (seen : gset string) (sl : StoredListing)
    : StoredListing * bool :=
  if is_miss source seen sl then
    let n := S (sl_missing_runs sl) in
    if (Config.REMOVED_AFTER_MISSING_RUNS <=? n)%nat
    then (with_lifecycle sl REMOVED n (sl_last_seen_at sl) (sl_last_changed_at sl)
            (sl_change_log sl), true)
    else (with_lifecycle sl ACTIVE n (sl_last_seen_at sl) (sl_last_changed_at sl)
            (sl_change_log sl), false)
  else (sl, false).

(** Modelled from the spec: [mark_missing(source, seen_identities)]
    returns the store and the list of newly REMOVED records. *)
Definition mark_missing (conn : Db) (source : string) (seen : gset string)
    : Db * list StoredListing :=
  let marked := mark_row source seen <$> conn in
  (fst <$> marked, fst <$> filter (fun r => snd r = true) marked).

(** A row through consecutive runs of its source in which it is not
    sighted: the row after the runs and, per run, whether it was
    reported as REMOVED. *)
Fixpoint missing_runs_trace (seens : list (gset string)) (sl : StoredListing)
    : StoredListing * list bool :=
  match seens with
  | [] => (sl, [])
  | seen :: rest =>
      let '(sl', reported) := mark_row (sl_source sl) seen sl in
      let '(final, reports) := missing_runs_trace rest sl' in
      (final, reported :: reports)
  end.

End Store.

(** ** Pipeline orchestrator ([src/pipeline.py]) *)

Module Pipeline.
Import Text.

Section WithLibraries.
Context {fuzz : RapidFuzz} {urllib : UrlLib} {uuid : UuidSource}.

(** [generate_dedupe_id] of [engine.py], threading the number of draws. *)
Definition generate_dedupe_id (draws : nat) : string * nat :=
  (uuid4 draws, S draws).

(** One iteration of the filter loop over [kept] and [filtered_count]. *)
Definition filter_body (st : list NormalizedListing * nat) (listing : NormalizedListing)
    : list NormalizedListing * nat :=
  let '(kept, filtered_count) := st in
  match neighborhood_match listing with
  | None => (kept, S filtered_count)
  | Some _ =>
      match price_total_eur listing with
      | Some price =>
          if Qle_bool Config.MAX_PRICE_EUR price
          then (kept, S filtered_count)
          else (kept ++ [listing], filtered_count)
      | None => (kept ++ [listing], filtered_count)
      end
  end.

Definition filter_step (normalized : list NormalizedListing)
    : list NormalizedListing * nat :=
  fold_left filter_body normalized ([], 0).

(** The filter in the words of the specification: a record passes when
    it has a neighborhood match and its price is unknown or below the
    ceiling. *)
Definition passes_filter (listing : NormalizedListing) : Prop :=
  neighborhood_match listing <> None
  /\ forall price, price_total_eur listing = Some price ->
                   (price < Config.MAX_PRICE_EUR)%Q.

(** The [NormalizedListing(...)] built from each row of the snapshot. *)
Definition to_normalized (sl : StoredListing) : NormalizedListing :=
  {| source := sl_source sl; source_id := sl_source_id sl; url := sl_url sl;
     title := sl_title sl; raw_location_text := sl_raw_location_text sl;
     neighborhood_match := sl_neighborhood_match sl;
     neighborhood_confidence := sl_neighborhood_confidence sl;
     price_total_eur := sl_price_total_eur sl;
     price_quality := sl_price_quality sl;
     price_includes_service_costs := sl_price_includes_service_costs sl;
     gwl_included := sl_gwl_included sl; area_m2 := sl_area_m2 sl;
     bedrooms := sl_bedrooms sl; property_type := sl_property_type sl;
     available_from := sl_available_from sl;
     description_snippet := sl_description_snippet sl;
     images_hash := sl_images_hash sl;
     ambiguous_neighborhood := sl_ambiguous_neighborhood sl |}.

(** The dict comprehension: rows with a truthy [source_id], later rows
    overwriting earlier ones with the same key. *)
Definition existing_dedupe_map (existing_listings : list StoredListing)
    : gmap (string * option string) string :=
  fold_left
    (fun m sl =>
       if truthy_opt (sl_source_id sl)
       then <[(sl_source sl, sl_source_id sl) := sl_dedupe_id sl]> m
       else m)
    existing_listings ∅.

(** The cross-source loop over [zip(existing_normalized, existing_listings)];
    the state is [(best_dedupe_id, best_score)]. *)
Definition cross_source_step (listing : NormalizedListing)
    (st : option string * Q) (pair : NormalizedListing * StoredListing)
    : option string * Q :=
  let '(existing_norm, existing_stored) := pair in
  let '(best_dedupe_id, best_score) := st in
  if String.eqb (source existing_norm) (source listing) then st
  else
    let score := Engine.compute_dedupe_score listing existing_norm in
    if Qle_bool Config.DEDUPE_COMBINED_THRESHOLD (Engine.combined score)
       && Qltb best_score (Engine.combined score)
    then (Some (sl_dedupe_id existing_stored), Engine.combined score)
    else st.

Definition cross_source_loop (listing : NormalizedListing)
    (existing_listings : list StoredListing) : option string * Q :=
  let existing_normalized := map to_normalized existing_listings in
  fold_left (cross_source_step listing)
    (zip existing_normalized existing_listings) (None, 0%Q).

(** The dedupe id of one kept record against the snapshot. *)
Definition resolve_dedupe_id (existing_listings : list StoredListing)
    (listing : NormalizedListing) (draws : nat) : string * nat :=
  match existing_dedupe_map existing_listings !! (source listing, source_id listing) with
  | Some dedupe_id => (dedupe_id, draws)
  | None =>
      let '(best_dedupe_id, _) := cross_source_loop listing existing_listings in
      match best_dedupe_id with
      | Some d => if truthy d then (d, draws) else generate_dedupe_id draws
      | None => generate_dedupe_id draws
      end
  end.

(** The rows the cross-source search is specified to choose among:
    those of another source whose combined score against the listing
    reaches the threshold. *)
Definition cross_score (listing : NormalizedListing) (sl : StoredListing) : Q :=
  Engine.combined (Engine.compute_dedupe_score listing (to_normalized sl)).

Definition cross_match (listing : NormalizedListing) (sl : StoredListing) : Prop :=
  sl_source sl <> source listing
  /\ (Config.DEDUPE_COMBINED_THRESHOLD <= cross_score listing sl)%Q.

(** The invariant of the cross-source loop after the rows [seen]. *)
Definition best_cross (listing : NormalizedListing) (seen : list StoredListing)
    (st : option string * Q) : Prop :=
  match st with
  | (None, best_score) =>
      best_score = 0%Q /\ forall sl, sl ∈ seen -> ~ cross_match listing sl
  | (Some d, best_score) =>
      exists sl,
        sl ∈ seen /\ cross_match listing sl
        /\ d = sl_dedupe_id sl /\ best_score = cross_score listing sl
        /\ forall sl', sl' ∈ seen -> cross_match listing sl' ->
             (cross_score listing sl' <= cross_score listing sl)%Q
  end.

(** The state of the store loop of one source's run. *)
Record RunState := {
  conn : Store.Db;
  draws : nat;
  seen_source_ids : gset string;
  new_count : nat;
  changed_count : nat
}.

(** One iteration of [for listing in kept]. The snapshot
    [existing_listings] is read once, before the loop. [None] stands for
    an upsert the store model leaves open. *)
Definition store_step (now : string) (existing_listings : list StoredListing)
    (st : option RunState) (listing : NormalizedListing) : option RunState :=
  match st with
  | None => None
  | Some st =>
      let sid := match source_id listing with
                 | Some i => if truthy i then i else url listing
                 | None => url listing
                 end in
      let '(dedupe_id, draws') := resolve_dedupe_id existing_listings listing (draws st) in
      match Store.upsert_listing now (conn st) dedupe_id listing with
      | None => None
      | Some (conn', (change_type, _)) =>
          Some {| conn := conn'; draws := draws';
                  seen_source_ids := {[sid]} ∪ seen_source_ids st;
                  new_count :=
                    match change_type with
                    | ChangeType.NEW => S (new_count st)
                    | _ => new_count st
                    end;
                  changed_count :=
                    match change_type with
                    | ChangeType.CHANGED => S (changed_count st)
                    | _ => changed_count st
                    end |}
      end
  end.

(** The statistics of one source's run. *)
Record RunStats := {
  fetched : nat; kept_count : nat; filtered : nat;
  stat_new : nat; stat_changed : nat; stat_removed : nat
}.

(** One source's run from its normalized records on: filter, store loop,
    mark-missing, statistics. *)
Definition run_source (now source_name : string) (db : Store.Db) (draws0 : nat)
    (normalized : list NormalizedListing) : option (Store.Db * nat * RunStats) :=
  let '(kept, filtered_count) := filter_step normalized in
  let existing_listings := Store.get_listings db ACTIVE in
  match
    fold_left (store_step now existing_listings) kept
      (Some {| conn := db; draws := draws0; seen_source_ids := ∅;
               new_count := 0; changed_count := 0 |})
  with
  | None => None
  | Some st =>
      let '(db', removed) := Store.mark_missing (conn st) source_name (seen_source_ids st) in
      Some (db', draws st,
            {| fetched := length normalized; kept_count := length kept;
               filtered := filtered_count; stat_new := new_count st;
               stat_changed := changed_count st; stat_removed := length removed |})
  end.

End WithLibraries.

End Pipeline.

(** ** Collector boundary ([src/collectors/base.py]) *)

Module Collector.

(** An instance of [Exception], with its [str(e)]. *)
Record exn := { message : string }.

Inductive outcome (A : Type) :=
| Returned (v : A)
| Raised (e : exn).
Arguments Returned {A} v.
Arguments Raised {A} e.

(** One execution of a subclass's [collect()]: it returns its listings,
    or raises while its local list holds the listings gathered so far. *)
Inductive CollectRun :=
| Collected (listings : list RawListing)
| Failed (e : exn) (gathered : list RawListing).

Record BaseCollector := {
  SOURCE_NAME : string;
  collect_run : CollectRun
}.

Definition collect (self : BaseCollector) : outcome (list RawListing) :=
  match collect_run self with
  | Collected listings => Returned listings
  | Failed e _ => Raised e
  end.

Inductive Level := INFO | ERROR.

Record LogRecord := { level : Level; text : string }.

Definition str_of_nat (n : nat) : string :=
  NilEmpty.string_of_uint (Nat.to_uint n).

(** [safe_collect]: the value handed to the caller (or the exception
    that escapes) and the records logged. *)
Definition safe_collect (self : BaseCollector)
    : outcome (list RawListing) * list LogRecord :=
  match collect self with
  | Returned listings =>
      (Returned listings,
       [ {| level := INFO;
            text := "[" ++ SOURCE_NAME self ++ "] Collected "
                    ++ str_of_nat (length listings) ++ " listings" |} ])
  | Raised e =>
      (Returned [],
       [ {| level := ERROR;
            text := "[" ++ SOURCE_NAME self ++ "] Collection failed: "
                    ++ message e |} ])
  end%string.

End Collector.

(** ** Price strings

    [src/normalizer/price.py] is not among the sources; the collectors
    call its [_parse_price_string] on what their pattern [[\d.,]+]
    captured. The parser below follows section 4.1 of the specification. *)

Module Price.
Import Text.

Definition has_char (c : ascii) (s : string) : bool :=
  existsb (Ascii.eqb c) (list_ascii_of_string s).

(** [s.replace(c, "")] *)
Fixpoint remove_char (c : ascii) (s : string) : string :=
  match s with
  | EmptyString => EmptyString
  | String d s' => if Ascii.eqb c d then remove_char c s' else String d (remove_char c s')
  end.

(** [s.replace(c, ".")] *)
Fixpoint to_point (c : ascii) (s : string) : string :=
  match s with
  | EmptyString => EmptyString
  | String d s' => String (if Ascii.eqb c d then "."%char else d) (to_point c s')
  end.

(** The text after the last occurrence of [c], when [c] occurs. *)
Fixpoint after_last (c : ascii) (s : string) : option string :=
  match s with
  | EmptyString => None
  | String d s' =>
      match after_last c s' with
      | Some r => Some r
      | None => if Ascii.eqb c d then Some s' else None
      end
  end.

Definition all_digits (s : string) : bool :=
  forallb is_digit (list_ascii_of_string s).

(** The number a string of digits denotes. *)
Definition digits_value (s : string) : Z :=
  fold_left (fun acc c => (10 * acc + (Z.of_nat (nat_of_ascii c) - 48))%Z)
    (list_ascii_of_string s) 0%Z.

(** [float(s)] on digits with at most one point; anything else is the
    [ValueError] the parser turns into absence. *)
Definition to_float (s : string) : option Q :=
  let '(int_part, rest) := Lib.take_until (Ascii.eqb ".") s in
  match rest with
  | EmptyString =>
      if all_digits int_part && truthy int_part
      then Some (inject_Z (digits_value int_part)) else None
  | String _ frac_part =>
      if all_digits int_part && all_digits frac_part
         && (truthy int_part || truthy frac_part)
      then Some (inject_Z (digits_value int_part)
                 + Qmake (digits_value frac_part)
                     (Pos.of_nat (10 ^ String.length frac_part)))%Q
      else None
  end.

(** "Exactly three digits follow" the separator. *)
Definition three_digits_follow (c : ascii) (s : string) : bool :=
  match after_last c s with
  | Some r => (String.length r =? 3)%nat && all_digits r
  | None => false
  end.

(** Modelled from the spec: the separator resolution of the missing
    [_parse_price_string]. "A value with both [.] and [,] resolves by
    taking the right-most separator as decimal; a value with only [.]
    treats it as a thousands separator only when exactly three digits
    follow; a value with only [,] applies the same three-digit
    heuristic." A thousands separator is dropped, a decimal one becomes
    the point. *)
Definition resolve_separators (s : string) : string :=
  if has_char "." s && has_char "," s then
    match after_last "." s with
    | Some r => if has_char "," r
                then to_point "," (remove_char "." s)
                else remove_char "," s
    | None => s
    end
  else if has_char "." s then
    if three_digits_follow "." s then remove_char "." s else s
  else if has_char "," s then
    if three_digits_follow "," s then remove_char "," s else to_point "," s
  else s.

(** The value read before the plausibility check. *)
Definition parsed_value (s : string) : option Q :=
  to_float (resolve_separators s).

(** Modelled from the spec: [_parse_price_string]. "Any parsed value
    outside [100, 50000] is rejected as implausible (returns absence,
    not an error)." *)
Definition _parse_price_string (s : string) : option Q :=
  match parsed_value s with
  | Some v =>
      if Qle_bool 100 v && Qle_bool v 50000 then Some (Qred v) else None
  | None => None
  end.

End Price.

(** ** Sample data *)

Module Samples.
Import Collector.

Definition sample_raw : RawListing :=
  {| raw_source := "Funda"; raw_source_id := Some "42";
     raw_url := "https://www.funda.nl/detail/huur/amsterdam/42-x/";
     raw_title := "Appartement De Pijp"; raw_raw_location_text := "1072 AB De Pijp";
     raw_price_raw := Some 1500%Q; raw_service_costs_raw := None;
     raw_price_includes_service_costs := false; raw_gwl_included := false;
     raw_area_m2 := Some 60%Q; raw_bedrooms := Some 2%Z;
     raw_property_type := None; raw_available_from := None;
     raw_description_snippet := ""; raw_image_urls := [] |}.

Definition failing_collector : BaseCollector :=
  {| SOURCE_NAME := "Funda";
     collect_run := Failed {| message := "timeout" |} [sample_raw] |}.

(** A listing with nothing but a source and an id. *)
Definition bare (src sid : string) : NormalizedListing :=
  {| source := src; source_id := Some sid; url := ""; title := "";
     raw_location_text := ""; neighborhood_match := None;
     neighborhood_confidence := 0%Q; price_total_eur := None;
     price_quality := UNKNOWN; price_includes_service_costs := false;
     gwl_included := false; area_m2 := None; bedrooms := None;
     property_type := None; available_from := None; description_snippet := "";
     images_hash := None; ambiguous_neighborhood := false |}.

(** The same, with an empty image hash. *)
Definition bare_hashed (src sid : string) : NormalizedListing :=
  {| source := src; source_id := Some sid; url := ""; title := "";
     raw_location_text := ""; neighborhood_match := None;
     neighborhood_confidence := 0%Q; price_total_eur := None;
     price_quality := UNKNOWN; price_includes_service_costs := false;
     gwl_included := false; area_m2 := None; bedrooms := None;
     property_type := None; available_from := None; description_snippet := "";
     images_hash := Some ""; ambiguous_neighborhood := false |}.

(** The listing of the repository's tests ([tests/test_dedupe.py]). *)
Definition make_listing (src sid u : string) (price : option Q)
    (hash : option string) : NormalizedListing :=
  {| source := src; source_id := Some sid; url := u;
     title := "Nice apartment in De Pijp";
     raw_location_text := "De Pijp, Amsterdam";
     neighborhood_match := Some "De Pijp";
     neighborhood_confidence := (9 # 10)%Q; price_total_eur := price;
     price_quality := CONFIRMED; price_includes_service_costs := true;
     gwl_included := false; area_m2 := Some 65%Q; bedrooms := Some 2%Z;
     property_type := Some "apartment"; available_from := Some "2024-03-01";
     description_snippet := "Beautiful apartment with balcony";
     images_hash := hash; ambiguous_neighborhood := false |}.

(** A stored row for a listing, sighted once at [seen_at]. *)
Definition stored (dedupe_id seen_at : string) (st : Status) (missing : nat)
    (l : NormalizedListing) : StoredListing :=
  Store.with_lifecycle (Store.new_row seen_at dedupe_id l) st missing seen_at seen_at [].

Definition pijp_funda : NormalizedListing :=
  make_listing "Funda" "123" "https://www.funda.nl/detail/huur/amsterdam/123-x"
    (Some 1500%Q) None.

Definition pijp_pararius : NormalizedListing :=
  make_listing "Pararius" "456" "https://www.pararius.nl/appartement/456"
    (Some 1500%Q) None.

Definition pijp_huurwoningen : NormalizedListing :=
  make_listing "Huurwoningen" "789" "https://www.huurwoningen.nl/789"
    (Some 1500%Q) None.

End Samples.

(** ** The shape of normalized text *)

Module TextShape.
Import Text.

(** White space in [s] is the space character and never comes twice in
    a row; [prev_space] tells that a space precedes [s] (or that [s] is
    the start of a text, which may not begin with one). *)
Fixpoint spaced (prev_space : bool) (s : string) : bool :=
  match s with
  | EmptyString => true
  | String c s' =>
      if is_space c
      then negb prev_space && Ascii.eqb c " " && spaced true s'
      else spaced false s'
  end.

Fixpoint no_trailing_space (s : string) : bool :=
  match s with
  | EmptyString => true
  | String c EmptyString => negb (is_space c)
  | String _ s' => no_trailing_space s'
  end.

Definition all_chars (p : ascii -> bool) (s : string) : bool :=
  forallb p (list_ascii_of_string s).

(** A character [str.lower] leaves alone and that is not in the class
    [[,.\-/|()]]. *)
Definition plain_char (c : ascii) : bool :=
  Ascii.eqb (lower_char c) c && negb (Neighborhood.is_punct c).

(** Lower case, no punctuation of the class, single spaces only, none
    of them first or last. *)
Definition normalized (s : string) : bool :=
  all_chars plain_char s && spaced true s && no_trailing_space s.

End TextShape.

(** ** What the engine needs of the similarity library *)

(** The similarity is a percentage. *)
Class RapidFuzzBounded (fuzz : RapidFuzz) : Prop :=
  token_sort_ratio_range :
    forall s t, (0 <= token_sort_ratio s t /\ token_sort_ratio s t <= 100)%Q.

(** A text is similar to itself at 100. *)
Class RapidFuzzReflexive (fuzz : RapidFuzz) : Prop :=
  token_sort_ratio_refl : forall s, (token_sort_ratio s s == 100)%Q.

(** ** The identity of a kept record *)

Module RunShape.
Import Text.


End RunShape.

(** ** Word boundaries *)

Module WordBoundary.
Import Text.

(** What may precede a match of the variant pattern: the start of the
    text, or a white space or comma. *)
Definition ends_with_sep (pre : string) : Prop :=
  pre = "" \/ exists p c, pre = (p ++ String c "")%string /\ is_sep c = true.

End WordBoundary.

(** ** Source ids and urls of the collectors

    The item parsers of the collectors ([pararius.py], [huurwoningen.py],
    [wonen123.py], [vesteda.py], [kamernet.py]) share one expression for
    the id of an item, computed from the [href] of its link. *)

Module Href.
Import Text.

(** [s.lstrip(c)], [s.rstrip(c)] and [s.strip(c)] for one character. *)
Fixpoint lstrip_char (c : ascii) (s : string) : string :=
  match s with
  | String d s' => if Ascii.eqb c d then lstrip_char c s' else s
  | EmptyString => EmptyString
  end.

Fixpoint rstrip_char (c : ascii) (s : string) : string :=
  match s with
  | EmptyString => EmptyString
  | String d s' =>
      match rstrip_char c s' with
      | EmptyString => if Ascii.eqb c d then EmptyString else String d EmptyString
      | r => String d r
      end
  end.

Definition strip_char (c : ascii) (s : string) : string :=
  rstrip_char c (lstrip_char c s).

(** [s.split(c)]: the pieces between the occurrences of [c]; [cur] is
    the piece being read. *)
Fixpoint split_from (c : ascii) (cur : string) (s : string) : list string :=
  match s with
  | EmptyString => [cur]
  | String d s' =>
      if Ascii.eqb c d then cur :: split_from c "" s'
      else split_from c (cur ++ String d "")%string s'
  end.

Definition split_char (c : ascii) (s : string) : list string := split_from c "" s.

(** [l[-1]] of a list that is not empty. *)
Definition last_piece (l : list string) : string := List.last l "".

(** [href.strip("/").split("/")[-1] if href else None] *)
Definition source_id_of_href (href : string) : option string :=
  if truthy href
  then Some (last_piece (split_char "/" (strip_char "/" href)))
  else None.

(** Kamernet goes on: [if source_id and "-" in source_id:
    source_id = source_id.split("-")[-1]]. *)
Definition kamernet_source_id (href : string) : option string :=
  let source_id := source_id_of_href href in
  match source_id with
  | Some sid =>
      if truthy sid && Price.has_char "-" sid
      then Some (last_piece (split_char "-" sid))
      else source_id
  | None => source_id
  end.

End Href.

(** ** Rate limiting ([BaseCollector._rate_limit]) *)

Module RateLimit.

Definition REQUEST_DELAY_SEC : Q := 1.

(** The part of a collector the limiter reads and writes; [__init__]
    sets it to 0. *)
Record Limiter := { _last_request_time : Q }.

(** [_rate_limit]: [now] is what the first [time.time()] returns and
    [after] what the second one returns; beside the new state, the
    result holds the duration handed to [time.sleep], if it is called. *)
Definition _rate_limit (self : Limiter) (now after : Q) : Limiter * option Q :=
  let elapsed := (now - _last_request_time self)%Q in
  let slept :=
    if Qltb elapsed REQUEST_DELAY_SEC
    then Some (REQUEST_DELAY_SEC - elapsed)%Q
    else None in
  ({| _last_request_time := after |}, slept).

(** The clock during one call: time does not go back between the two
    readings, and a sleep lasts at least as long as asked. *)
Definition clock_respects (self : Limiter) (now after : Q) : Prop :=
  match snd (_rate_limit self now after) with
  | Some duration => (now + duration <= after)%Q
  | None => (now <= after)%Q
  end.

(** The request times of successive calls, each with its two clock
    readings. *)
Fixpoint request_times (self : Limiter) (clock : list (Q * Q)) : list Q :=
  match clock with
  | [] => []
  | (now, after) :: rest =>
      let self' := fst (_rate_limit self now after) in
      _last_request_time self' :: request_times self' rest
  end.

Fixpoint clock_respected (self : Limiter) (clock : list (Q * Q)) : Prop :=
  match clock with
  | [] => True
  | (now, after) :: rest =>
      clock_respects self now after
      /\ clock_respected (fst (_rate_limit self now after)) rest
  end.

End RateLimit.

(** ** Ties in the cross-source loop *)

Module CrossOrder.
Import Text.

Section WithLibraries.
Context {fuzz : RapidFuzz} {urllib : UrlLib}.

(** The invariant of the cross-source loop with the position of the
    adopted row: it is the first of the best-scoring matching rows. *)
Definition first_best_cross (listing : NormalizedListing) (seen : list StoredListing)
    (st : option string * Q) : Prop :=
  match st with
  | (None, best_score) =>
      best_score = 0%Q
      /\ forall j sl, seen !! j = Some sl -> ~ Pipeline.cross_match listing sl
  | (Some d, best_score) =>
      exists k sl,
        seen !! k = Some sl /\ Pipeline.cross_match listing sl
        /\ d = sl_dedupe_id sl /\ best_score = Pipeline.cross_score listing sl
        /\ (forall j sl', seen !! j = Some sl' -> Pipeline.cross_match listing sl' ->
              (Pipeline.cross_score listing sl' <= Pipeline.cross_score listing sl)%Q)
        /\ (forall j sl', (j < k)%nat -> seen !! j = Some sl' ->
              Pipeline.cross_match listing sl' ->
              (Pipeline.cross_score listing sl' < Pipeline.cross_score listing sl)%Q)
  end.

End WithLibraries.

End CrossOrder.

(** ** The page loops of the collectors

    [ParariusCollector.collect], [HuurwoningenCollector.collect] and
    [Wonen123Collector.collect] share one loop over result pages, with
    10, 8 and 5 pages at most; [KamernetCollector.collect] reads two
    pages of anchors. Fetching and HTML parsing are the work of
    libraries: a page is given by what they returned. *)

Module Paging.
Import Text.

(** What [_parse_item] did on one item: it returned a listing or [None],
    or it raised. *)
Inductive ItemResult :=
| Parsed (listing : option RawListing)
| ParseError.

(** What reading one result page gave: an exception before the items
    are looped over, or the items selected and whether a next-page link
    was found after them (a lookup of the link that raises ends the loop
    with the listings kept, as a missing link does). *)
Inductive PageResult :=
| PageError
| Page (items : list ItemResult) (has_next : bool).

(** The inner [for item in items] loop, appending to [listings]. *)
Definition parse_items (listings : list RawListing) (items : list ItemResult)
    : list RawListing :=
  fold_left
    (fun listings item =>
       match item with
       | Parsed (Some listing) => listings ++ [listing]
       | Parsed None => listings
       | ParseError => listings
       end)
    items listings.

(** [while page <= max_pages]: [rounds] counts the pages still allowed. *)
Fixpoint paged_loop (site : nat -> PageResult) (rounds page : nat)
    (listings : list RawListing) : list RawListing :=
  match rounds with
  | O => listings
  | S rounds' =>
      match site page with
      | PageError => listings
      | Page [] _ => listings
      | Page items has_next =>
          let listings := parse_items listings items in
          if has_next then paged_loop site rounds' (S page) listings else listings
      end
  end.

Definition paged_collect (max_pages : nat) (site : nat -> PageResult) : list RawListing :=
  paged_loop site max_pages 1 [].

Definition pararius_collect := paged_collect 10.
Definition huurwoningen_collect := paged_collect 8.
Definition wonen123_collect := paged_collect 5.

(** Kamernet: the anchors of a page with their [href], and the loop
    over them with its [processed_urls] set. *)
Inductive AnchorPage :=
| AnchorsError
| Anchors (anchors : list (string * ItemResult)).

Definition anchor_step (st : gset string * list RawListing) (a : string * ItemResult)
    : gset string * list RawListing :=
  let '(processed_urls, listings) := st in
  let '(href, item) := a in
  if negb (truthy href) || bool_decide (href ∈ processed_urls) then st
  else
    ({[href]} ∪ processed_urls,
     match item with
     | Parsed (Some listing) => listings ++ [listing]
     | Parsed None => listings
     | ParseError => listings
     end).

Definition anchors_loop (anchors : list (string * ItemResult))
    (listings : list RawListing) : list RawListing :=
  snd (fold_left anchor_step anchors (∅, listings)).

(** [for url in target_urls], one [AnchorPage] per url. *)
Definition kamernet_collect (pages : list AnchorPage) : list RawListing :=
  fold_left
    (fun listings page =>
       match page with
       | AnchorsError => listings
       | Anchors anchors => anchors_loop anchors listings
       end)
    pages [].

End Paging.

(** ** The engine and the dedupe-id step in binary64

    Which candidate a selection loop keeps is decided by [>] and [>=]
    on the floats the interpreter computed: two scores that are equal
    as fractions can round to different floats, and the other way
    round. For the loops of [find_duplicate] and of [run_pipeline] the
    scores are therefore computed here as CPython computes them, in
    IEEE 754 binary64, every operation rounded to nearest and taken in
    the order of the source. [float] is the kernel's binary64 type; a
    literal denotes the nearest binary64 value, as in Python, and
    [<=?], [<?] are false on a NaN, as Python's [<=], [<] are. *)

Module Binary64.
Import Text.
Import PrimFloat.
#[local] Set Warnings "-inexact-float".
Local Open Scope float_scope.

(** [max(x, y)] returns its first argument unless the second is
    strictly greater. *)
Definition py_max (x y : float) : float := if x <? y then y else x.

(** [src/config.py]. The two tolerances are the ints 50 and 5; an int
    compares and divides with a float as the float of the same value. *)
Definition DEDUPE_PRICE_TOLERANCE_EUR : float := 50.
Definition DEDUPE_AREA_TOLERANCE_M2 : float := 5.
Definition DEDUPE_COMBINED_THRESHOLD : float := 0.70.

Record NormalizedListing := {
  source : string;
  source_id : option string;
  url : string;
  title : string;
  raw_location_text : string;
  neighborhood_match : option string;
  neighborhood_confidence : float;
  price_total_eur : option float;
  price_quality : PriceQuality;
  price_includes_service_costs : bool;
  gwl_included : bool;
  area_m2 : option float;
  bedrooms : option Z;
  property_type : option string;
  available_from : option string;
  description_snippet : string;
  images_hash : option string;
  ambiguous_neighborhood : bool
}.

(** The fields of a stored row that the dedupe-id step reads, and its
    status. *)
Record StoredListing := {
  sl_dedupe_id : string;
  sl_source : string;
  sl_source_id : option string;
  sl_url : string;
  sl_title : string;
  sl_raw_location_text : string;
  sl_neighborhood_match : option string;
  sl_neighborhood_confidence : float;
  sl_price_total_eur : option float;
  sl_price_quality : PriceQuality;
  sl_price_includes_service_costs : bool;
  sl_gwl_included : bool;
  sl_area_m2 : option float;
  sl_bedrooms : option Z;
  sl_property_type : option string;
  sl_available_from : option string;
  sl_description_snippet : string;
  sl_images_hash : option string;
  sl_ambiguous_neighborhood : bool;
  sl_status : Status
}.

(** [rapidfuzz.fuzz.token_sort_ratio], a float. *)
Class RapidFuzz := token_sort_ratio : string -> string -> float.

(** *** [src/dedupe/engine.py] *)

Record DedupeScore := {
  title_sim : float;
  price_sim : float;
  area_sim : float;
  url_match : bool;
  images_match : bool;
  address_sim : float;
  combined : float
}.

Section WithLibraries.
Context {fuzz : RapidFuzz} {urllib : UrlLib} {uuid : UuidSource}.

(** Price and area closeness share their shape: [tol] is the tolerance,
    [neutral] the credit when both sides lack the value. *)
Definition closeness (tol neutral : float) (x y : option float) : float :=
  match x, y with
  | Some vx, Some vy =>
      let diff := abs (vx - vy) in
      if diff <=? tol then 1 - diff / py_max tol 1 else 0
  | None, None => neutral
  | _, _ => 0
  end.

Definition flag (b : bool) : float := if b then 1 else 0.

Definition compute_dedupe_score (a b : NormalizedListing) : DedupeScore :=
  let title_sim :=
    if truthy (title a) && truthy (title b)
    then token_sort_ratio (Engine._clean_title (title a))
                          (Engine._clean_title (title b)) / 100
    else 0 in
  let price_sim :=
    closeness DEDUPE_PRICE_TOLERANCE_EUR 0.5 (price_total_eur a) (price_total_eur b) in
  let area_sim :=
    closeness DEDUPE_AREA_TOLERANCE_M2 0.3 (area_m2 a) (area_m2 b) in
  let url_match :=
    if truthy (url a) && truthy (url b)
    then Engine._urls_same_property (url a) (url b)
    else false in
  let images_match :=
    if truthy_opt (images_hash a) && truthy_opt (images_hash b)
    then bool_decide (images_hash a = images_hash b)
    else false in
  let address_sim :=
    if truthy (raw_location_text a) && truthy (raw_location_text b)
    then token_sort_ratio (lower (raw_location_text a))
                          (lower (raw_location_text b)) / 100
    else 0 in
  let combined :=
    0.25 * title_sim
    + 0.20 * price_sim
    + 0.15 * area_sim
    + 0.10 * flag url_match
    + 0.15 * flag images_match
    + 0.15 * address_sim in
  let combined := if images_match then py_max combined 0.85 else combined in
  let combined := if url_match then py_max combined 0.90 else combined in
  {| title_sim := title_sim; price_sim := price_sim; area_sim := area_sim;
     url_match := url_match; images_match := images_match;
     address_sim := address_sim; combined := combined |}.

(** [if listing.neighborhood_match and existing.neighborhood_match and
    listing.neighborhood_match != existing.neighborhood_match]. *)
Definition neighborhoods_differ (listing existing_listing : NormalizedListing) : bool :=
  truthy_opt (neighborhood_match listing)
  && truthy_opt (neighborhood_match existing_listing)
  && negb (bool_decide (neighborhood_match listing = neighborhood_match existing_listing)).

(** The loop of [find_duplicate] from index [i] on; the state is the pair
    of [best_match_idx] and [best_score], which are set together. *)
Fixpoint find_loop (listing : NormalizedListing) (i : nat)
    (existing : list NormalizedListing) (best : option (nat * DedupeScore))
    : option (nat * DedupeScore) :=
  match existing with
  | [] => best
  | existing_listing :: rest =>
      let best' :=
        if String.eqb (source existing_listing) (source listing) then best
        else if neighborhoods_differ listing existing_listing then best
        else
          let score := compute_dedupe_score listing existing_listing in
          if DEDUPE_COMBINED_THRESHOLD <=? combined score then
            match best with
            | None => Some (i, score)
            | Some (_, best_score) =>
                if combined best_score <? combined score
                then Some (i, score) else best
            end
          else best in
      find_loop listing (S i) rest best'
  end.

(** The result pair of [find_duplicate]; [(None, None)] is "no match".
    The index kept by the loop is always in range, so the last branch is
    never taken. *)
Definition find_duplicate (listing : NormalizedListing)
    (existing : list NormalizedListing) : option string * option DedupeScore :=
  match find_loop listing 0 existing None with
  | Some (best_match_idx, best_score) =>
      match existing !! best_match_idx with
      | Some e => (source_id e, Some best_score)
      | None => (None, None)
      end
  | None => (None, None)
  end.

(** [generate_dedupe_id], threading the number of draws of [uuid4]. *)
Definition generate_dedupe_id (draws : nat) : string * nat :=
  (uuid4 draws, S draws).

(** *** The dedupe-id step of [run_pipeline] ([src/pipeline.py]) *)

#[local] Existing Instance Store.Status_eq_dec.

(** Modelled from the spec: [get_listings(conn, status=...)] of the
    missing [database.py]: the rows with the given status, in store
    order. *)
Definition get_listings (conn : list StoredListing) (status : Status)
    : list StoredListing :=
  filter (fun sl => sl_status sl = status) conn.

(** The [NormalizedListing(...)] built from each row of the snapshot. *)
Definition to_normalized (sl : StoredListing) : NormalizedListing :=
  {| source := sl_source sl; source_id := sl_source_id sl; url := sl_url sl;
     title := sl_title sl; raw_location_text := sl_raw_location_text sl;
     neighborhood_match := sl_neighborhood_match sl;
     neighborhood_confidence := sl_neighborhood_confidence sl;
     price_total_eur := sl_price_total_eur sl;
     price_quality := sl_price_quality sl;
     price_includes_service_costs := sl_price_includes_service_costs sl;
     gwl_included := sl_gwl_included sl; area_m2 := sl_area_m2 sl;
     bedrooms := sl_bedrooms sl; property_type := sl_property_type sl;
     available_from := sl_available_from sl;
     description_snippet := sl_description_snippet sl;
     images_hash := sl_images_hash sl;
     ambiguous_neighborhood := sl_ambiguous_neighborhood sl |}.

(** The dict comprehension: rows with a truthy [source_id], later rows
    overwriting earlier ones with the same key. *)
Definition existing_dedupe_map (existing_listings : list StoredListing)
    : gmap (string * option string) string :=
  fold_left
    (fun m sl =>
       if truthy_opt (sl_source_id sl)
       then <[(sl_source sl, sl_source_id sl) := sl_dedupe_id sl]> m
       else m)
    existing_listings ∅.

(** The cross-source loop over [zip(existing_normalized, existing_listings)];
    the state is [(best_dedupe_id, best_score)]. *)
Definition cross_source_step (listing : NormalizedListing)
    (st : option string * float) (pair : NormalizedListing * StoredListing)
    : option string * float :=
  let '(existing_norm, existing_stored) := pair in
  let '(best_dedupe_id, best_score) := st in
  if String.eqb (source existing_norm) (source listing) then st
  else
    let score := compute_dedupe_score listing existing_norm in
    if (DEDUPE_COMBINED_THRESHOLD <=? combined score)
       && (best_score <? combined score)
    then (Some (sl_dedupe_id existing_stored), combined score)
    else st.

Definition cross_source_loop (listing : NormalizedListing)
    (existing_listings : list StoredListing) : option string * float :=
  let existing_normalized := map to_normalized existing_listings in
  fold_left (cross_source_step listing)
    (zip existing_normalized existing_listings) (None, 0).

(** The dedupe id of one kept record against the snapshot:
    [existing_dedupe_map.get(...)], then, when that is [None], the
    cross-source loop and [best_dedupe_id or generate_dedupe_id()]. *)
Definition resolve_dedupe_id (existing_listings : list StoredListing)
    (listing : NormalizedListing) (draws : nat) : string * nat :=
  match existing_dedupe_map existing_listings !! (source listing, source_id listing) with
  | Some dedupe_id => (dedupe_id, draws)
  | None =>
      let '(best_dedupe_id, _) := cross_source_loop listing existing_listings in
      match best_dedupe_id with
      | Some d => if truthy d then (d, draws) else generate_dedupe_id draws
      | None => generate_dedupe_id draws
      end
  end.

(** *** The candidates the two loops choose among *)

(** A neighborhood is known when it is present and not the empty
    string. *)
Definition known (o : option string) : Prop :=
  exists s, o = Some s /\ s <> "".

(** The candidates [find_duplicate] is specified to choose among: those
    of another source, whose neighborhood does not disagree with the
    listing's when both are known, and whose score reaches the
    threshold. *)
Definition qualifies (listing e : NormalizedListing) : Prop :=
  source e <> source listing
  /\ ~ (known (neighborhood_match listing)
        /\ known (neighborhood_match e)
        /\ neighborhood_match listing <> neighborhood_match e)
  /\ (DEDUPE_COMBINED_THRESHOLD <=? combined (compute_dedupe_score listing e)) = true.

(** The invariant of the loop of [find_duplicate] after the candidates
    [seen]: [best] is the first of the best-scoring qualifying ones. *)
Definition best_among (listing : NormalizedListing) (seen : list NormalizedListing)
    (best : option (nat * DedupeScore)) : Prop :=
  match best with
  | None => forall j e, seen !! j = Some e -> ~ qualifies listing e
  | Some (k, s) =>
      exists e,
        seen !! k = Some e
        /\ qualifies listing e
        /\ s = compute_dedupe_score listing e
        /\ (forall j e', seen !! j = Some e' -> qualifies listing e' ->
              (combined (compute_dedupe_score listing e') <=? combined s) = true)
        /\ (forall j e', (j < k)%nat -> seen !! j = Some e' -> qualifies listing e' ->
              (combined (compute_dedupe_score listing e') <? combined s) = true)
  end.

(** The invariant of the cross-source loop after the rows [seen], with
    the score of a row against the listing and the rows that match. *)
Definition cross_score (listing : NormalizedListing) (sl : StoredListing) : float :=
  combined (compute_dedupe_score listing (to_normalized sl)).

Definition cross_match (listing : NormalizedListing) (sl : StoredListing) : Prop :=
  sl_source sl <> source listing
  /\ (DEDUPE_COMBINED_THRESHOLD <=? cross_score listing sl) = true.

Definition first_best_cross (listing : NormalizedListing) (seen : list StoredListing)
    (st : option string * float) : Prop :=
  match st with
  | (None, best_score) =>
      best_score = 0
      /\ forall j sl, seen !! j = Some sl -> ~ cross_match listing sl
  | (Some d, best_score) =>
      exists k sl,
        seen !! k = Some sl /\ cross_match listing sl
        /\ d = sl_dedupe_id sl /\ best_score = cross_score listing sl
        /\ (forall j sl', seen !! j = Some sl' -> cross_match listing sl' ->
              (cross_score listing sl' <=? cross_score listing sl) = true)
        /\ (forall j sl', (j < k)%nat -> seen !! j = Some sl' ->
              cross_match listing sl' ->
              (cross_score listing sl' <? cross_score listing sl) = true)
  end.

End WithLibraries.

(** *** A reference similarity, to run the loops on concrete listings

    [fuzz.ratio] as rapidfuzz computes it: the normalised Indel distance
    as a float, one minus it, times 100. *)

Definition of_nat (n : nat) : float := of_uint63 (Uint63.of_Z (Z.of_nat n)).

Definition ratio (s1 s2 : string) : float :=
  let l1 := list_ascii_of_string s1 in
  let l2 := list_ascii_of_string s2 in
  let maximum := (length l1 + length l2)%nat in
  let dist := (maximum - 2 * Lib.lcs l1 l2)%nat in
  let norm_dist :=
    match maximum with
    | O => 0
    | S _ => of_nat dist / of_nat maximum
    end in
  (1 - norm_dist) * 100.

Definition indel_token_sort_ratio (s1 s2 : string) : float :=
  ratio (Lib.join_space (Lib.sorted_tokens (Lib.split s1)))
        (Lib.join_space (Lib.sorted_tokens (Lib.split s2))).

#[export] Instance indel_fuzz64 : RapidFuzz := indel_token_sort_ratio.

(** The listing of the repository's tests ([tests/test_dedupe.py]), with
    its price and area left open. *)
Definition make_listing (src sid u : string) (price area : option float)
    : NormalizedListing :=
  {| source := src; source_id := Some sid; url := u;
     title := "Nice apartment in De Pijp";
     raw_location_text := "De Pijp, Amsterdam";
     neighborhood_match := Some "De Pijp";
     neighborhood_confidence := 0.9; price_total_eur := price;
     price_quality := CONFIRMED; price_includes_service_costs := true;
     gwl_included := false; area_m2 := area; bedrooms := Some 2%Z;
     property_type := Some "apartment"; available_from := Some "2024-03-01";
     description_snippet := "Beautiful apartment with balcony";
     images_hash := None; ambiguous_neighborhood := false |}.

(** A stored row for a listing. *)
Definition stored (dedupe_id : string) (status : Status) (l : NormalizedListing)
    : StoredListing :=
  {| sl_dedupe_id := dedupe_id; sl_source := source l; sl_source_id := source_id l;
     sl_url := url l; sl_title := title l;
     sl_raw_location_text := raw_location_text l;
     sl_neighborhood_match := neighborhood_match l;
     sl_neighborhood_confidence := neighborhood_confidence l;
     sl_price_total_eur := price_total_eur l;
     sl_price_quality := price_quality l;
     sl_price_includes_service_costs := price_includes_service_costs l;
     sl_gwl_included := gwl_included l; sl_area_m2 := area_m2 l;
     sl_bedrooms := bedrooms l; sl_property_type := property_type l;
     sl_available_from := available_from l;
     sl_description_snippet := description_snippet l;
     sl_images_hash := images_hash l;
     sl_ambiguous_neighborhood := ambiguous_neighborhood l;
     sl_status := status |}.

Definition pijp_funda : NormalizedListing :=
  make_listing "Funda" "123" "https://www.funda.nl/detail/huur/amsterdam/123-x"
    (Some 1500) (Some 50).

Definition pijp_pararius : NormalizedListing :=
  make_listing "Pararius" "456" "https://www.pararius.nl/appartement/456"
    (Some 1500) (Some 51.375).

Definition pijp_huurwoningen : NormalizedListing :=
  make_listing "Huurwoningen" "789" "https://www.huurwoningen.nl/789"
    (Some 1507.5) (Some 50.375).

End Binary64.

(** * Properties *)

Lemma Qltb_lt (x y : Q) : Qltb x y = true <-> (x < y)%Q.
Proof.
  unfold Qltb. rewrite negb_true_iff, <- not_true_iff_false, Qle_bool_iff.
  split; [apply Qnot_le_lt | apply Qlt_not_le].
Qed.

Lemma Qltb_ge (x y : Q) : Qltb x y = false <-> (y <= x)%Q.
Proof.
  unfold Qltb. rewrite negb_false_iff. apply Qle_bool_iff.
Qed.

Lemma py_max_ge_r (x y : Q) : (y <= py_max x y)%Q.
Proof.
  unfold py_max. destruct (Qltb x y) eqn:E.
  - apply Qle_refl.
  - now apply Qltb_ge.
Qed.


(** ** The neighborhood matcher *)

Module NeighborhoodFacts.
Import Neighborhood.

(** C9. With three neighborhoods tied at the top score, the matcher
    compares only the first two in registry order: for the location
    "centrum oud west plantage" Centrum, Oud-West and Plantagebuurt all
    score 0.9, and the answer is "Oud-West" although "Plantagebuurt" is
    the longer name among the tied ones. *)
Theorem match_neighborhood_three_way_tie :
  let r := match_neighborhood "" "centrum oud west plantage" "" in
  tied_at_top "" "centrum oud west plantage" "" = ["Centrum"; "Oud-West"; "Plantagebuurt"]
  /\ name r = Some "Oud-West"
  /\ confidence r = (9 # 10)%Q
  /\ (String.length "Oud-West" < String.length "Plantagebuurt")%nat.
Proof.
  vm_compute. repeat split. lia.
Qed.

(** With exactly two entries at the head of the sorted matches and equal
    confidences, the longer of the two names is returned. *)
Lemma two_way_tie_prefers_longer :
  name (match_neighborhood "" "centrum oud west" "") = Some "Oud-West"
  /\ name (match_neighborhood "" "oud west centrum" "") = Some "Oud-West".
Proof.
  vm_compute. split; reflexivity.
Qed.

End NeighborhoodFacts.

(** ** The collector boundary *)

Module CollectorFacts.
Import Collector Samples.

(** C8, as stated, fails: a [collect()] that raises after gathering one
    listing makes [safe_collect] return the empty list, not the listing
    gathered so far. *)
Lemma safe_collect_drops_gathered :
  collect failing_collector = Raised {| message := "timeout" |}
  /\ fst (safe_collect failing_collector) = Returned []
  /\ fst (safe_collect failing_collector) <> Returned [sample_raw].
Proof.
  repeat split. discriminate.
Qed.

(** C8, amended. [safe_collect] never raises: it always returns a list.
    When [collect()] raises, the error is logged and the empty list is
    returned, whatever had been gathered; when [collect()] returns, its
    listings are passed on. *)
Theorem safe_collect_never_raises (self : BaseCollector) :
  (exists listings, fst (safe_collect self) = Returned listings)
  /\ match collect_run self with
     | Failed e gathered =>
         fst (safe_collect self) = Returned []
         /\ map level (snd (safe_collect self)) = [ERROR]
     | Collected listings =>
         fst (safe_collect self) = Returned listings
     end.
Proof.
  unfold safe_collect, collect.
  destruct (collect_run self) as [listings | e gathered]; simpl.
  - split; [exists listings|]; reflexivity.
  - split; [exists []; reflexivity|]. split; reflexivity.
Qed.

End CollectorFacts.

(** ** The filter step *)

Module FilterFacts.
Import Pipeline.

Lemma filter_body_cases (kept : list NormalizedListing) (n : nat) (l : NormalizedListing) :
  (passes_filter l /\ filter_body (kept, n) l = (kept ++ [l], n))
  \/ (~ passes_filter l /\ filter_body (kept, n) l = (kept, S n)).
Proof.
  unfold filter_body, passes_filter.
  destruct (neighborhood_match l) as [nm|] eqn:Hn.
  - destruct (price_total_eur l) as [p|] eqn:Hp.
    + destruct (Qle_bool Config.MAX_PRICE_EUR p) eqn:Hle.
      * right. split; [|reflexivity]. intros [_ H].
        apply Qle_bool_iff in Hle. specialize (H p eq_refl).
        exact (Qlt_not_le _ _ H Hle).
      * left. split; [|reflexivity]. split; [discriminate|].
        intros q Hq. injection Hq as <-. apply Qnot_le_lt. intros H.
        apply Qle_bool_iff in H. congruence.
    + left. split; [|reflexivity]. split; [discriminate|]. intros q Hq. discriminate.
  - right. split; [|reflexivity]. intros [H _]. now apply H.
Qed.

Lemma filter_fold (normalized kept : list NormalizedListing) (n : nat) :
  let r := fold_left filter_body normalized (kept, n) in
  (forall l, In l (fst r) <-> In l kept \/ (In l normalized /\ passes_filter l))
  /\ (length (fst r) + snd r = length kept + n + length normalized)%nat.
Proof.
  revert kept n. induction normalized as [|x xs IH]; intros kept n; cbn [fold_left].
  - simpl. split; [|lia]. intros l. tauto.
  - destruct (filter_body_cases kept n x) as [[Hp ->] | [Hp ->]];
      destruct (IH (kept ++ [x]) n) as [IHa IHb];
      destruct (IH kept (S n)) as [IHc IHd].
    + split.
      * intros l. rewrite IHa, in_app_iff. simpl. intuition (subst; auto).
      * rewrite IHb, length_app. simpl. lia.
    + split.
      * intros l. rewrite IHc. simpl. intuition (subst; tauto).
      * rewrite IHd. simpl. lia.
Qed.

(** C7. The filter keeps exactly the records that have a neighborhood
    match and whose price is unknown or below [MAX_PRICE_EUR]; every
    other record is counted as filtered. In particular a record without
    a neighborhood match is dropped, a record with a known price at or
    above the ceiling is dropped, and a record with a neighborhood match
    and an unknown price is kept. *)
Theorem filter_step_keeps (normalized : list NormalizedListing) :
  let '(kept, filtered_count) := filter_step normalized in
  (forall l, In l kept <-> In l normalized /\ passes_filter l)
  /\ (length kept + filtered_count = length normalized)%nat
  /\ (forall l, In l normalized -> neighborhood_match l = None -> ~ In l kept)
  /\ (forall l p, In l normalized -> price_total_eur l = Some p ->
                  (Config.MAX_PRICE_EUR <= p)%Q -> ~ In l kept)
  /\ (forall l, In l normalized -> neighborhood_match l <> None ->
                price_total_eur l = None -> In l kept).
Proof.
  pose proof (filter_fold normalized [] 0) as H.
  change (fold_left filter_body normalized ([], 0%nat)) with (filter_step normalized) in H.
  destruct (filter_step normalized) as [kept filtered_count]. simpl in H.
  destruct H as [Hin Hlen].
  assert (Hiff : forall l, In l kept <-> In l normalized /\ passes_filter l).
  { intros l. rewrite Hin. tauto. }
  split; [exact Hiff|]. split; [lia|]. repeat split.
  - intros l _ Hn Hk. apply Hiff in Hk as [_ [Hm _]]. now apply Hm.
  - intros l p _ Hp Hle Hk. apply Hiff in Hk as [_ [_ Hlt]].
    exact (Qlt_not_le _ _ (Hlt p Hp) Hle).
  - intros l Hl Hn Hp. apply Hiff. split; [exact Hl|]. split; [exact Hn|].
    intros q Hq. congruence.
Qed.

Import Samples.

(** A record without neighborhood, one at the ceiling, one of unknown
    price and one below the ceiling: the last two are kept. *)
Lemma filter_step_example :
  filter_step
    [ bare "Funda" "1";
      make_listing "Funda" "2" "https://www.funda.nl/2" (Some 2500%Q) None;
      make_listing "Funda" "3" "https://www.funda.nl/3" None None;
      make_listing "Funda" "4" "https://www.funda.nl/4" (Some 2499%Q) None ]
  = ([ make_listing "Funda" "3" "https://www.funda.nl/3" None None;
       make_listing "Funda" "4" "https://www.funda.nl/4" (Some 2499%Q) None ],
     2%nat).
Proof. reflexivity. Qed.

End FilterFacts.

(** ** The reference similarity *)

Module LibFacts.
Import Lib.

Lemma lcs_nil_r (xs : list ascii) : lcs xs [] = 0%nat.
Proof. destruct xs; reflexivity. Qed.

Lemma lcs_cons (x y : ascii) (xs ys : list ascii) :
  lcs (x :: xs) (y :: ys) =
    if Ascii.eqb x y then S (lcs xs ys)
    else Nat.max (lcs xs (y :: ys)) (lcs (x :: xs) ys).
Proof. reflexivity. Qed.

Lemma lcs_sym (xs ys : list ascii) : lcs xs ys = lcs ys xs.
Proof.
  revert ys. induction xs as [|x xs IHx]; intros ys.
  - now rewrite lcs_nil_r.
  - induction ys as [|y ys IHy].
    + reflexivity.
    + rewrite !lcs_cons, (Ascii.eqb_sym y x).
      destruct (Ascii.eqb x y).
      * now rewrite IHx.
      * rewrite IHy, (IHx (y :: ys)). apply Nat.max_comm.
Qed.

Lemma ratio_sym (s1 s2 : string) : ratio s1 s2 = ratio s2 s1.
Proof.
  unfold ratio.
  rewrite (lcs_sym (list_ascii_of_string s1)).
  rewrite (Nat.add_comm (length (list_ascii_of_string s1))).
  reflexivity.
Qed.

#[export] Instance indel_symmetric : RapidFuzzSymmetric indel_fuzz.
Proof.
  intros s t. unfold token_sort_ratio, indel_fuzz, indel_token_sort_ratio.
  now rewrite ratio_sym.
Qed.

(** A longest common subsequence is no longer than either string, so
    the similarity lies between 0 and 100. *)
Lemma lcs_le_l (xs ys : list ascii) : (lcs xs ys <= length xs)%nat.
Proof.
  revert ys. induction xs as [|x xs IHx]; intros ys; [simpl; lia|].
  induction ys as [|y ys IHy]; [simpl; lia|].
  rewrite lcs_cons. destruct (Ascii.eqb x y).
  - specialize (IHx ys). simpl. lia.
  - specialize (IHx (y :: ys)). simpl in *. lia.
Qed.

End LibFacts.

(** ** The dedupe score *)

Module EngineFacts.
Import Text Engine Samples.

Lemma py_max_compat (x x' c : Q) : (x == x')%Q -> (py_max x c == py_max x' c)%Q.
Proof.
  intros H. unfold py_max.
  destruct (Qltb x c) eqn:E, (Qltb x' c) eqn:E'; try reflexivity; try exact H.
  - apply Qltb_lt in E. apply Qltb_ge in E'. rewrite H in E.
    exfalso. exact (Qlt_not_le _ _ E E').
  - apply Qltb_ge in E. apply Qltb_lt in E'. rewrite H in E.
    exfalso. exact (Qlt_not_le _ _ E' E).
Qed.

Lemma Qle_bool_compat (x x' c : Q) : (x == x')%Q -> Qle_bool x c = Qle_bool x' c.
Proof.
  intros H. destruct (Qle_bool x c) eqn:E, (Qle_bool x' c) eqn:E'; try reflexivity.
  - apply Qle_bool_iff in E. rewrite H in E. apply Qle_bool_iff in E. congruence.
  - apply Qle_bool_iff in E'. rewrite <- H in E'. apply Qle_bool_iff in E'. congruence.
Qed.

Section Score.
Context {fuzz : RapidFuzz} {urllib : UrlLib}.

(** The last two assignments of [compute_dedupe_score]. *)
Lemma combined_unfold (a b : NormalizedListing) :
  let s := compute_dedupe_score a b in
  combined s =
    (let c := if images_match s then py_max (weighted_sum s) (85 # 100)%Q
              else weighted_sum s in
     if url_match s then py_max c (90 # 100)%Q else c).
Proof. reflexivity. Qed.

Lemma images_match_floor (a b : NormalizedListing) :
  images_match (compute_dedupe_score a b) = true ->
  (85 # 100 <= combined (compute_dedupe_score a b))%Q.
Proof.
  intros Himg. rewrite combined_unfold. cbv zeta. rewrite Himg.
  destruct (url_match _).
  - eapply Qle_trans; [|apply py_max_ge_r]. discriminate.
  - apply py_max_ge_r.
Qed.

Lemma url_match_floor (a b : NormalizedListing) :
  url_match (compute_dedupe_score a b) = true ->
  (90 # 100 <= combined (compute_dedupe_score a b))%Q.
Proof.
  intros Hurl. rewrite combined_unfold. cbv zeta. rewrite Hurl.
  apply py_max_ge_r.
Qed.

Lemma truthy_true (s : string) : s <> "" -> truthy s = true.
Proof. destruct s; [congruence | reflexivity]. Qed.

(** C1, amended. Two listings whose [images_hash] values are present,
    not empty and equal score at least 0.85; two listings whose urls are
    both not empty and match as the same property score at least 0.90;
    whatever the other signals and whatever the two libraries return. *)
Theorem strong_signal_floors (a b : NormalizedListing) :
  (forall h, images_hash a = Some h -> images_hash b = Some h -> h <> "" ->
             (85 # 100 <= combined (compute_dedupe_score a b))%Q)
  /\ (url a <> "" -> url b <> "" -> _urls_same_property (url a) (url b) = true ->
      (90 # 100 <= combined (compute_dedupe_score a b))%Q).
Proof.
  split.
  - intros h Ha Hb Hh. apply images_match_floor.
    unfold compute_dedupe_score. cbn [images_match].
    rewrite Ha, Hb. cbn [truthy_opt]. rewrite (truthy_true h Hh). cbn [andb].
    apply bool_decide_eq_true_2. reflexivity.
  - intros Ha Hb Hsame. apply url_match_floor.
    unfold compute_dedupe_score. cbn [url_match].
    rewrite (truthy_true _ Ha), (truthy_true _ Hb). cbn [andb]. exact Hsame.
Qed.

Lemma closeness_sym (tol neutral : Q) (x y : option Q) :
  (closeness tol neutral x y == closeness tol neutral y x)%Q.
Proof.
  destruct x as [vx|], y as [vy|]; unfold closeness; try reflexivity.
  rewrite (Qabs_Qminus vx vy). reflexivity.
Qed.

Lemma url_match_sym (a b : NormalizedListing) :
  url_match (compute_dedupe_score a b) = url_match (compute_dedupe_score b a).
Proof.
  unfold compute_dedupe_score. cbn [url_match]. unfold _urls_same_property.
  rewrite (andb_comm (truthy (url a))).
  rewrite (String.eqb_sym (netloc (urlparse (url a)))).
  rewrite (String.eqb_sym (path (urlparse (url a)))).
  reflexivity.
Qed.

Lemma images_match_sym (a b : NormalizedListing) :
  images_match (compute_dedupe_score a b) = images_match (compute_dedupe_score b a).
Proof.
  unfold compute_dedupe_score. cbn [images_match].
  rewrite (andb_comm (truthy_opt (images_hash a))).
  destruct (_ && _); [|reflexivity].
  apply bool_decide_ext. split; congruence.
Qed.

Lemma truthy_opt_known (o : option string) : truthy_opt o = true <-> known o.
Proof.
  unfold known. destruct o as [[|c s]|]; simpl; split.
  - discriminate.
  - intros (s & [= <-] & H). now destruct H.
  - intros _. eexists. split; [reflexivity | discriminate].
  - reflexivity.
  - discriminate.
  - now intros (s & H & _).
Qed.

Lemma neighborhoods_differ_spec (listing e : NormalizedListing) :
  neighborhoods_differ listing e = true <->
  known (neighborhood_match listing) /\ known (neighborhood_match e)
  /\ neighborhood_match listing <> neighborhood_match e.
Proof.
  unfold neighborhoods_differ.
  rewrite !andb_true_iff, negb_true_iff, bool_decide_eq_false, !truthy_opt_known.
  tauto.
Qed.

(** The three guards of the loop body amount to [qualifies]. *)
Lemma qualifies_guards (listing e : NormalizedListing) :
  qualifies listing e <->
  String.eqb (source e) (source listing) = false
  /\ neighborhoods_differ listing e = false
  /\ Qle_bool Config.DEDUPE_COMBINED_THRESHOLD
       (combined (compute_dedupe_score listing e)) = true.
Proof.
  unfold qualifies, eligible.
  rewrite String.eqb_neq, Qle_bool_iff, <- not_true_iff_false, neighborhoods_differ_spec.
  tauto.
Qed.

Lemma best_among_skip (listing x : NormalizedListing) (seen : list NormalizedListing)
    (best : option (nat * DedupeScore)) :
  ~ qualifies listing x -> best_among listing seen best ->
  best_among listing (seen ++ [x]) best.
Proof.
  intros Hx. destruct best as [[k s]|]; simpl.
  - intros (e & Hk & Hq & Hs & Hmax & Hfirst). exists e. split.
    { rewrite lookup_app_l; [exact Hk | now apply lookup_lt_Some in Hk]. }
    split; [exact Hq|]. split; [exact Hs|]. split.
    + intros j e' Hj Hq'. apply lookup_snoc_Some in Hj as [[_ Hj] | [_ <-]].
      * now apply (Hmax j).
      * contradiction.
    + intros j e' Hjk Hj Hq'. apply lookup_snoc_Some in Hj as [[_ Hj] | [_ <-]].
      * now apply (Hfirst j).
      * contradiction.
  - intros Hnone j e Hj. apply lookup_snoc_Some in Hj as [[_ Hj] | [_ <-]].
    + now apply (Hnone j).
    + exact Hx.
Qed.

Lemma best_among_step (listing x : NormalizedListing) (seen : list NormalizedListing)
    (best : option (nat * DedupeScore)) :
  best_among listing seen best ->
  best_among listing (seen ++ [x])
    (if String.eqb (source x) (source listing) then best
     else if neighborhoods_differ listing x then best
     else
       let score := compute_dedupe_score listing x in
       if Qle_bool Config.DEDUPE_COMBINED_THRESHOLD (combined score) then
         match best with
         | None => Some (length seen, score)
         | Some (_, best_score) =>
             if Qltb (combined best_score) (combined score)
             then Some (length seen, score) else best
         end
       else best).
Proof.
  intros Hinv. pose proof (qualifies_guards listing x) as Hg.
  destruct (String.eqb (source x) (source listing)) eqn:Hsrc.
  { apply best_among_skip; [|exact Hinv]. intros H. apply Hg in H as [H _]. discriminate. }
  destruct (neighborhoods_differ listing x) eqn:Hnb.
  { apply best_among_skip; [|exact Hinv]. intros H. apply Hg in H as (_ & H & _). discriminate. }
  cbv zeta.
  destruct (Qle_bool _ _) eqn:Hthr.
  2:{ apply best_among_skip; [|exact Hinv]. intros H. apply Hg in H as (_ & _ & H). discriminate. }
  assert (Hq : qualifies listing x) by (apply Hg; auto).
  assert (Hhere : (seen ++ [x]) !! length seen = Some x)
    by (apply list_lookup_middle; reflexivity).
  destruct best as [[k s]|]; simpl in Hinv.
  - destruct Hinv as (e & Hk & Hqe & Hs & Hmax & Hfirst).
    destruct (Qltb (combined s) (combined (compute_dedupe_score listing x))) eqn:Hlt.
    + apply Qltb_lt in Hlt. simpl. exists x.
      split; [exact Hhere|]. split; [exact Hq|]. split; [reflexivity|]. split.
      * intros j e' Hj Hq'. apply lookup_snoc_Some in Hj as [[_ Hj] | [_ <-]].
        -- apply Qlt_le_weak. eapply Qle_lt_trans; [exact (Hmax j e' Hj Hq') | exact Hlt].
        -- apply Qle_refl.
      * intros j e' Hjk Hj Hq'. apply lookup_snoc_Some in Hj as [[_ Hj] | [Hj' _]]; [|lia].
        eapply Qle_lt_trans; [exact (Hmax j e' Hj Hq') | exact Hlt].
    + apply Qltb_ge in Hlt. simpl. exists e. split.
      { rewrite lookup_app_l; [exact Hk | now apply lookup_lt_Some in Hk]. }
      split; [exact Hqe|]. split; [exact Hs|]. split.
      * intros j e' Hj Hq'. apply lookup_snoc_Some in Hj as [[_ Hj] | [_ <-]].
        -- now apply (Hmax j).
        -- exact Hlt.
      * intros j e' Hjk Hj Hq'. apply lookup_snoc_Some in Hj as [[_ Hj] | [Hj' _]].
        -- now apply (Hfirst j).
        -- apply lookup_lt_Some in Hk. lia.
  - simpl. exists x.
    split; [exact Hhere|]. split; [exact Hq|]. split; [reflexivity|]. split.
    + intros j e' Hj Hq'. apply lookup_snoc_Some in Hj as [[_ Hj] | [_ <-]].
      * now destruct (Hinv j e' Hj).
      * apply Qle_refl.
    + intros j e' Hjk Hj Hq'. apply lookup_snoc_Some in Hj as [[_ Hj] | [Hj' _]]; [|lia].
      now destruct (Hinv j e' Hj).
Qed.

Lemma find_loop_best (listing : NormalizedListing) (rest seen : list NormalizedListing)
    (best : option (nat * DedupeScore)) :
  best_among listing seen best ->
  best_among listing (seen ++ rest) (find_loop listing (length seen) rest best).
Proof.
  revert seen best. induction rest as [|x rest IH]; intros seen best Hinv.
  - rewrite app_nil_r. exact Hinv.
  - cbn [find_loop].
    replace (S (length seen)) with (length (seen ++ [x]))
      by (rewrite length_app; simpl; lia).
    replace (seen ++ x :: rest) with ((seen ++ [x]) ++ rest)
      by (now rewrite <- app_assoc).
    apply IH. now apply best_among_step.
Qed.

(** What [find_duplicate] returns, in terms of the invariant. *)
Lemma find_duplicate_cases (listing : NormalizedListing) (existing : list NormalizedListing) :
  (exists k s e,
     find_loop listing 0 existing None = Some (k, s)
     /\ best_among listing existing (Some (k, s))
     /\ existing !! k = Some e
     /\ find_duplicate listing existing = (source_id e, Some s))
  \/ (find_loop listing 0 existing None = None
      /\ best_among listing existing None
      /\ find_duplicate listing existing = (None, None)).
Proof.
  pose proof (find_loop_best listing existing [] None) as H.
  simpl in H. specialize (H ltac:(intros j e Hj; discriminate)).
  unfold find_duplicate.
  destruct (find_loop listing 0 existing None) as [[k s]|] eqn:Hloop.
  - left. pose proof H as (e & Hk & _). exists k, s, e. rewrite Hk. auto.
  - right. auto.
Qed.

(** C10. Whenever [find_duplicate] returns a match, the first component
    of the result is the [source_id] of the matched candidate, a
    [NormalizedListing], which has no [dedupe_id] field. *)
Theorem find_duplicate_returns_source_id (listing : NormalizedListing)
    (existing : list NormalizedListing) (r : option string) (s : DedupeScore) :
  find_duplicate listing existing = (r, Some s) ->
  exists i e,
    existing !! i = Some e
    /\ s = compute_dedupe_score listing e
    /\ r = source_id e.
Proof.
  intros Hfd.
  destruct (find_duplicate_cases listing existing)
    as [(k & s' & e & _ & Hinv & Hk & Heq) | (_ & _ & Heq)];
    rewrite Heq in Hfd; [|discriminate].
  injection Hfd as <- <-.
  destruct Hinv as (e' & Hk' & _ & Hs & _).
  assert (e' = e) as -> by congruence.
  exists k, e. auto.
Qed.

Context {sym : RapidFuzzSymmetric fuzz}.

Lemma title_sim_sym (a b : NormalizedListing) :
  (title_sim (compute_dedupe_score a b) == title_sim (compute_dedupe_score b a))%Q.
Proof.
  unfold compute_dedupe_score. cbn [title_sim].
  rewrite (andb_comm (truthy (title a))).
  destruct (_ && _); [|reflexivity].
  now rewrite token_sort_ratio_sym.
Qed.

Lemma address_sim_sym (a b : NormalizedListing) :
  (address_sim (compute_dedupe_score a b) == address_sim (compute_dedupe_score b a))%Q.
Proof.
  unfold compute_dedupe_score. cbn [address_sim].
  rewrite (andb_comm (truthy (raw_location_text a))).
  destruct (_ && _); [|reflexivity].
  now rewrite token_sort_ratio_sym.
Qed.

Lemma weighted_sum_sym (a b : NormalizedListing) :
  (weighted_sum (compute_dedupe_score a b) == weighted_sum (compute_dedupe_score b a))%Q.
Proof.
  unfold weighted_sum.
  rewrite (title_sim_sym a b), (address_sim_sym a b),
    (url_match_sym a b), (images_match_sym a b).
  assert (Hp : (price_sim (compute_dedupe_score a b)
                == price_sim (compute_dedupe_score b a))%Q)
    by apply closeness_sym.
  assert (Ha : (area_sim (compute_dedupe_score a b)
                == area_sim (compute_dedupe_score b a))%Q)
    by apply closeness_sym.
  now rewrite Hp, Ha.
Qed.

(** C6. The combined score does not depend on the order of the two
    listings, for a similarity library that is itself symmetric. *)
Theorem compute_dedupe_score_symmetric (a b : NormalizedListing) :
  (combined (compute_dedupe_score a b) == combined (compute_dedupe_score b a))%Q.
Proof.
  rewrite (combined_unfold a b), (combined_unfold b a). cbv zeta.
  rewrite (url_match_sym a b), (images_match_sym a b).
  pose proof (weighted_sum_sym a b) as HW.
  destruct (url_match _), (images_match _);
    repeat apply py_max_compat; exact HW.
Qed.

End Score.

Import Lib.

(** C1, as stated, fails on the empty string: two listings with the
    empty url match as the same property, and two listings with the
    same empty image hash have present and equal hashes, yet their
    score is 0.145. *)
Lemma empty_signals_not_floored :
  let a := bare_hashed "Funda" "1" in
  let b := bare_hashed "Pararius" "2" in
  _urls_same_property (url a) (url b) = true
  /\ images_hash a = Some "" /\ images_hash b = Some ""
  /\ (combined (compute_dedupe_score a b) == 145 # 1000)%Q
  /\ ~ (90 # 100 <= combined (compute_dedupe_score a b))%Q
  /\ ~ (85 # 100 <= combined (compute_dedupe_score a b))%Q.
Proof.
  cbv zeta. repeat split; try reflexivity; vm_compute; intros H; now apply H.
Qed.

(** Symmetry on two listings of the repository's tests, with the
    reference similarity. *)
Lemma compute_dedupe_score_symmetric_witness :
  (combined (compute_dedupe_score
               (make_listing "TestSource" "123" "https://example.com/listing/123"
                  (Some 1500%Q) None)
               (make_listing "OtherSource" "456" "https://other.com/456"
                  (Some 1520%Q) None))
   == combined (compute_dedupe_score
                  (make_listing "OtherSource" "456" "https://other.com/456"
                     (Some 1520%Q) None)
                  (make_listing "TestSource" "123" "https://example.com/listing/123"
                     (Some 1500%Q) None)))%Q.
Proof.
  apply (@compute_dedupe_score_symmetric indel_fuzz plain_urllib LibFacts.indel_symmetric).
Defined.

(** The two floors at work on the listings of the repository's tests. *)
Lemma strong_signal_floors_witness :
  (85 # 100 <=
     combined (compute_dedupe_score
                 (make_listing "TestSource" "123" "https://example.com/listing/123"
                    (Some 1500%Q) (Some "abc123"))
                 (make_listing "OtherSource" "123" "https://other.com/456"
                    (Some 2100%Q) (Some "abc123"))))%Q
  /\ (90 # 100 <=
        combined (compute_dedupe_score
                    (make_listing "TestSource" "123" "https://example.com/listing/123"
                       (Some 1500%Q) None)
                    (make_listing "OtherSource" "123" "https://example.com/listing/123"
                       (Some 2100%Q) None)))%Q.
Proof.
  split.
  - apply (proj1 (strong_signal_floors _ _) "abc123"); [reflexivity | reflexivity | discriminate].
  - apply (proj2 (strong_signal_floors _ _)); [discriminate | discriminate | reflexivity].
Defined.

(** Two candidates tie at 0.75 above the threshold; the first one met
    is returned, after the candidate of the listing's own source was
    skipped. *)
Lemma find_duplicate_tie_first :
  fst (find_duplicate pijp_funda [pijp_funda; pijp_pararius; pijp_huurwoningen])
    = Some "456"
  /\ fst (find_duplicate pijp_funda [pijp_funda; pijp_huurwoningen; pijp_pararius])
       = Some "789"
  /\ (combined (compute_dedupe_score pijp_funda pijp_pararius)
      == combined (compute_dedupe_score pijp_funda pijp_huurwoningen))%Q.
Proof.
  vm_compute. repeat split.
Qed.

Lemma find_duplicate_returns_source_id_witness :
  exists s,
    find_duplicate pijp_funda [pijp_funda; pijp_pararius] = (Some "456", Some s)
    /\ exists i e,
         [pijp_funda; pijp_pararius] !! i = Some e
         /\ s = compute_dedupe_score pijp_funda e
         /\ Some "456" = source_id e.
Proof.
  eexists. split.
  - vm_compute. reflexivity.
  - apply (find_duplicate_returns_source_id pijp_funda [pijp_funda; pijp_pararius]).
    vm_compute. reflexivity.
Defined.

End EngineFacts.

(** ** The dedupe id of a kept record *)

Module PipelineFacts.
Import Text Pipeline.

Section DedupeId.
Context {fuzz : RapidFuzz} {urllib : UrlLib} {uuid : UuidSource}.

Lemma zip_map_fold {A B S : Type} (f : S -> B * A -> S) (g : A -> B) (l : list A) (st : S) :
  fold_left f (zip (map g l) l) st = fold_left (fun st x => f st (g x, x)) l st.
Proof.
  revert st. induction l as [|x l IH]; intros st; [reflexivity|]. simpl. apply IH.
Qed.

(** No row with the key of the listing: the dict has no entry for it. *)
Lemma existing_dedupe_map_None (listing : NormalizedListing) (existing : list StoredListing)
    (m : gmap (string * option string) string) :
  m !! (source listing, source_id listing) = None ->
  (forall sl, sl ∈ existing ->
     ~ (sl_source sl = source listing /\ sl_source_id sl = source_id listing)) ->
  fold_left
    (fun m sl =>
       if truthy_opt (sl_source_id sl)
       then <[(sl_source sl, sl_source_id sl) := sl_dedupe_id sl]> m
       else m)
    existing m !! (source listing, source_id listing) = None.
Proof.
  revert m. induction existing as [|sl rest IH]; intros m Hm Hno; [exact Hm|].
  cbn [fold_left]. apply IH.
  - destruct (truthy_opt (sl_source_id sl)); [|exact Hm].
    rewrite lookup_insert_ne; [exact Hm|].
    intros [= H1 H2]. apply (Hno sl); [apply elem_of_cons; now left | auto].
  - intros sl' Hsl'. apply Hno. apply elem_of_cons. now right.
Qed.

Lemma threshold_positive : (0 < Config.DEDUPE_COMBINED_THRESHOLD)%Q.
Proof. reflexivity. Qed.

Lemma best_cross_skip (listing : NormalizedListing) (x : StoredListing)
    (seen : list StoredListing) (st : option string * Q) :
  (match st with
   | (Some _, best_score) => cross_match listing x -> (cross_score listing x <= best_score)%Q
   | (None, _) => ~ cross_match listing x
   end) ->
  best_cross listing seen st -> best_cross listing (seen ++ [x]) st.
Proof.
  destruct st as [[d|] bs]; simpl; intros Hx.
  - intros (sl & Hin & Hm & Hd & Hbs & Hmax). exists sl.
    split; [apply elem_of_app; now left|]. split; [exact Hm|].
    split; [exact Hd|]. split; [exact Hbs|].
    intros sl' Hin' Hm'. apply elem_of_app in Hin' as [Hin' | Hin'].
    + now apply Hmax.
    + apply list_elem_of_singleton in Hin' as ->. rewrite <- Hbs. now apply Hx.
  - intros [Hbs Hnone]. split; [exact Hbs|].
    intros sl Hin. apply elem_of_app in Hin as [Hin | Hin].
    + now apply Hnone.
    + now apply list_elem_of_singleton in Hin as ->.
Qed.

Lemma best_cross_step (listing : NormalizedListing) (x : StoredListing)
    (seen : list StoredListing) (st : option string * Q) :
  best_cross listing seen st ->
  best_cross listing (seen ++ [x]) (cross_source_step listing st (to_normalized x, x)).
Proof.
  intros Hinv. unfold cross_source_step. destruct st as [best bs].
  change (source (to_normalized x)) with (sl_source x).
  change (Engine.combined (Engine.compute_dedupe_score listing (to_normalized x)))
    with (cross_score listing x).
  destruct (String.eqb (sl_source x) (source listing)) eqn:Hsrc.
  { apply best_cross_skip; [|exact Hinv].
    apply String.eqb_eq in Hsrc. destruct best; intros [H _]; contradiction. }
  apply String.eqb_neq in Hsrc.
  destruct (Qle_bool Config.DEDUPE_COMBINED_THRESHOLD (cross_score listing x)) eqn:Hthr.
  2:{ apply best_cross_skip; [|exact Hinv].
      destruct best; intros [_ H]; apply Qle_bool_iff in H; congruence. }
  apply Qle_bool_iff in Hthr.
  destruct (Qltb bs (cross_score listing x)) eqn:Hlt; cbn [andb].
  - apply Qltb_lt in Hlt. simpl. exists x.
    split; [apply elem_of_app; right; now apply list_elem_of_singleton|].
    split; [now split|]. split; [reflexivity|]. split; [reflexivity|].
    intros sl' Hin' Hm'. apply elem_of_app in Hin' as [Hin' | Hin'].
    + destruct best as [d|]; simpl in Hinv.
      * destruct Hinv as (sl & _ & _ & _ & Hbs & Hmax).
        apply Qlt_le_weak. eapply Qle_lt_trans; [apply (Hmax sl' Hin' Hm')|].
        now rewrite <- Hbs.
      * destruct Hinv as [_ Hnone]. now destruct (Hnone sl' Hin').
    + apply list_elem_of_singleton in Hin' as ->. apply Qle_refl.
  - apply Qltb_ge in Hlt. apply best_cross_skip; [|exact Hinv].
    destruct best as [d|]; [intros _; exact Hlt|].
    destruct Hinv as [-> _]. intros _.
    apply (Qlt_not_le _ _ threshold_positive). eapply Qle_trans; eassumption.
Qed.

Lemma cross_source_loop_best (listing : NormalizedListing) (existing : list StoredListing) :
  best_cross listing existing (cross_source_loop listing existing).
Proof.
  unfold cross_source_loop. rewrite zip_map_fold.
  assert (H : forall rest seen st,
             best_cross listing seen st ->
             best_cross listing (seen ++ rest)
               (fold_left (fun st x => cross_source_step listing st (to_normalized x, x))
                  rest st)).
  { induction rest as [|x rest IH]; intros seen st Hinv.
    - rewrite app_nil_r. exact Hinv.
    - cbn [fold_left].
      replace (seen ++ x :: rest) with ((seen ++ [x]) ++ rest)
        by (now rewrite <- app_assoc).
      apply IH. now apply best_cross_step. }
  apply (H existing [] (None, 0%Q)). simpl. split; [reflexivity|].
  intros sl Hsl. now apply elem_of_nil in Hsl.
Qed.

(** Identifiers drawn at different times differ when the generator
    never repeats itself. *)
Lemma generate_dedupe_id_distinct (m n : nat) :
  (forall i j, uuid4 i = uuid4 j -> i = j) ->
  m <> n -> fst (generate_dedupe_id m) <> fst (generate_dedupe_id n).
Proof.
  intros Hinj Hne H. apply Hne. now apply Hinj.
Qed.

End DedupeId.

Import Lib Samples.

(** Against a store holding the same flat ACTIVE at Pararius and
    REMOVED at Huurwoningen the record adopts the id of the Pararius
    row; on an empty store it draws a new one. *)
Lemma resolve_dedupe_id_examples :
  resolve_dedupe_id
    (Store.get_listings
       [ stored "d-1" "2024-01-01" ACTIVE 0 pijp_pararius;
         stored "d-2" "2024-01-01" REMOVED 2 pijp_huurwoningen ] ACTIVE)
    pijp_funda 7 = ("d-1", 7%nat)
  /\ resolve_dedupe_id (Store.get_listings [] ACTIVE) pijp_funda 7
     = ("00000000-0000-4000-8000-7", 8%nat).
Proof.
  vm_compute. split; reflexivity.
Qed.

End PipelineFacts.

(** ** The change-tracking store *)

Module StoreFacts.
Import Text Store.


(** [mark_missing] works row by row and keeps the rows in place. *)
Lemma mark_missing_lookup (conn : Db) (source : string) (seen : gset string) (i : nat) :
  fst (mark_missing conn source seen) !! i = fst ∘ mark_row source seen <$> conn !! i.
Proof.
  unfold mark_missing. cbn [fst].
  now rewrite !list_lookup_fmap, option_fmap_compose.
Qed.

(** A row is in the list [mark_missing] returns exactly when [mark_row]
    reports it. *)
Lemma mark_missing_reported (conn : Db) (source : string) (seen : gset string)
    (sl' : StoredListing) :
  sl' ∈ snd (mark_missing conn source seen) <->
  exists sl, sl ∈ conn /\ mark_row source seen sl = (sl', true).
Proof.
  unfold mark_missing. cbn [snd].
  rewrite list_elem_of_fmap. split.
  - intros ([r b] & -> & Hin). apply list_elem_of_filter in Hin as [Hb Hin].
    simpl in Hb. subst b. apply list_elem_of_fmap in Hin as (sl & Hsl & Hin).
    exists sl. split; [exact Hin | now rewrite <- Hsl].
  - intros (sl & Hin & Hrow). exists (sl', true). split; [reflexivity|].
    apply list_elem_of_filter. split; [reflexivity|].
    apply list_elem_of_fmap. exists sl. split; [now rewrite Hrow | exact Hin].
Qed.







Import Samples.


(** The same runs, evaluated: reported on the second run only, and
    REACTIVATED by the re-sighting. *)
Lemma removed_once_then_reactivated_example :
  let sl := stored "d-1" "2024-01-01" ACTIVE 0 pijp_funda in
  snd (missing_runs_trace [∅; {["999"]}; ∅] sl) = [false; true; false]
  /\ (fst <$> (snd <$> resight "2024-01-04" (fst (missing_runs_trace [∅; ∅] sl)) pijp_funda))
     = Some ChangeType.REACTIVATED.
Proof.
  vm_compute. split; reflexivity.
Qed.

End StoreFacts.

(** ** Price strings *)

Module PriceFacts.
Import Text Price.

Local Open Scope string_scope.

Lemma append_cons (d : ascii) (a b : string) : String d a ++ b = String d (a ++ b).
Proof. reflexivity. Qed.

Lemma append_nil (b : string) : "" ++ b = b.
Proof. reflexivity. Qed.

Lemma is_digit_not_sep (c d : ascii) :
  is_digit c = false -> is_digit d = true -> Ascii.eqb c d = false.
Proof.
  intros Hc Hd. destruct (Ascii.eqb_spec c d) as [->|]; [congruence | reflexivity].
Qed.

Section Separator.
Variable c : ascii.
Hypothesis c_not_digit : is_digit c = false.

Lemma all_digits_cons (d : ascii) (s : string) :
  all_digits (String d s) = is_digit d && all_digits s.
Proof. reflexivity. Qed.

Lemma has_char_cons (d : ascii) (s : string) :
  has_char c (String d s) = Ascii.eqb c d || has_char c s.
Proof. reflexivity. Qed.

Lemma has_char_digits (s : string) : all_digits s = true -> has_char c s = false.
Proof.
  induction s as [|d s IH]; [reflexivity|].
  rewrite all_digits_cons, has_char_cons. intros [Hd Hs]%andb_true_iff.
  now rewrite (is_digit_not_sep c d c_not_digit Hd), IH.
Qed.

Lemma has_char_app (a b : string) :
  has_char c (a ++ b) = has_char c a || has_char c b.
Proof.
  induction a as [|d a IH]; [reflexivity|].
  rewrite ?append_cons, ?append_nil. rewrite !has_char_cons, IH. now rewrite orb_assoc.
Qed.

Lemma has_char_sep (a b : string) : has_char c (a ++ String c b) = true.
Proof.
  rewrite has_char_app, has_char_cons, Ascii.eqb_refl. now rewrite orb_true_r.
Qed.

Lemma remove_char_absent (s : string) : has_char c s = false -> remove_char c s = s.
Proof.
  induction s as [|d s IH]; [reflexivity|].
  rewrite has_char_cons. intros [Hd Hs]%orb_false_iff.
  cbn [remove_char]. now rewrite Hd, IH.
Qed.

Lemma remove_char_app (a b : string) :
  remove_char c (a ++ b) = remove_char c a ++ remove_char c b.
Proof.
  induction a as [|d a IH]; [reflexivity|].
  rewrite ?append_cons, ?append_nil. cbn [remove_char]. destruct (Ascii.eqb c d); [exact IH|].
  rewrite ?append_cons, ?append_nil. now rewrite IH.
Qed.

Lemma remove_char_sep (a b : string) :
  has_char c a = false -> has_char c b = false ->
  remove_char c (a ++ String c b) = a ++ b.
Proof.
  intros Ha Hb. rewrite remove_char_app. cbn [remove_char].
  now rewrite Ascii.eqb_refl, !remove_char_absent.
Qed.

Lemma to_point_absent (s : string) : has_char c s = false -> to_point c s = s.
Proof.
  induction s as [|d s IH]; [reflexivity|].
  rewrite has_char_cons. intros [Hd Hs]%orb_false_iff.
  cbn [to_point]. now rewrite Hd, IH.
Qed.

Lemma to_point_sep (a b : string) :
  has_char c a = false -> has_char c b = false ->
  to_point c (a ++ String c b) = a ++ String "." b.
Proof.
  intros Ha Hb. induction a as [|d a IH].
  - rewrite ?append_cons, ?append_nil. cbn [to_point]. now rewrite Ascii.eqb_refl, to_point_absent.
  - rewrite has_char_cons in Ha. apply orb_false_iff in Ha as [Hd Ha].
    rewrite ?append_cons, ?append_nil. cbn [to_point]. now rewrite Hd, IH.
Qed.

Lemma after_last_absent (s : string) : has_char c s = false -> after_last c s = None.
Proof.
  induction s as [|d s IH]; [reflexivity|].
  rewrite has_char_cons. intros [Hd Hs]%orb_false_iff.
  cbn [after_last]. now rewrite IH, Hd.
Qed.

Lemma after_last_sep (a b : string) :
  has_char c b = false -> after_last c (a ++ String c b) = Some b.
Proof.
  intros Hb. induction a as [|d a IH].
  - rewrite ?append_cons, ?append_nil. cbn [after_last]. now rewrite after_last_absent, Ascii.eqb_refl.
  - rewrite ?append_cons, ?append_nil. cbn [after_last]. now rewrite IH.
Qed.

Lemma take_until_absent (s : string) :
  has_char c s = false -> Lib.take_until (Ascii.eqb c) s = (s, "").
Proof.
  induction s as [|d s IH]; [reflexivity|].
  rewrite has_char_cons. intros [Hd Hs]%orb_false_iff.
  cbn [Lib.take_until]. now rewrite Hd, IH.
Qed.

Lemma take_until_sep (a b : string) :
  has_char c a = false ->
  Lib.take_until (Ascii.eqb c) (a ++ String c b) = (a, String c b).
Proof.
  intros Ha. induction a as [|d a IH].
  - rewrite ?append_cons, ?append_nil. cbn [Lib.take_until]. now rewrite Ascii.eqb_refl.
  - rewrite has_char_cons in Ha. apply orb_false_iff in Ha as [Hd Ha].
    rewrite ?append_cons, ?append_nil. cbn [Lib.take_until]. now rewrite Hd, IH.
Qed.

End Separator.

Lemma point_not_digit : is_digit "." = false.
Proof. reflexivity. Qed.

Lemma comma_not_digit : is_digit "," = false.
Proof. reflexivity. Qed.

Lemma all_digits_app (a b : string) :
  all_digits (a ++ b) = all_digits a && all_digits b.
Proof.
  induction a as [|d a IH]; [reflexivity|].
  rewrite ?append_cons, ?append_nil. rewrite !all_digits_cons, IH. now rewrite andb_assoc.
Qed.

Lemma truthy_app_r (a b : string) : truthy b = true -> truthy (a ++ b) = true.
Proof. destruct a; [rewrite append_nil; auto | reflexivity]. Qed.

(** [float] of a string of digits, and of digits around one point. *)
Lemma to_float_digits (a : string) :
  all_digits a = true -> truthy a = true ->
  to_float a = Some (inject_Z (digits_value a)).
Proof.
  intros Ha Hne. unfold to_float.
  rewrite (take_until_absent "." a (has_char_digits "." point_not_digit a Ha)).
  now rewrite Ha, Hne.
Qed.

Lemma to_float_point (a b : string) :
  all_digits a = true -> all_digits b = true -> truthy a || truthy b = true ->
  to_float (a ++ String "." b) =
    Some (inject_Z (digits_value a)
          + Qmake (digits_value b) (Pos.of_nat (10 ^ String.length b)))%Q.
Proof.
  intros Ha Hb Hne. unfold to_float.
  rewrite (take_until_sep "." a b (has_char_digits "." point_not_digit a Ha)).
  now rewrite Ha, Hb, Hne.
Qed.

(** A lone separator followed by exactly three digits is dropped;
    followed by any other number of digits it is the decimal point. *)
Lemma lone_separator (c : ascii) (a b : string) :
  c = "."%char \/ c = ","%char ->
  all_digits a = true -> all_digits b = true -> truthy a || truthy b = true ->
  parsed_value (a ++ String c b) =
    if (String.length b =? 3)%nat
    then Some (inject_Z (digits_value (a ++ b)))
    else Some (inject_Z (digits_value a)
               + Qmake (digits_value b) (Pos.of_nat (10 ^ String.length b)))%Q.
Proof.
  intros Hc Ha Hb Hne.
  assert (Hpa := has_char_digits "." point_not_digit a Ha).
  assert (Hpb := has_char_digits "." point_not_digit b Hb).
  assert (Hca := has_char_digits "," comma_not_digit a Ha).
  assert (Hcb := has_char_digits "," comma_not_digit b Hb).
  assert (Hthree : forall d, is_digit d = false ->
            three_digits_follow d (a ++ String d b) = (String.length b =? 3)%nat).
  { intros d Hd. unfold three_digits_follow.
    rewrite (after_last_sep d a b (has_char_digits d Hd b Hb)), Hb.
    apply andb_true_r. }
  assert (Hjoin : (String.length b =? 3)%nat = true ->
            to_float (a ++ b) = Some (inject_Z (digits_value (a ++ b)))).
  { intros H3. apply to_float_digits.
    - now rewrite all_digits_app, Ha, Hb.
    - apply truthy_app_r. destruct b; [discriminate | reflexivity]. }
  unfold parsed_value, resolve_separators.
  destruct Hc as [-> | ->].
  - rewrite (has_char_sep "." a b), has_char_app, has_char_cons, Hca, Hcb.
    cbn [Ascii.eqb orb andb Bool.eqb]. rewrite (Hthree "."%char point_not_digit).
    destruct (String.length b =? 3)%nat eqn:H3.
    + rewrite (remove_char_sep "." a b Hpa Hpb). now apply Hjoin.
    + now apply to_float_point.
  - rewrite (has_char_sep "," a b), has_char_app, has_char_cons, Hpa, Hpb.
    cbn [Ascii.eqb orb andb Bool.eqb]. rewrite (Hthree ","%char comma_not_digit).
    destruct (String.length b =? 3)%nat eqn:H3.
    + rewrite (remove_char_sep "," a b Hca Hcb). now apply Hjoin.
    + rewrite (to_point_sep "," a b Hca Hcb). now apply to_float_point.
Qed.

Lemma append_assoc (a b c : string) : (a ++ b) ++ c = a ++ (b ++ c).
Proof.
  induction a as [|d a IH]; [reflexivity|].
  rewrite !append_cons. now rewrite IH.
Qed.

(** With both separators the right-most one is the decimal point and
    the other one is dropped. *)
Lemma both_separators (a b c : string) :
  all_digits a = true -> all_digits b = true -> all_digits c = true ->
  truthy (a ++ b) || truthy c = true ->
  let v := Some (inject_Z (digits_value (a ++ b))
                 + Qmake (digits_value c) (Pos.of_nat (10 ^ String.length c)))%Q in
  parsed_value (a ++ String "." (b ++ String "," c)) = v
  /\ parsed_value (a ++ String "," (b ++ String "." c)) = v.
Proof.
  intros Ha Hb Hc Hne v.
  assert (Hpa := has_char_digits "." point_not_digit a Ha).
  assert (Hpb := has_char_digits "." point_not_digit b Hb).
  assert (Hpc := has_char_digits "." point_not_digit c Hc).
  assert (Hca := has_char_digits "," comma_not_digit a Ha).
  assert (Hcb := has_char_digits "," comma_not_digit b Hb).
  assert (Hcc := has_char_digits "," comma_not_digit c Hc).
  assert (Hab : all_digits (a ++ b) = true) by now rewrite all_digits_app, Ha, Hb.
  assert (Hfloat : to_float ((a ++ b) ++ String "." c) = v)
    by now apply to_float_point.
  unfold parsed_value, resolve_separators. split.
  - assert (Hrest : has_char "." (b ++ String "," c) = false).
    { rewrite has_char_app, has_char_cons, Hpb, Hpc. reflexivity. }
    rewrite (has_char_sep "." a), (has_char_app "," a), has_char_cons,
      (has_char_sep "," b c), (after_last_sep "." a _ Hrest), (has_char_sep "," b c).
    rewrite orb_true_r. cbn [andb].
    rewrite (remove_char_sep "." a _ Hpa Hrest), <- append_assoc.
    rewrite (to_point_sep "," (a ++ b) c); [exact Hfloat | | exact Hcc].
    rewrite has_char_app, Hca, Hcb. reflexivity.
  - rewrite <- (append_cons "," b (String "." c)), <- append_assoc.
    rewrite (has_char_sep "." (a ++ String "," b) c),
      (has_char_app "," (a ++ String "," b)), (has_char_sep "," a b).
    cbn [orb andb].
    rewrite (after_last_sep "." (a ++ String "," b) c Hpc), Hcc.
    rewrite remove_char_app, (remove_char_sep "," a b Hca Hcb).
    rewrite (remove_char_absent "," (String "." c)); [exact Hfloat|].
    rewrite has_char_cons, Hcc. reflexivity.
Qed.

Lemma in_range_iff (v : Q) :
  Qle_bool 100 v && Qle_bool v 50000 = true <-> (100 <= v /\ v <= 50000)%Q.
Proof.
  rewrite andb_true_iff, !Qle_bool_iff. reflexivity.
Qed.

(** C5. A value with both separators takes the right-most one as the
    decimal point; a lone [.] or [,] is a thousands separator exactly
    when three digits follow it, and the decimal point otherwise; so
    "1.500", "1.500,00" and "1,500.00" all parse to 1500. A value
    outside [100, 50000] resolves to absence, and every value returned
    lies in that interval. *)
Theorem parse_price_string_rules :
  (_parse_price_string "1.500" = Some 1500%Q
   /\ _parse_price_string "1.500,00" = Some 1500%Q
   /\ _parse_price_string "1,500.00" = Some 1500%Q)
  /\ (forall (c : ascii) (a b : string),
        c = "."%char \/ c = ","%char ->
        all_digits a = true -> all_digits b = true -> truthy a || truthy b = true ->
        parsed_value (a ++ String c b) =
          if (String.length b =? 3)%nat
          then Some (inject_Z (digits_value (a ++ b)))
          else Some (inject_Z (digits_value a)
                     + Qmake (digits_value b) (Pos.of_nat (10 ^ String.length b)))%Q)
  /\ (forall a b c : string,
        all_digits a = true -> all_digits b = true -> all_digits c = true ->
        truthy (a ++ b) || truthy c = true ->
        let v := Some (inject_Z (digits_value (a ++ b))
                       + Qmake (digits_value c) (Pos.of_nat (10 ^ String.length c)))%Q in
        parsed_value (a ++ String "." (b ++ String "," c)) = v
        /\ parsed_value (a ++ String "," (b ++ String "." c)) = v)
  /\ (forall (s : string) (v : Q),
        parsed_value s = Some v -> ~ (100 <= v /\ v <= 50000)%Q ->
        _parse_price_string s = None)
  /\ (forall (s : string) (q : Q),
        _parse_price_string s = Some q -> (100 <= q /\ q <= 50000)%Q).
Proof.
  split; [repeat split; reflexivity|].
  split; [exact lone_separator|].
  split; [exact both_separators|].
  split.
  - intros s v Hv Hout. unfold _parse_price_string. rewrite Hv.
    destruct (Qle_bool 100 v && Qle_bool v 50000) eqn:Hr; [|reflexivity].
    apply in_range_iff in Hr. contradiction.
  - intros s q. unfold _parse_price_string.
    destruct (parsed_value s) as [v|]; [|discriminate].
    destruct (Qle_bool 100 v && Qle_bool v 50000) eqn:Hr; [|discriminate].
    intros [= <-]. apply in_range_iff in Hr. now rewrite Qred_correct.
Qed.

(** The rules at work: "2.000" and "2,000" are two thousand, "1250,50"
    is a decimal, and "50.001" is out of range. *)
Lemma parse_price_string_rules_witness :
  parsed_value "2.000" = Some (inject_Z 2000)
  /\ parsed_value "1250,50" = Some (inject_Z 1250 + Qmake 50 100)%Q
  /\ parsed_value "1.250,5" = Some (inject_Z 1250 + Qmake 5 10)%Q
  /\ _parse_price_string "50.001" = None.
Proof.
  destruct parse_price_string_rules as (_ & Hlone & Hboth & Hout & _).
  split; [exact (Hlone "."%char "2" "000" (or_introl eq_refl) eq_refl eq_refl eq_refl)|].
  split; [exact (Hlone ","%char "1250" "50" (or_intror eq_refl) eq_refl eq_refl eq_refl)|].
  split; [exact (proj1 (Hboth "1" "250" "5" eq_refl eq_refl eq_refl eq_refl))|].
  apply (Hout "50.001" (inject_Z 50001)); [reflexivity|].
  intros [_ H]. now apply H.
Defined.

End PriceFacts.

(** ** Normalized text *)

Module TextShapeFacts.
Import Text TextShape Neighborhood.

Lemma lower_char_idem (c : ascii) : lower_char (lower_char c) = lower_char c.
Proof. destruct c as [[] [] [] [] [] [] [] []]; reflexivity. Qed.

Lemma space_plain : plain_char " " = true.
Proof. reflexivity. Qed.

Lemma space_not_punct (c : ascii) : is_space c = true -> is_punct c = false.
Proof. destruct c as [[] [] [] [] [] [] [] []]; intros H; try reflexivity; discriminate H. Qed.

Lemma lower_char_space (c : ascii) : is_space (lower_char c) = is_space c.
Proof. destruct c as [[] [] [] [] [] [] [] []]; reflexivity. Qed.

Lemma all_chars_cons (p : ascii -> bool) (c : ascii) (s : string) :
  all_chars p (String c s) = p c && all_chars p s.
Proof. reflexivity. Qed.

(** *** What each pass produces *)

Lemma lower_fixed (s : string) :
  all_chars (fun c => Ascii.eqb (lower_char c) c) (lower s) = true.
Proof.
  induction s as [|c s IH]; [reflexivity|].
  cbn [lower]. rewrite all_chars_cons, IH, lower_char_idem, Ascii.eqb_refl. reflexivity.
Qed.

Lemma sub_runs_punct_plain (b : bool) (s : string) :
  all_chars (fun c => Ascii.eqb (lower_char c) c) s = true ->
  all_chars plain_char (sub_runs_from is_punct b s) = true.
Proof.
  revert b. induction s as [|c s IH]; intros b; [reflexivity|].
  rewrite all_chars_cons. intros [Hc Hs]%andb_true_iff. cbn [sub_runs_from].
  destruct (is_punct c) eqn:Hp.
  - destruct b; [now apply IH|]. rewrite all_chars_cons, space_plain. now apply IH.
  - rewrite all_chars_cons. unfold plain_char at 1. rewrite Hc, Hp. now apply IH.
Qed.

Lemma sub_runs_space_plain (b : bool) (s : string) :
  all_chars plain_char s = true ->
  all_chars plain_char (sub_runs_from is_space b s) = true.
Proof.
  revert b. induction s as [|c s IH]; intros b; [reflexivity|].
  rewrite all_chars_cons. intros [Hc Hs]%andb_true_iff. cbn [sub_runs_from].
  destruct (is_space c).
  - destruct b; [now apply IH|]. rewrite all_chars_cons, space_plain. now apply IH.
  - rewrite all_chars_cons, Hc. now apply IH.
Qed.

Lemma sub_runs_space_spaced (b : bool) (s : string) :
  spaced b (sub_runs_from is_space b s) = true.
Proof.
  revert b. induction s as [|c s IH]; intros b; [reflexivity|].
  cbn [sub_runs_from]. destruct (is_space c) eqn:Hc.
  - destruct b; [apply IH|]. cbn [spaced]. rewrite (IH true). reflexivity.
  - cbn [spaced]. rewrite Hc. apply IH.
Qed.

(** *** [strip] *)

Lemma spaced_weaken (s : string) : spaced true s = true -> spaced false s = true.
Proof.
  destruct s as [|c s]; [reflexivity|]. cbn [spaced].
  destruct (is_space c); [discriminate | auto].
Qed.

Lemma lstrip_spaced (b : bool) (s : string) :
  spaced b s = true -> spaced true (lstrip s) = true.
Proof.
  revert b. induction s as [|c s IH]; intros b; [reflexivity|].
  cbn [spaced lstrip]. destruct (is_space c) eqn:Hc.
  - intros [_ H]%andb_true_iff. now apply (IH true).
  - intros H. cbn [spaced]. now rewrite Hc.
Qed.

Lemma lstrip_plain (p : ascii -> bool) (s : string) :
  all_chars p s = true -> all_chars p (lstrip s) = true.
Proof.
  induction s as [|c s IH]; [reflexivity|].
  rewrite all_chars_cons. intros [Hc Hs]%andb_true_iff. cbn [lstrip].
  destruct (is_space c); [now apply IH|]. now rewrite all_chars_cons, Hc.
Qed.

Lemma rstrip_cons (c : ascii) (s : string) :
  rstrip (String c s) =
    match rstrip s with
    | EmptyString => if is_space c then EmptyString else String c EmptyString
    | String d r => String c (String d r)
    end.
Proof. reflexivity. Qed.

Lemma rstrip_plain (p : ascii -> bool) (s : string) :
  all_chars p s = true -> all_chars p (rstrip s) = true.
Proof.
  induction s as [|c s IH]; [reflexivity|].
  rewrite all_chars_cons. intros [Hc Hs]%andb_true_iff. rewrite rstrip_cons.
  specialize (IH Hs). destruct (rstrip s) as [|d r].
  - destruct (is_space c); [reflexivity|]. now rewrite all_chars_cons, Hc.
  - now rewrite all_chars_cons, Hc.
Qed.

Lemma rstrip_spaced (b : bool) (s : string) :
  spaced b s = true -> spaced b (rstrip s) = true.
Proof.
  revert b. induction s as [|c s IH]; intros b; [reflexivity|].
  rewrite rstrip_cons. cbn [spaced]. destruct (is_space c) eqn:Hc.
  - intros [[Hb Hsp]%andb_true_iff H]%andb_true_iff. specialize (IH true H).
    destruct (rstrip s) as [|d r]; [reflexivity|].
    cbn [spaced] in *. now rewrite Hc, Hb, Hsp, IH.
  - intros H. specialize (IH false H).
    destruct (rstrip s) as [|d r]; cbn [spaced] in *; now rewrite Hc.
Qed.

Lemma rstrip_no_trailing (s : string) : no_trailing_space (rstrip s) = true.
Proof.
  induction s as [|c s IH]; [reflexivity|].
  rewrite rstrip_cons. destruct (rstrip s) as [|d r].
  - destruct (is_space c) eqn:Hc; [reflexivity|]. cbn. now rewrite Hc.
  - exact IH.
Qed.

Lemma normalize_text_normalized (text : string) :
  normalized (_normalize_text text) = true.
Proof.
  unfold normalized, _normalize_text, strip, sub_runs.
  rewrite !andb_true_iff. repeat split.
  - apply rstrip_plain, lstrip_plain, sub_runs_space_plain, sub_runs_punct_plain, lower_fixed.
  - apply rstrip_spaced, (lstrip_spaced false), sub_runs_space_spaced.
  - apply rstrip_no_trailing.
Qed.

(** *** Each pass leaves normalized text alone *)

Lemma lower_id (s : string) :
  all_chars (fun c => Ascii.eqb (lower_char c) c) s = true -> lower s = s.
Proof.
  induction s as [|c s IH]; [reflexivity|].
  rewrite all_chars_cons. intros [Hc%Ascii.eqb_eq Hs]%andb_true_iff.
  cbn [lower]. now rewrite Hc, IH.
Qed.

Lemma sub_runs_absent (cls : ascii -> bool) (b : bool) (s : string) :
  all_chars (fun c => negb (cls c)) s = true -> sub_runs_from cls b s = s.
Proof.
  revert b. induction s as [|c s IH]; intros b; [reflexivity|].
  rewrite all_chars_cons. intros [Hc%negb_true_iff Hs]%andb_true_iff.
  cbn [sub_runs_from]. now rewrite Hc, IH.
Qed.

Lemma sub_runs_spaced (b : bool) (s : string) :
  spaced b s = true -> sub_runs_from is_space b s = s.
Proof.
  revert b. induction s as [|c s IH]; intros b; [reflexivity|].
  cbn [spaced sub_runs_from]. destruct (is_space c).
  - intros [[Hb%negb_true_iff Hsp%Ascii.eqb_eq]%andb_true_iff H]%andb_true_iff.
    subst b c. now rewrite (IH true H).
  - intros H. now rewrite (IH false H).
Qed.

Lemma lstrip_id (s : string) : spaced true s = true -> lstrip s = s.
Proof.
  destruct s as [|c s]; [reflexivity|]. cbn [spaced lstrip].
  destruct (is_space c); [discriminate | reflexivity].
Qed.

Lemma rstrip_id (s : string) : no_trailing_space s = true -> rstrip s = s.
Proof.
  induction s as [|c s IH]; [reflexivity|].
  rewrite rstrip_cons. destruct s as [|d s].
  - cbn. intros ->%negb_true_iff. reflexivity.
  - intros H. change (no_trailing_space (String d s) = true) in H.
    now rewrite (IH H).
Qed.

Lemma all_chars_and (p q : ascii -> bool) (s : string) :
  all_chars (fun c => p c && q c) s = all_chars p s && all_chars q s.
Proof.
  induction s as [|c s IH]; [reflexivity|].
  rewrite !all_chars_cons, IH. destruct (p c), (q c), (all_chars p s); reflexivity.
Qed.

Lemma normalized_fixed (s : string) : normalized s = true -> _normalize_text s = s.
Proof.
  unfold normalized. intros [[Hplain Hsp]%andb_true_iff Htr]%andb_true_iff.
  unfold plain_char in Hplain. rewrite all_chars_and in Hplain.
  apply andb_true_iff in Hplain as [Hlow Hpunct].
  unfold _normalize_text, strip, sub_runs.
  rewrite (lower_id s Hlow), (sub_runs_absent is_punct false s Hpunct).
  rewrite (sub_runs_spaced false s (spaced_weaken s Hsp)).
  now rewrite (lstrip_id s Hsp), (rstrip_id s Htr).
Qed.

(** X1. Normalizing text that is already normalized changes nothing:
    [_normalize_text] is idempotent. *)
Theorem normalize_text_idempotent (text : string) :
  _normalize_text (_normalize_text text) = _normalize_text text.
Proof.
  apply normalized_fixed, normalize_text_normalized.
Qed.

(** X2. Whatever the text, [_normalize_text] returns text that
    [str.lower] leaves alone, without any character of the class
    [[,.\-/|()]], in which white space is the single space character,
    never doubled, never first and never last. *)
Theorem normalize_text_shape (text : string) :
  let s := _normalize_text text in
  lower s = s
  /\ all_chars (fun c => negb (is_punct c)) s = true
  /\ spaced true s = true
  /\ no_trailing_space s = true.
Proof.
  pose proof (normalize_text_normalized text) as H. cbv zeta.
  unfold normalized in H.
  apply andb_true_iff in H as [[Hplain Hsp]%andb_true_iff Htr].
  unfold plain_char in Hplain. rewrite all_chars_and in Hplain.
  apply andb_true_iff in Hplain as [Hlow Hpunct].
  split; [now apply lower_id|]. auto.
Qed.

End TextShapeFacts.

(** ** The result of the neighborhood matcher *)

Module MatcherFacts.
Import Text Neighborhood.

Lemma py_max_ge_first (x y : Q) : (x <= py_max x y)%Q.
Proof.
  unfold py_max. destruct (Qltb x y) eqn:E.
  - apply Qlt_le_weak. now apply Qltb_lt.
  - apply Qle_refl.
Qed.

Lemma py_max_range (x y : Q) :
  (x = 0%Q \/ (6 # 10 <= x /\ x <= 1)%Q) -> (6 # 10 <= y /\ y <= 1)%Q ->
  (6 # 10 <= py_max x y /\ py_max x y <= 1)%Q.
Proof.
  intros Hx Hy. unfold py_max. destruct (Qltb x y) eqn:E; [exact Hy|].
  apply Qltb_ge in E. destruct Hx as [-> | Hx]; [lra | exact Hx].
Qed.

(** The score of one hit: the field weight, raised by the bonus for a
    variant of more than 8 characters. *)
Lemma bonus_range (w : Q) (long : bool) :
  (6 # 10 <= w /\ w <= 1)%Q ->
  let score := if long then py_min 1%Q (w + (5 # 100))%Q else w in
  (w <= score /\ 6 # 10 <= score /\ score <= 1)%Q.
Proof.
  intros Hw. destruct long; cbv zeta; [|lra].
  unfold py_min. destruct (Qltb (w + (5 # 100)) 1) eqn:E.
  - apply Qltb_lt in E. lra.
  - lra.
Qed.

Section Fields.
Variable fs : list (string * Q).
Hypothesis weights : forall t w, (t, w) ∈ fs -> (6 # 10 <= w /\ w <= 1)%Q.

Lemma score_fields_spec (v : string) (best : Q) :
  (best = 0%Q \/ (6 # 10 <= best /\ best <= 1)%Q) ->
  let r := score_fields v fs best in
  (best <= r)%Q
  /\ ((r = 0%Q /\ best = 0%Q) \/ (6 # 10 <= r /\ r <= 1)%Q)
  /\ (forall t w, (t, w) ∈ fs -> truthy t = true -> word_search v t = true ->
        (w <= r)%Q).
Proof.
  unfold score_fields. revert best weights.
  induction fs as [|[t w] rest IH]; intros best Hw Hbest; cbn [fold_left].
  - split; [apply Qle_refl|]. split.
    + destruct Hbest as [-> | H]; [left; auto | right; exact H].
    + intros t w Hin. now apply elem_of_nil in Hin.
  - assert (Hw0 : (6 # 10 <= w /\ w <= 1)%Q) by (apply (Hw t); apply elem_of_cons; now left).
    assert (Hrest : forall t' w', (t', w') ∈ rest -> (6 # 10 <= w' /\ w' <= 1)%Q)
      by (intros t' w' H; apply (Hw t'); apply elem_of_cons; now right).
    pose proof (bonus_range w (8 <? String.length v)%nat Hw0) as Hb. cbv zeta in Hb.
    set (score := if (8 <? String.length v)%nat then py_min 1%Q (w + (5 # 100))%Q else w) in *.
    destruct (truthy t) eqn:Ht; cbn [negb].
    2:{ destruct (IH best Hrest Hbest) as (H1 & H2 & H3).
        split; [exact H1|]. split; [exact H2|].
        intros t' w' Hin Ht' Hs. apply elem_of_cons in Hin as [[= -> ->] | Hin].
        - congruence.
        - now apply (H3 t'). }
    destruct (word_search v t) eqn:Hs.
    2:{ destruct (IH best Hrest Hbest) as (H1 & H2 & H3).
        split; [exact H1|]. split; [exact H2|].
        intros t' w' Hin Ht' Hs'. apply elem_of_cons in Hin as [[= -> ->] | Hin].
        - congruence.
        - now apply (H3 t'). }
    assert (Hnew : (6 # 10 <= py_max best score /\ py_max best score <= 1)%Q)
      by (apply py_max_range; [exact Hbest | tauto]).
    destruct (IH (py_max best score) Hrest (or_intror Hnew)) as (H1 & H2 & H3).
    pose proof (py_max_ge_first best score) as Hge1.
    pose proof (py_max_ge_r best score) as Hge2.
    split; [lra|]. split.
    + right. destruct H2 as [[_ H0] | H2]; [rewrite H0 in Hnew; lra | exact H2].
    + intros t' w' Hin Ht' Hs'. apply elem_of_cons in Hin as [[= -> ->] | Hin].
      * lra.
      * now apply (H3 t').
Qed.

Lemma score_variants_from (vs : list string) (best : Q) :
  (best = 0%Q \/ (6 # 10 <= best /\ best <= 1)%Q) ->
  let r := fold_left (fun best variant => score_fields (_normalize_text variant) fs best)
             vs best in
  (best <= r)%Q
  /\ (r = 0%Q \/ (6 # 10 <= r /\ r <= 1)%Q)
  /\ (forall v t w, v ∈ vs -> (t, w) ∈ fs -> truthy t = true ->
        word_search (_normalize_text v) t = true -> (w <= r)%Q).
Proof.
  revert best. induction vs as [|v0 vs IH]; intros best Hbest; cbn [fold_left].
  - split; [apply Qle_refl|]. split; [exact Hbest|].
    intros v t w Hin. now apply elem_of_nil in Hin.
  - destruct (score_fields_spec (_normalize_text v0) best Hbest) as (H1 & H2 & H3).
    assert (Hmid : score_fields (_normalize_text v0) fs best = 0%Q
                   \/ (6 # 10 <= score_fields (_normalize_text v0) fs best
                       /\ score_fields (_normalize_text v0) fs best <= 1)%Q)
      by (destruct H2 as [[H _] | H]; auto).
    destruct (IH _ Hmid) as (G1 & G2 & G3).
    split; [lra|]. split; [exact G2|].
    intros v t w Hin Ht Htr Hs. apply elem_of_cons in Hin as [-> | Hin].
    + specialize (H3 t w Ht Htr Hs). lra.
    + now apply (G3 v t w).
Qed.

Lemma score_variants_spec (vs : list string) :
  let r := score_variants vs fs in
  (r = 0%Q \/ (6 # 10 <= r /\ r <= 1)%Q)
  /\ (forall v t w, v ∈ vs -> (t, w) ∈ fs -> truthy t = true ->
        word_search (_normalize_text v) t = true -> (w <= r)%Q).
Proof.
  destruct (score_variants_from vs 0%Q (or_introl eq_refl)) as (_ & H2 & H3).
  split; [exact H2 | exact H3].
Qed.

End Fields.

Lemma fields_weights (title location_text description : string) (t : string) (w : Q) :
  (t, w) ∈ fields title location_text description -> (6 # 10 <= w /\ w <= 1)%Q.
Proof.
  unfold fields. intros Hin.
  repeat (apply elem_of_cons in Hin as [[= _ ->] | Hin]; [lra|]).
  now apply elem_of_nil in Hin.
Qed.

(** [matches] holds exactly the neighborhoods of positive score. *)
Lemma collect_matches_elem (registry : list (string * list string))
    (fs : list (string * Q)) (n : string) (s : Q) :
  (n, s) ∈ collect_matches registry fs <->
  exists vs, (n, vs) ∈ registry /\ s = score_variants vs fs /\ (0 < s)%Q.
Proof.
  unfold collect_matches.
  assert (H : forall acc,
             (n, s) ∈ fold_left
               (fun matches (entry : string * list string) =>
                  let '(canonical_name, variants) := entry in
                  let best_score := score_variants variants fs in
                  if Qltb 0%Q best_score then matches ++ [(canonical_name, best_score)]
                  else matches) registry acc
             <-> (n, s) ∈ acc
                 \/ exists vs, (n, vs) ∈ registry /\ s = score_variants vs fs /\ (0 < s)%Q).
  { induction registry as [|[n0 vs0] rest IH]; intros acc; cbn [fold_left].
    - split; [auto|]. intros [H | (vs & H & _)]; [exact H|]. now apply elem_of_nil in H.
    - rewrite IH. cbv zeta. destruct (Qltb 0 (score_variants vs0 fs)) eqn:Hpos.
      + apply Qltb_lt in Hpos. rewrite elem_of_app, list_elem_of_singleton. split.
        * intros [[H | [= -> ->]] | (vs & H & Hs & Hp)].
          -- now left.
          -- right. exists vs0. split; [apply elem_of_cons; now left | auto].
          -- right. exists vs. split; [apply elem_of_cons; now right | auto].
        * intros [H | (vs & H & Hs & Hp)]; [left; now left|].
          apply elem_of_cons in H as [[= -> ->] | H].
          -- left. right. now rewrite Hs.
          -- right. exists vs. auto.
      + apply Qltb_ge in Hpos. split.
        * intros [H | (vs & H & Hs & Hp)]; [now left|].
          right. exists vs. split; [apply elem_of_cons; now right | auto].
        * intros [H | (vs & H & Hs & Hp)]; [now left|].
          apply elem_of_cons in H as [[= -> ->] | H].
          -- subst s. lra.
          -- right. exists vs. auto. }
  rewrite H. split.
  - intros [Hnil | Hex]; [now apply elem_of_nil in Hnil | exact Hex].
  - intros Hex. now right.
Qed.

(** *** The stable descending sort *)

Lemma insert_desc_elem (x y : string * Q) (l : list (string * Q)) :
  y ∈ insert_desc x l <-> y = x \/ y ∈ l.
Proof.
  induction l as [|z l IH]; cbn [insert_desc].
  - rewrite list_elem_of_singleton, elem_of_nil. tauto.
  - destruct (Qltb (snd z) (snd x)).
    + rewrite elem_of_cons. reflexivity.
    + rewrite !elem_of_cons, IH. tauto.
Qed.

Lemma sorted_desc_elem (y : string * Q) (l : list (string * Q)) :
  y ∈ sorted_desc l <-> y ∈ l.
Proof.
  unfold sorted_desc.
  assert (H : forall acc, y ∈ fold_left (fun acc x => insert_desc x acc) l acc
                          <-> y ∈ acc \/ y ∈ l).
  { induction l as [|x l IH]; intros acc; cbn [fold_left].
    - rewrite elem_of_nil. tauto.
    - rewrite IH, insert_desc_elem, elem_of_cons. tauto. }
  rewrite H, elem_of_nil. tauto.
Qed.

Lemma insert_desc_sorted (x : string * Q) (l : list (string * Q)) :
  StronglySorted (fun a b => (snd b <= snd a)%Q) l ->
  StronglySorted (fun a b => (snd b <= snd a)%Q) (insert_desc x l).
Proof.
  induction l as [|z l IH]; intros Hs; cbn [insert_desc].
  - repeat constructor.
  - apply StronglySorted_inv in Hs as [Hl Hz].
    destruct (Qltb (snd z) (snd x)) eqn:E.
    + apply Qltb_lt in E. constructor; [constructor; assumption|].
      constructor; [lra|]. rewrite List.Forall_forall in *.
      intros b Hb. specialize (Hz b Hb). simpl in Hz. lra.
    + apply Qltb_ge in E. constructor; [now apply IH|].
      rewrite List.Forall_forall in *. intros b Hb.
      apply list_elem_of_In, insert_desc_elem in Hb as [-> | Hb]; [exact E|].
      apply Hz. now apply list_elem_of_In.
Qed.

Lemma sorted_desc_sorted (l : list (string * Q)) :
  StronglySorted (fun a b => (snd b <= snd a)%Q) (sorted_desc l).
Proof.
  unfold sorted_desc.
  assert (H : forall acc, StronglySorted (fun a b => (snd b <= snd a)%Q) acc ->
             StronglySorted (fun a b => (snd b <= snd a)%Q)
               (fold_left (fun acc x => insert_desc x acc) l acc)).
  { induction l as [|x l IH]; intros acc Hacc; cbn [fold_left]; [exact Hacc|].
    apply IH. now apply insert_desc_sorted. }
  apply H. constructor.
Qed.

(** The head of the sorted matches carries the top score. *)
Lemma sorted_desc_head (l : list (string * Q)) (x : string * Q) (rest : list (string * Q)) :
  sorted_desc l = x :: rest ->
  x ∈ l /\ forall y, y ∈ l -> (snd y <= snd x)%Q.
Proof.
  intros Hsort. split.
  - apply sorted_desc_elem. rewrite Hsort. apply elem_of_cons. now left.
  - intros y Hy. apply sorted_desc_elem in Hy. rewrite Hsort in Hy.
    pose proof (sorted_desc_sorted l) as Hs. rewrite Hsort in Hs.
    apply StronglySorted_inv in Hs as [_ Hx].
    apply elem_of_cons in Hy as [-> | Hy]; [apply Qle_refl|].
    rewrite List.Forall_forall in Hx. apply Hx. now apply list_elem_of_In.
Qed.

(** What [match_neighborhood_in] returns, in terms of the sorted matches. *)
Lemma match_neighborhood_in_cases (registry : list (string * list string))
    (title location_text description : string) :
  let fs := fields title location_text description in
  let r := match_neighborhood_in registry title location_text description in
  (collect_matches registry fs = []
   /\ r = {| name := None; confidence := 0%Q; ambiguous := false |})
  \/ (exists n c top,
        name r = Some n /\ (n, c) ∈ collect_matches registry fs
        /\ (c == confidence r)%Q
        /\ (top, confidence r) ∈ collect_matches registry fs
        /\ forall y, y ∈ collect_matches registry fs -> (snd y <= confidence r)%Q).
Proof.
  cbv zeta. unfold match_neighborhood_in.
  destruct (sorted_desc (collect_matches registry (fields title location_text description)))
    as [|[n1 c1] rest] eqn:Hsort.
  - left. split; [|reflexivity].
    destruct (collect_matches registry _) as [|x l] eqn:Hm; [reflexivity|].
    assert (Hx : x ∈ sorted_desc (x :: l)) by (apply sorted_desc_elem, elem_of_cons; now left).
    rewrite Hsort in Hx. now apply elem_of_nil in Hx.
  - right. destruct (sorted_desc_head _ _ _ Hsort) as [Hin Hmax].
    cbn [name confidence].
    destruct rest as [|[n2 c2] rest'].
    + exists n1, c1, n1. repeat split; try assumption; reflexivity.
    + destruct (Qeq_bool c1 c2 && (String.length n1 <? String.length n2)%nat) eqn:Htie.
      * apply andb_true_iff in Htie as [Heq%Qeq_bool_iff _].
        exists n2, c2, n1. split; [reflexivity|]. split.
        { apply sorted_desc_elem. rewrite Hsort. apply elem_of_cons. right.
          apply elem_of_cons. now left. }
        split; [now symmetry|]. split; assumption.
      * exists n1, c1, n1. repeat split; try assumption; reflexivity.
Qed.

(** X3. The matcher returns no name, confidence 0 and no ambiguity
    exactly when no neighborhood of the registry scores above 0.
    Otherwise the name it returns is a neighborhood of the registry
    whose own best score equals the confidence, the confidence is the
    highest score of all neighborhoods, and it lies between 0.6 and 1. *)
Theorem match_neighborhood_top (registry : list (string * list string))
    (title location_text description : string) :
  let fs := fields title location_text description in
  let r := match_neighborhood_in registry title location_text description in
  (r = {| name := None; confidence := 0%Q; ambiguous := false |}
   /\ forall n vs, (n, vs) ∈ registry -> score_variants vs fs = 0%Q)
  \/ (exists n vs,
        name r = Some n /\ (n, vs) ∈ registry
        /\ (score_variants vs fs == confidence r)%Q
        /\ (6 # 10 <= confidence r /\ confidence r <= 1)%Q
        /\ forall n' vs', (n', vs') ∈ registry ->
             (score_variants vs' fs <= confidence r)%Q).
Proof.
  cbv zeta.
  pose proof (fields_weights title location_text description) as Hw.
  destruct (match_neighborhood_in_cases registry title location_text description)
    as [[Hnil Hr] | (n & c & top & Hname & Hin & Hc & Htop & Hmax)].
  - left. split; [exact Hr|]. intros n vs Hin.
    destruct (score_variants_spec _ Hw vs) as [[H0 | Hpos] _]; [exact H0|].
    assert (Hm : (n, score_variants vs (fields title location_text description))
                 ∈ collect_matches registry (fields title location_text description)).
    { apply collect_matches_elem. exists vs. split; [exact Hin|]. split; [reflexivity | lra]. }
    rewrite Hnil in Hm. now apply elem_of_nil in Hm.
  - right. apply collect_matches_elem in Hin as (vs & Hreg & -> & Hpos).
    apply collect_matches_elem in Htop as (vst & _ & Hconf & Hcpos).
    exists n, vs. split; [exact Hname|]. split; [exact Hreg|]. split; [exact Hc|].
    split.
    + rewrite Hconf in *.
      destruct (score_variants_spec _ Hw vst) as [[H0 | Hrange] _]; [|exact Hrange].
      rewrite H0 in Hcpos. lra.
    + intros n' vs' Hreg'.
      destruct (score_variants_spec _ Hw vs') as [[H0 | Hrange] _].
      * rewrite H0. lra.
      * apply (Hmax (n', score_variants vs' (fields title location_text description))).
        apply collect_matches_elem. exists vs'.
        split; [exact Hreg'|]. split; [reflexivity | lra].
Qed.

(** X4. A variant of a registered neighborhood found in a field gives
    a name and a confidence of at least that field's weight: 0.9 for the
    location, 0.8 for the title, 0.6 for the description. *)
Theorem match_neighborhood_field_weights (registry : list (string * list string))
    (title location_text description : string) (n v : string) (vs : list string) :
  (n, vs) ∈ registry -> v ∈ vs ->
  let r := match_neighborhood_in registry title location_text description in
  let found text :=
    _normalize_text text <> "" /\
    word_search (_normalize_text v) (_normalize_text text) = true in
  (found location_text -> name r <> None /\ (9 # 10 <= confidence r)%Q)
  /\ (found title -> name r <> None /\ (8 # 10 <= confidence r)%Q)
  /\ (found description -> name r <> None /\ (6 # 10 <= confidence r)%Q).
Proof.
  intros Hreg Hv. cbv zeta.
  pose proof (fields_weights title location_text description) as Hw.
  destruct (score_variants_spec _ Hw vs) as [_ Hhit].
  assert (Hfield : forall text w,
            (_normalize_text text, w) ∈ fields title location_text description ->
            _normalize_text text <> "" ->
            word_search (_normalize_text v) (_normalize_text text) = true ->
            name (match_neighborhood_in registry title location_text description) <> None
            /\ (w <= confidence
                       (match_neighborhood_in registry title location_text description))%Q).
  { intros text w Hin Hne Hs.
    assert (Htr : truthy (_normalize_text text) = true)
      by (destruct (_normalize_text text); [congruence | reflexivity]).
    specialize (Hhit v _ w Hv Hin Htr Hs).
    assert (Hwpos : (6 # 10 <= w)%Q) by (apply (Hw _ _ Hin)).
    assert (Hm : (n, score_variants vs (fields title location_text description))
                 ∈ collect_matches registry (fields title location_text description)).
    { apply collect_matches_elem. exists vs. split; [exact Hreg|]. split; [reflexivity | lra]. }
    destruct (match_neighborhood_in_cases registry title location_text description)
      as [[Hnil _] | (n' & c & top & Hname & _ & _ & _ & Hmax)].
    - rewrite Hnil in Hm. now apply elem_of_nil in Hm.
    - split; [rewrite Hname; discriminate|].
      specialize (Hmax _ Hm). simpl in Hmax. lra. }
  unfold fields in Hfield. split; [|split]; intros [Hne Hs].
  - apply (Hfield location_text); [apply elem_of_cons; now left | assumption..].
  - apply (Hfield title); [|assumption..].
    apply elem_of_cons; right; apply elem_of_cons; now left.
  - apply (Hfield description); [|assumption..].
    do 2 (apply elem_of_cons; right). apply elem_of_cons; now left.
Qed.

(** "De Pijp, Amsterdam" as location holds the variant "de pijp". *)
Lemma match_neighborhood_field_weights_witness :
  let r := match_neighborhood_in Config.TARGET_NEIGHBORHOODS "" "De Pijp, Amsterdam" "" in
  name r <> None /\ (9 # 10 <= confidence r)%Q.
Proof.
  cbv zeta.
  apply (match_neighborhood_field_weights Config.TARGET_NEIGHBORHOODS
           "" "De Pijp, Amsterdam" "" "De Pijp" "de pijp" ["de pijp"; "pijp"; "depijp"]).
  - unfold Config.TARGET_NEIGHBORHOODS.
    do 5 (apply elem_of_cons; right). apply elem_of_cons. now left.
  - apply elem_of_cons. now left.
  - split; [vm_compute; discriminate | vm_compute; reflexivity].
Defined.

End MatcherFacts.

(** ** The reference similarity is a reflexive percentage *)

Module LibBounds.
Import Lib.

Lemma lcs_refl (xs : list ascii) : lcs xs xs = length xs.
Proof.
  induction xs as [|x xs IH]; [reflexivity|].
  rewrite LibFacts.lcs_cons, Ascii.eqb_refl. now rewrite IH.
Qed.

Lemma ratio_refl (s : string) : (ratio s s == 100)%Q.
Proof.
  unfold ratio. rewrite lcs_refl.
  replace (length (list_ascii_of_string s) + length (list_ascii_of_string s)
           - 2 * length (list_ascii_of_string s))%nat with 0%nat by lia.
  destruct (length (list_ascii_of_string s) + length (list_ascii_of_string s))%nat;
    [reflexivity|].
  change (inject_Z (Z.of_nat 0)) with 0%Q. unfold Qdiv. rewrite Qmult_0_l. reflexivity.
Qed.

Lemma ratio_range (s t : string) : (0 <= ratio s t /\ ratio s t <= 100)%Q.
Proof.
  unfold ratio.
  set (l1 := list_ascii_of_string s). set (l2 := list_ascii_of_string t).
  set (m := (length l1 + length l2)%nat).
  assert (Hd : (m - 2 * lcs l1 l2 <= m)%nat) by lia.
  set (d := (m - 2 * lcs l1 l2)%nat) in *.
  destruct m as [|k]; [lra|].
  assert (Hpos : (0 < inject_Z (Z.of_nat (S k)))%Q).
  { change 0%Q with (inject_Z 0). rewrite <- Zlt_Qlt. lia. }
  assert (H0 : (0 <= inject_Z (Z.of_nat d) / inject_Z (Z.of_nat (S k)))%Q).
  { apply Qle_shift_div_l; [exact Hpos|]. rewrite Qmult_0_l.
    change 0%Q with (inject_Z 0). rewrite <- Zle_Qle. lia. }
  assert (H1 : (inject_Z (Z.of_nat d) / inject_Z (Z.of_nat (S k)) <= 1)%Q).
  { apply Qle_shift_div_r; [exact Hpos|]. rewrite Qmult_1_l.
    rewrite <- Zle_Qle. lia. }
  lra.
Qed.

#[export] Instance indel_bounded : RapidFuzzBounded indel_fuzz.
Proof.
  intros s t. apply ratio_range.
Qed.

#[export] Instance indel_reflexive : RapidFuzzReflexive indel_fuzz.
Proof.
  intros s. apply ratio_refl.
Qed.

End LibBounds.

(** ** Range and fixed points of the dedupe score *)

Module ScoreFacts.
Import Text Engine Samples.

Lemma closeness_range (tol neutral : Q) (x y : option Q) :
  (1 <= tol)%Q -> (0 <= neutral /\ neutral <= 1)%Q ->
  (0 <= closeness tol neutral x y /\ closeness tol neutral x y <= 1)%Q.
Proof.
  intros Htol Hn. unfold closeness.
  destruct x as [vx|], y as [vy|]; try lra.
  destruct (Qle_bool (Qabs (vx - vy)) tol) eqn:Hle; [|lra].
  apply Qle_bool_iff in Hle.
  pose proof (Qabs_nonneg (vx - vy)) as Hnn.
  pose proof (MatcherFacts.py_max_ge_first tol 1) as Hm.
  assert (Hpos : (0 < py_max tol 1)%Q) by lra.
  assert (H0 : (0 <= Qabs (vx - vy) / py_max tol 1)%Q).
  { apply Qle_shift_div_l; [exact Hpos|]. lra. }
  assert (H1 : (Qabs (vx - vy) / py_max tol 1 <= 1)%Q).
  { apply Qle_shift_div_r; [exact Hpos|]. lra. }
  lra.
Qed.

Lemma closeness_same (tol neutral p : Q) :
  (1 <= tol)%Q -> (closeness tol neutral (Some p) (Some p) == 1)%Q.
Proof.
  intros Htol. unfold closeness.
  assert (H0 : (Qabs (p - p) == 0)%Q).
  { assert (Hpp : (p - p == 0)%Q) by ring. rewrite Hpp. reflexivity. }
  rewrite (EngineFacts.Qle_bool_compat _ _ tol H0).
  assert (Hle : Qle_bool 0 tol = true) by (apply Qle_bool_iff; lra).
  rewrite Hle, H0. unfold Qdiv. rewrite Qmult_0_l. ring.
Qed.

Lemma flag_range (b : bool) : (0 <= flag b /\ flag b <= 1)%Q.
Proof. destruct b; simpl; lra. Qed.

Lemma py_max_le (x c : Q) : (x <= 1)%Q -> (c <= 1)%Q -> (py_max x c <= 1)%Q.
Proof. intros Hx Hc. unfold py_max. now destruct (Qltb x c). Qed.

Section Score.
Context {fuzz : RapidFuzz} {urllib : UrlLib}.

Lemma percent_range (r : Q) : (0 <= r /\ r <= 100)%Q -> (0 <= r / 100 /\ r / 100 <= 1)%Q.
Proof.
  intros Hr. split.
  - apply Qle_shift_div_l; lra.
  - apply Qle_shift_div_r; lra.
Qed.

(** X5. With a similarity library that returns percentages, every
    signal of a score and the combined score lie between 0 and 1. *)
Theorem score_in_unit_interval {bounded : RapidFuzzBounded fuzz} (a b : NormalizedListing) :
  let s := compute_dedupe_score a b in
  (0 <= title_sim s /\ title_sim s <= 1)%Q
  /\ (0 <= price_sim s /\ price_sim s <= 1)%Q
  /\ (0 <= area_sim s /\ area_sim s <= 1)%Q
  /\ (0 <= address_sim s /\ address_sim s <= 1)%Q
  /\ (0 <= combined s /\ combined s <= 1)%Q.
Proof.
  cbv zeta.
  assert (Ht : (0 <= title_sim (compute_dedupe_score a b)
                /\ title_sim (compute_dedupe_score a b) <= 1)%Q).
  { unfold compute_dedupe_score. cbn [title_sim].
    destruct (_ && _); [apply percent_range, token_sort_ratio_range | lra]. }
  assert (Hp : (0 <= price_sim (compute_dedupe_score a b)
                /\ price_sim (compute_dedupe_score a b) <= 1)%Q).
  { apply closeness_range; unfold Config.DEDUPE_PRICE_TOLERANCE_EUR; lra. }
  assert (Ha : (0 <= area_sim (compute_dedupe_score a b)
                /\ area_sim (compute_dedupe_score a b) <= 1)%Q).
  { apply closeness_range; unfold Config.DEDUPE_AREA_TOLERANCE_M2; lra. }
  assert (Hl : (0 <= address_sim (compute_dedupe_score a b)
                /\ address_sim (compute_dedupe_score a b) <= 1)%Q).
  { unfold compute_dedupe_score. cbn [address_sim].
    destruct (_ && _); [apply percent_range, token_sort_ratio_range | lra]. }
  repeat (split; [tauto|]).
  rewrite EngineFacts.combined_unfold. cbv zeta.
  pose proof (flag_range (url_match (compute_dedupe_score a b))) as Hu.
  pose proof (flag_range (images_match (compute_dedupe_score a b))) as Hi.
  assert (Hw : (0 <= weighted_sum (compute_dedupe_score a b)
                /\ weighted_sum (compute_dedupe_score a b) <= 1)%Q)
    by (unfold weighted_sum; lra).
  destruct (images_match _), (url_match _).
  - pose proof (py_max_ge_r (py_max (weighted_sum (compute_dedupe_score a b)) (85 # 100))
                  (90 # 100)).
    split; [lra|]. apply py_max_le; [apply py_max_le|]; lra.
  - pose proof (py_max_ge_r (weighted_sum (compute_dedupe_score a b)) (85 # 100)).
    split; [lra|]. apply py_max_le; lra.
  - pose proof (py_max_ge_r (weighted_sum (compute_dedupe_score a b)) (90 # 100)).
    split; [lra|]. apply py_max_le; lra.
  - exact Hw.
Qed.

(** X6. With a similarity library for which a text is similar to
    itself at 100, two listings with the same non-empty title, the same
    non-empty location text, the same known price and the same known
    area score at least 0.75, which is above the combined threshold. *)
Theorem same_content_scores_high {reflexive : RapidFuzzReflexive fuzz}
    (a b : NormalizedListing) (p m : Q) :
  title a = title b -> title a <> "" ->
  raw_location_text a = raw_location_text b -> raw_location_text a <> "" ->
  price_total_eur a = Some p -> price_total_eur b = Some p ->
  area_m2 a = Some m -> area_m2 b = Some m ->
  (75 # 100 <= combined (compute_dedupe_score a b))%Q
  /\ (Config.DEDUPE_COMBINED_THRESHOLD <= combined (compute_dedupe_score a b))%Q.
Proof.
  intros Ht Htne Hl Hlne Hpa Hpb Hma Hmb.
  assert (Htitle : (title_sim (compute_dedupe_score a b) == 1)%Q).
  { unfold compute_dedupe_score. cbn [title_sim]. rewrite <- Ht.
    rewrite (EngineFacts.truthy_true _ Htne). cbn [andb].
    rewrite token_sort_ratio_refl. reflexivity. }
  assert (Haddr : (address_sim (compute_dedupe_score a b) == 1)%Q).
  { unfold compute_dedupe_score. cbn [address_sim]. rewrite <- Hl.
    rewrite (EngineFacts.truthy_true _ Hlne). cbn [andb].
    rewrite token_sort_ratio_refl. reflexivity. }
  assert (Hprice : (price_sim (compute_dedupe_score a b) == 1)%Q).
  { unfold compute_dedupe_score. cbn [price_sim]. rewrite Hpa, Hpb.
    apply closeness_same. unfold Config.DEDUPE_PRICE_TOLERANCE_EUR. lra. }
  assert (Harea : (area_sim (compute_dedupe_score a b) == 1)%Q).
  { unfold compute_dedupe_score. cbn [area_sim]. rewrite Hma, Hmb.
    apply closeness_same. unfold Config.DEDUPE_AREA_TOLERANCE_M2. lra. }
  pose proof (flag_range (url_match (compute_dedupe_score a b))) as Hu.
  pose proof (flag_range (images_match (compute_dedupe_score a b))) as Hi.
  assert (Hw : (75 # 100 <= weighted_sum (compute_dedupe_score a b))%Q)
    by (unfold weighted_sum; rewrite Htitle, Haddr, Hprice, Harea; lra).
  assert (H : (75 # 100 <= combined (compute_dedupe_score a b))%Q).
  { rewrite EngineFacts.combined_unfold. cbv zeta.
    destruct (images_match _), (url_match _).
    - pose proof (py_max_ge_r (py_max (weighted_sum (compute_dedupe_score a b)) (85 # 100))
                    (90 # 100)). lra.
    - pose proof (py_max_ge_r (weighted_sum (compute_dedupe_score a b)) (85 # 100)). lra.
    - pose proof (py_max_ge_r (weighted_sum (compute_dedupe_score a b)) (90 # 100)). lra.
    - exact Hw. }
  split; [exact H|]. unfold Config.DEDUPE_COMBINED_THRESHOLD. lra.
Qed.

(** X12. Whatever [urlparse] returns, matching urls as the same
    property is an equivalence: every url matches itself, the order of
    the two urls does not matter, and matches chain. *)
Theorem urls_same_property_equivalence (u v w : string) :
  _urls_same_property u u = true
  /\ _urls_same_property u v = _urls_same_property v u
  /\ (_urls_same_property u v = true -> _urls_same_property v w = true ->
      _urls_same_property u w = true).
Proof.
  unfold _urls_same_property. split; [|split].
  - now rewrite !String.eqb_refl.
  - rewrite (String.eqb_sym (netloc (urlparse u))), (String.eqb_sym (path (urlparse u))).
    reflexivity.
  - destruct (String.eqb_spec (netloc (urlparse u)) (netloc (urlparse v))) as [->|];
      [|discriminate].
    destruct (String.eqb_spec (path (urlparse u)) (path (urlparse v))) as [->|];
      [|discriminate].
    auto.
Qed.

End Score.

Import Lib.

Lemma score_in_unit_interval_witness :
  let s := compute_dedupe_score pijp_funda pijp_pararius in
  (0 <= title_sim s /\ title_sim s <= 1)%Q
  /\ (0 <= price_sim s /\ price_sim s <= 1)%Q
  /\ (0 <= area_sim s /\ area_sim s <= 1)%Q
  /\ (0 <= address_sim s /\ address_sim s <= 1)%Q
  /\ (0 <= combined s /\ combined s <= 1)%Q.
Proof.
  apply (@score_in_unit_interval indel_fuzz plain_urllib LibBounds.indel_bounded).
Defined.

(** The same flat at Funda and at Pararius. *)
Lemma same_content_scores_high_witness :
  (75 # 100 <= combined (compute_dedupe_score pijp_funda pijp_pararius))%Q
  /\ (Config.DEDUPE_COMBINED_THRESHOLD
      <= combined (compute_dedupe_score pijp_funda pijp_pararius))%Q.
Proof.
  apply (@same_content_scores_high indel_fuzz plain_urllib LibBounds.indel_reflexive
           pijp_funda pijp_pararius 1500 65);
    first [reflexivity | discriminate].
Defined.

End ScoreFacts.

(** ** More on the pipeline *)

Module RunFacts.
Import Text Pipeline RunShape.

(** *** The filter *)

Lemma filter_body_keep_or_drop (x : NormalizedListing) :
  (passes_filter x /\ forall kept n, filter_body (kept, n) x = (kept ++ [x], n))
  \/ (~ passes_filter x /\ forall kept n, filter_body (kept, n) x = (kept, S n)).
Proof.
  destruct (FilterFacts.filter_body_cases [] 0 x) as [[Hp _] | [Hp _]]; [left | right];
    (split; [exact Hp|]); intros kept n;
    destruct (FilterFacts.filter_body_cases kept n x) as [[H E] | [H E]];
    first [exact E | contradiction].
Qed.

Lemma filter_fold_from (l kept : list NormalizedListing) (n : nat) :
  fold_left filter_body l (kept, n)
  = (kept ++ fst (filter_step l), (n + snd (filter_step l))%nat).
Proof.
  unfold filter_step. revert kept n.
  induction l as [|x l IH]; intros kept n; cbn [fold_left].
  - cbn [fst snd]. now rewrite app_nil_r, Nat.add_0_r.
  - destruct (filter_body_keep_or_drop x) as [[_ E] | [_ E]]; rewrite !E.
    + rewrite (IH (kept ++ [x]) n), (IH ([] ++ [x]) 0%nat). cbn [fst snd].
      now rewrite <- app_assoc.
    + rewrite (IH kept (S n)), (IH [] 1%nat). cbn [fst snd]. f_equal. lia.
Qed.

Lemma filter_step_cons (x : NormalizedListing) (l : list NormalizedListing) :
  (passes_filter x
   /\ filter_step (x :: l) = (x :: fst (filter_step l), snd (filter_step l)))
  \/ (~ passes_filter x
      /\ filter_step (x :: l) = (fst (filter_step l), S (snd (filter_step l)))).
Proof.
  destruct (filter_body_keep_or_drop x) as [[Hp E] | [Hp E]]; [left | right];
    (split; [exact Hp|]);
    change (filter_step (x :: l))
      with (fold_left filter_body l (filter_body ([], 0%nat) x));
    rewrite E, filter_fold_from; reflexivity.
Qed.

(** X10. The filter keeps the order of the records ([kept] is a
    sublist of its input), works record by record (the result on a
    concatenation is the concatenation of the results, the counts add
    up), and filtering what was kept keeps all of it and counts nothing. *)
Theorem filter_step_stable (l1 l2 : list NormalizedListing) :
  sublist (fst (filter_step l1)) l1
  /\ filter_step (l1 ++ l2)
     = (fst (filter_step l1) ++ fst (filter_step l2),
        (snd (filter_step l1) + snd (filter_step l2))%nat)
  /\ filter_step (fst (filter_step l1)) = (fst (filter_step l1), 0%nat).
Proof.
  split; [|split].
  - induction l1 as [|x l IH]; [constructor|].
    destruct (filter_step_cons x l) as [[_ ->] | [_ ->]]; cbn [fst].
    + now apply sublist_skip.
    + now apply sublist_cons.
  - unfold filter_step at 1. rewrite fold_left_app.
    change (fold_left filter_body l1 ([], 0%nat)) with (filter_step l1).
    destruct (filter_step l1) as [k1 n1]. now rewrite filter_fold_from.
  - induction l1 as [|x l IH]; [reflexivity|].
    destruct (filter_step_cons x l) as [[Hp ->] | [_ ->]]; cbn [fst]; [|exact IH].
    destruct (filter_step_cons x (fst (filter_step l))) as [[_ ->] | [Hn _]];
      [|contradiction].
    now rewrite IH.
Qed.

(** *** The dedupe id *)

Section DedupeId.
Context {fuzz : RapidFuzz} {urllib : UrlLib} {uuid : UuidSource}.

Lemma dedupe_map_keeps (k : string * option string) (d : string)
    (rows : list StoredListing) (m : gmap (string * option string) string) :
  m !! k = Some d ->
  (forall sl, sl ∈ rows -> (sl_source sl, sl_source_id sl) <> k) ->
  fold_left
    (fun m sl =>
       if truthy_opt (sl_source_id sl)
       then <[(sl_source sl, sl_source_id sl) := sl_dedupe_id sl]> m
       else m)
    rows m !! k = Some d.
Proof.
  revert m. induction rows as [|sl rest IH]; intros m Hm Hno; [exact Hm|].
  cbn [fold_left]. apply IH.
  - destruct (truthy_opt (sl_source_id sl)); [|exact Hm].
    rewrite lookup_insert_ne; [exact Hm|]. apply Hno, elem_of_cons. now left.
  - intros sl' Hsl'. apply Hno, elem_of_cons. now right.
Qed.

(** Every entry of the dict comes from a row with a truthy
    [source_id]. *)
Lemma dedupe_map_origin (k : string * option string) (d : string)
    (rows : list StoredListing) (m : gmap (string * option string) string) :
  fold_left
    (fun m sl =>
       if truthy_opt (sl_source_id sl)
       then <[(sl_source sl, sl_source_id sl) := sl_dedupe_id sl]> m
       else m)
    rows m !! k = Some d ->
  m !! k = Some d
  \/ exists sl, sl ∈ rows /\ (sl_source sl, sl_source_id sl) = k
                /\ truthy_opt (sl_source_id sl) = true /\ d = sl_dedupe_id sl.
Proof.
  revert m. induction rows as [|sl rest IH]; intros m; cbn [fold_left]; [now left|].
  intros H. apply IH in H as [H | (sl' & Hin & Hk & Ht & Hd)].
  - destruct (truthy_opt (sl_source_id sl)) eqn:Ht; [|now left].
    destruct (decide ((sl_source sl, sl_source_id sl) = k)) as [Hk | Hk].
    + subst k. rewrite lookup_insert_eq in H. injection H as <-.
      right. exists sl. split; [apply elem_of_cons; now left | auto].
    + rewrite lookup_insert_ne in H by exact Hk. now left.
  - right. exists sl'. split; [apply elem_of_cons; now right | auto].
Qed.

(** X8. A record whose [(source, source_id)], with a non-empty
    [source_id], is the key of a row of the snapshot takes the
    [dedupe_id] of that row and draws no new identifier; when several
    rows have the key, the last one in the snapshot decides. *)
Theorem resolve_dedupe_id_known_key (pre post : list StoredListing) (sl : StoredListing)
    (listing : NormalizedListing) (draws : nat) :
  sl_source sl = source listing ->
  sl_source_id sl = source_id listing ->
  truthy_opt (source_id listing) = true ->
  (forall sl', sl' ∈ post ->
     ~ (sl_source sl' = source listing /\ sl_source_id sl' = source_id listing)) ->
  resolve_dedupe_id (pre ++ sl :: post) listing draws = (sl_dedupe_id sl, draws).
Proof.
  intros Hsrc Hsid Htruthy Hpost.
  unfold resolve_dedupe_id, existing_dedupe_map.
  rewrite fold_left_app. cbn [fold_left].
  rewrite Hsid, Htruthy, Hsrc.
  rewrite (dedupe_map_keeps (source listing, source_id listing) (sl_dedupe_id sl)).
  - reflexivity.
  - apply lookup_insert_eq.
  - intros sl' Hin [= H1 H2]. now apply (Hpost sl' Hin).
Qed.

(** X9. A record without [source_id], or with the empty one, never
    finds its key in the dict, whatever rows the snapshot holds: its
    dedupe id always comes from the cross-source search or from a new
    draw. *)
Theorem resolve_dedupe_id_no_key (existing_listings : list StoredListing)
    (listing : NormalizedListing) (draws : nat) :
  truthy_opt (source_id listing) = false ->
  existing_dedupe_map existing_listings !! (source listing, source_id listing) = None
  /\ resolve_dedupe_id existing_listings listing draws
     = match fst (cross_source_loop listing existing_listings) with
       | Some d => if truthy d then (d, draws) else generate_dedupe_id draws
       | None => generate_dedupe_id draws
       end.
Proof.
  intros Hfalsy.
  assert (Hnone : existing_dedupe_map existing_listings
                    !! (source listing, source_id listing) = None).
  { destruct (existing_dedupe_map existing_listings !! (source listing, source_id listing))
      as [d|] eqn:Hd; [|reflexivity].
    apply dedupe_map_origin in Hd as [Hd | (sl & _ & [= _ Hk] & Ht & _)].
    - now rewrite lookup_empty in Hd.
    - congruence. }
  split; [exact Hnone|].
  unfold resolve_dedupe_id. rewrite Hnone.
  now destruct (cross_source_loop listing existing_listings) as [[d|] bs].
Qed.

(** X11. The dedupe id of a record is the [dedupe_id] of a row of the
    snapshot, with no draw, or the next draw of the generator. When no
    stored id and no drawn id is empty, the id of the record is not
    empty either. *)
Theorem resolve_dedupe_id_origin (existing_listings : list StoredListing)
    (listing : NormalizedListing) (draws : nat) :
  (forall sl, sl ∈ existing_listings -> sl_dedupe_id sl <> "") ->
  (forall n, uuid4 n <> "") ->
  let '(dedupe_id, draws') := resolve_dedupe_id existing_listings listing draws in
  dedupe_id <> ""
  /\ ((draws' = draws /\ exists sl, sl ∈ existing_listings /\ dedupe_id = sl_dedupe_id sl)
      \/ (draws' = S draws /\ dedupe_id = uuid4 draws)).
Proof.
  intros Hids Huuid. unfold resolve_dedupe_id.
  destruct (existing_dedupe_map existing_listings !! (source listing, source_id listing))
    as [d|] eqn:Hd.
  - apply dedupe_map_origin in Hd as [Hd | (sl & Hin & _ & _ & ->)].
    + now rewrite lookup_empty in Hd.
    + split; [now apply Hids|]. left. split; [reflexivity|]. now exists sl.
  - pose proof (PipelineFacts.cross_source_loop_best listing existing_listings) as Hinv.
    destruct (cross_source_loop listing existing_listings) as [[d|] bs]; simpl in Hinv.
    + destruct Hinv as (sl & Hin & _ & -> & _).
      pose proof (Hids sl Hin) as Hne.
      destruct (sl_dedupe_id sl) eqn:Hid; [congruence|]. cbn [truthy].
      split; [discriminate|]. left. split; [reflexivity|]. exists sl. now rewrite Hid.
    + unfold generate_dedupe_id. split; [apply Huuid|]. right. auto.
Qed.

(** X7. Whenever [find_duplicate] finds a match among the normalized
    rows of the snapshot, the cross-source loop of the pipeline, which
    does not look at neighborhoods, adopts the [dedupe_id] of a row that
    scores at least as high. *)
Theorem find_duplicate_implies_adoption (listing : NormalizedListing)
    (existing_listings : list StoredListing) (sid : option string) (s : Engine.DedupeScore) :
  Engine.find_duplicate listing (map to_normalized existing_listings) = (sid, Some s) ->
  exists sl best_score,
    sl ∈ existing_listings
    /\ cross_source_loop listing existing_listings = (Some (sl_dedupe_id sl), best_score)
    /\ best_score = cross_score listing sl
    /\ (Engine.combined s <= best_score)%Q.
Proof.
  intros Hfd.
  destruct (EngineFacts.find_duplicate_cases listing (map to_normalized existing_listings))
    as [(k & s' & e & _ & Hinv & Hk & Heq) | (_ & _ & Heq)];
    rewrite Heq in Hfd; [|discriminate].
  injection Hfd as _ <-.
  destruct Hinv as (e' & Hk' & [[Hsrc _] Hthr] & -> & _).
  change (map to_normalized existing_listings)
    with (to_normalized <$> existing_listings) in Hk'.
  rewrite list_lookup_fmap in Hk'.
  destruct (existing_listings !! k) as [row|] eqn:Hrow; [|discriminate].
  injection Hk' as <-.
  assert (Hmatch : cross_match listing row) by (split; [exact Hsrc | exact Hthr]).
  pose proof (PipelineFacts.cross_source_loop_best listing existing_listings) as Hbest.
  destruct (cross_source_loop listing existing_listings) as [[d|] bs]; simpl in Hbest.
  - destruct Hbest as (sl & Hin & _ & -> & -> & Hmax).
    exists sl, (cross_score listing sl). split; [exact Hin|]. split; [reflexivity|].
    split; [reflexivity|]. apply Hmax; [|exact Hmatch].
    now apply list_elem_of_lookup_2 in Hrow.
  - destruct Hbest as [_ Hnone]. exfalso. apply (Hnone row); [|exact Hmatch].
    now apply list_elem_of_lookup_2 in Hrow.
Qed.

(** *** The store loop *)




End DedupeId.

Import Lib Samples.

Lemma resolve_dedupe_id_known_key_witness :
  resolve_dedupe_id
    ([stored "d-0" "2024-01-01" ACTIVE 0 pijp_pararius]
     ++ stored "d-1" "2024-01-01" ACTIVE 0 pijp_funda
     :: [stored "d-2" "2024-01-01" ACTIVE 0 pijp_huurwoningen])
    pijp_funda 7
  = (sl_dedupe_id (stored "d-1" "2024-01-01" ACTIVE 0 pijp_funda), 7%nat).
Proof.
  apply resolve_dedupe_id_known_key; try reflexivity.
  intros sl' Hin [Hsrc _].
  apply list_elem_of_singleton in Hin as ->. discriminate Hsrc.
Defined.

Lemma resolve_dedupe_id_no_key_witness :
  let anonymous := bare "Funda" "" in
  let rows := [stored "d-1" "2024-01-01" ACTIVE 0 (bare "Funda" "")] in
  existing_dedupe_map rows !! (source anonymous, source_id anonymous) = None
  /\ resolve_dedupe_id rows anonymous 7
     = match fst (cross_source_loop anonymous rows) with
       | Some d => if truthy d then (d, 7%nat) else generate_dedupe_id 7
       | None => generate_dedupe_id 7
       end.
Proof.
  apply (resolve_dedupe_id_no_key
           [stored "d-1" "2024-01-01" ACTIVE 0 (bare "Funda" "")] (bare "Funda" "") 7).
  reflexivity.
Defined.

Lemma resolve_dedupe_id_origin_witness :
  let '(dedupe_id, draws') :=
    resolve_dedupe_id [stored "d-1" "2024-01-01" ACTIVE 0 pijp_pararius] pijp_funda 7 in
  dedupe_id <> ""
  /\ ((draws' = 7%nat
       /\ exists sl, sl ∈ [stored "d-1" "2024-01-01" ACTIVE 0 pijp_pararius]
                     /\ dedupe_id = sl_dedupe_id sl)
      \/ (draws' = 8%nat /\ dedupe_id = uuid4 7)).
Proof.
  apply (resolve_dedupe_id_origin
           [stored "d-1" "2024-01-01" ACTIVE 0 pijp_pararius] pijp_funda 7).
  - intros sl Hin. apply list_elem_of_singleton in Hin as ->. discriminate.
  - intros n. discriminate.
Defined.

Lemma find_duplicate_implies_adoption_witness :
  exists s,
    Engine.find_duplicate pijp_funda
      (map to_normalized [stored "d-1" "2024-01-01" ACTIVE 0 pijp_pararius])
    = (Some "456", Some s)
    /\ exists sl best_score,
         sl ∈ [stored "d-1" "2024-01-01" ACTIVE 0 pijp_pararius]
         /\ cross_source_loop pijp_funda [stored "d-1" "2024-01-01" ACTIVE 0 pijp_pararius]
            = (Some (sl_dedupe_id sl), best_score)
         /\ best_score = cross_score pijp_funda sl
         /\ (Engine.combined s <= best_score)%Q.
Proof.
  eexists. split.
  - vm_compute. reflexivity.
  - apply (find_duplicate_implies_adoption pijp_funda
             [stored "d-1" "2024-01-01" ACTIVE 0 pijp_pararius] (Some "456")).
    vm_compute. reflexivity.
Defined.


End RunFacts.

(** ** Whole-word matching *)

Module WordFacts.
Import Text WordBoundary Neighborhood.

Local Open Scope string_scope.

Lemma drop_prefix_spec (v t rest : string) :
  drop_prefix v t = Some rest <-> t = v ++ rest.
Proof.
  revert t. induction v as [|a v IH]; intros t; cbn [drop_prefix].
  - rewrite PriceFacts.append_nil. split; [now intros [= ->] | now intros ->].
  - rewrite PriceFacts.append_cons. destruct t as [|b t].
    + split; discriminate.
    + destruct (Ascii.eqb_spec a b) as [-> | Hne].
      * rewrite IH. split; [now intros -> | now intros [= ->]].
      * split; [discriminate | intros [= H _]; congruence].
Qed.

Lemma word_search_from_spec (b : bool) (v t : string) :
  word_search_from b v t = true <->
  (b = true /\ exists post, t = v ++ post /\ right_boundary post = true)
  \/ (exists pre c post,
        t = pre ++ String c (v ++ post) /\ is_sep c = true
        /\ right_boundary post = true).
Proof.
  assert (Hhere : forall b t,
            b && match drop_prefix v t with
                 | Some rest => right_boundary rest
                 | None => false
                 end = true
            <-> b = true /\ exists post, t = v ++ post /\ right_boundary post = true).
  { intros b0 t0. rewrite andb_true_iff. split; intros [Hb H]; (split; [exact Hb|]).
    - destruct (drop_prefix v t0) as [rest|] eqn:Hd; [|discriminate].
      exists rest. split; [now apply drop_prefix_spec | exact H].
    - destruct H as (post & Ht & Hr). apply drop_prefix_spec in Ht. now rewrite Ht. }
  revert b. induction t as [|d t IH]; intros b; cbn [word_search_from];
    rewrite orb_true_iff, Hhere.
  - split; [intros [H | H]; [now left | discriminate]|].
    intros [H | (pre & c & post & Ht & _)]; [now left|].
    destruct pre; rewrite ?PriceFacts.append_nil, ?PriceFacts.append_cons in Ht;
      discriminate.
  - rewrite IH. split.
    + intros [H | [[Hd (post & Ht & Hr)] | (pre & c & post & Ht & Hc & Hr)]].
      * now left.
      * right. exists "", d, post. rewrite PriceFacts.append_nil, Ht. auto.
      * right. exists (String d pre), c, post.
        rewrite PriceFacts.append_cons, Ht. auto.
    + intros [H | (pre & c & post & Ht & Hc & Hr)]; [now left|]. right.
      destruct pre as [|d' pre];
        rewrite ?PriceFacts.append_nil, ?PriceFacts.append_cons in Ht;
        injection Ht as -> ->.
      * left. split; [exact Hc|]. now exists post.
      * right. now exists pre, c, post.
Qed.

(** X14. The variant pattern matches whole words only: a variant is
    found in a field exactly when the field is some text, the variant,
    and some text, where the text before is empty or ends with a white
    space or comma and the text after is empty or starts with one. *)
Theorem word_search_whole_words (v t : string) :
  word_search v t = true <->
  exists pre post,
    t = pre ++ v ++ post /\ ends_with_sep pre /\ right_boundary post = true.
Proof.
  unfold word_search. rewrite word_search_from_spec. split.
  - intros [[_ (post & Ht & Hr)] | (pre & c & post & Ht & Hc & Hr)].
    + exists "", post. rewrite PriceFacts.append_nil. split; [exact Ht|].
      split; [now left | exact Hr].
    + exists (pre ++ String c ""), post. split; [|split; [|exact Hr]].
      * rewrite PriceFacts.append_assoc, PriceFacts.append_cons, PriceFacts.append_nil.
        exact Ht.
      * right. now exists pre, c.
  - intros (pre & post & Ht & [-> | (p & c & -> & Hc)] & Hr).
    + left. split; [reflexivity|]. exists post.
      now rewrite PriceFacts.append_nil in Ht.
    + right. exists p, c, post. split; [|auto].
      rewrite PriceFacts.append_assoc, PriceFacts.append_cons, PriceFacts.append_nil in Ht.
      exact Ht.
Qed.

(** The example of the source: "west" is not found inside "westerpark",
    and is found in "amsterdam west". *)
Lemma west_not_in_westerpark :
  word_search "west" "westerpark" = false
  /\ word_search "west" "amsterdam west" = true.
Proof. split; reflexivity. Qed.

(** X15. Each canonical name and each variant of the registry, given
    as the location or as the title, is matched to its own neighborhood,
    without ambiguity: no variant is captured by another neighborhood. *)
Theorem registry_round_trip (n v : string) (vs : list string) :
  (n, vs) ∈ Config.TARGET_NEIGHBORHOODS -> v = n \/ v ∈ vs ->
  (name (match_neighborhood "" v "") = Some n
   /\ ambiguous (match_neighborhood "" v "") = false)
  /\ (name (match_neighborhood v "" "") = Some n
      /\ ambiguous (match_neighborhood v "" "") = false).
Proof.
  intros Hn Hv.
  assert (Hall : Forall
            (fun e : string * list string =>
               Forall (fun v =>
                         (name (match_neighborhood "" v "") = Some (fst e)
                          /\ ambiguous (match_neighborhood "" v "") = false)
                         /\ (name (match_neighborhood v "" "") = Some (fst e)
                             /\ ambiguous (match_neighborhood v "" "") = false))
                 (fst e :: snd e))
            Config.TARGET_NEIGHBORHOODS).
  { unfold Config.TARGET_NEIGHBORHOODS.
    repeat (apply List.Forall_cons;
            [cbn [fst snd];
             repeat (apply List.Forall_cons;
                     [split; split; vm_compute; reflexivity|]);
             apply List.Forall_nil|]).
    apply List.Forall_nil. }
  rewrite Forall_forall in Hall. specialize (Hall _ Hn). cbn [fst snd] in Hall.
  rewrite Forall_forall in Hall.
  assert (Hin : v ∈ n :: vs) by (apply elem_of_cons; tauto).
  exact (Hall v Hin).
Qed.

Lemma registry_round_trip_witness :
  (name (match_neighborhood "" "amsterdam-west de baarsjes" "") = Some "De Baarsjes"
   /\ ambiguous (match_neighborhood "" "amsterdam-west de baarsjes" "") = false)
  /\ (name (match_neighborhood "amsterdam-west de baarsjes" "" "") = Some "De Baarsjes"
      /\ ambiguous (match_neighborhood "amsterdam-west de baarsjes" "" "") = false).
Proof.
  apply (registry_round_trip "De Baarsjes" "amsterdam-west de baarsjes"
           ["de baarsjes"; "baarsjes"; "amsterdam-west de baarsjes";
            "amsterdam west de baarsjes"]).
  - unfold Config.TARGET_NEIGHBORHOODS. apply elem_of_cons. now left.
  - right. do 2 (apply elem_of_cons; right). apply elem_of_cons. now left.
Defined.

End WordFacts.

(** ** Source ids of the collectors *)

Module HrefFacts.
Import Text Href.

Local Open Scope string_scope.

Lemma split_from_nonempty (c : ascii) (cur s : string) : split_from c cur s <> [].
Proof.
  revert cur. induction s as [|d s IH]; intros cur; cbn [split_from]; [discriminate|].
  destruct (Ascii.eqb c d); [discriminate | apply IH].
Qed.

Lemma append_nil_r (s : string) : s ++ "" = s.
Proof.
  induction s as [|d s IH]; [reflexivity|]. now rewrite PriceFacts.append_cons, IH.
Qed.

Lemma last_piece_cons (x : string) (l : list string) :
  l <> [] -> last_piece (x :: l) = last_piece l.
Proof. destruct l; [congruence | reflexivity]. Qed.

(** The last piece is the text after the last separator. *)
Lemma split_from_last (c : ascii) (cur s : string) :
  last_piece (split_from c cur s) =
    match Price.after_last c s with
    | Some r => r
    | None => cur ++ s
    end.
Proof.
  revert cur. induction s as [|d s IH]; intros cur; cbn [split_from Price.after_last].
  - now rewrite append_nil_r.
  - destruct (Ascii.eqb c d) eqn:Hcd.
    + rewrite last_piece_cons by apply split_from_nonempty. rewrite IH.
      destruct (Price.after_last c s); [reflexivity | apply PriceFacts.append_nil].
    + rewrite IH. destruct (Price.after_last c s); [reflexivity|].
      rewrite PriceFacts.append_assoc, PriceFacts.append_cons, PriceFacts.append_nil.
      reflexivity.
Qed.

Lemma after_last_spec (c : ascii) (s : string) :
  match Price.after_last c s with
  | Some r => Price.has_char c r = false /\ exists p, s = p ++ String c r
  | None => Price.has_char c s = false
  end.
Proof.
  induction s as [|d s IH]; [reflexivity|]. cbn [Price.after_last].
  destruct (Price.after_last c s) as [r|].
  - destruct IH as [Hr (p & ->)]. split; [exact Hr|].
    exists (String d p). now rewrite PriceFacts.append_cons.
  - destruct (Ascii.eqb_spec c d) as [<- | Hne].
    + split; [exact IH|]. exists "". now rewrite PriceFacts.append_nil.
    + rewrite PriceFacts.has_char_cons, IH.
      destruct (Ascii.eqb_spec c d); [contradiction | reflexivity].
Qed.

Lemma rstrip_char_cons (c d : ascii) (s : string) :
  rstrip_char c (String d s) =
    match rstrip_char c s with
    | EmptyString => if Ascii.eqb c d then EmptyString else String d EmptyString
    | String e r => String d (String e r)
    end.
Proof. reflexivity. Qed.

Lemma append_not_nil (p : string) (c : ascii) (r : string) : p ++ String c r <> "".
Proof. destruct p; rewrite ?PriceFacts.append_nil, ?PriceFacts.append_cons; discriminate. Qed.

(** [rstrip] leaves no separator at the end. *)
Lemma rstrip_char_end (c : ascii) (s p : string) : rstrip_char c s <> p ++ String c "".
Proof.
  revert p. induction s as [|d s IH]; intros p.
  - cbn. intros H. symmetry in H. now apply append_not_nil in H.
  - rewrite rstrip_char_cons. destruct (rstrip_char c s) as [|e r] eqn:Hr.
    + destruct (Ascii.eqb_spec c d) as [-> | Hne].
      * intros H. symmetry in H. now apply append_not_nil in H.
      * destruct p as [|a p]; rewrite ?PriceFacts.append_nil, ?PriceFacts.append_cons.
        -- intros [= H]. congruence.
        -- intros [= _ H]. symmetry in H. now apply append_not_nil in H.
    + destruct p as [|a p]; rewrite ?PriceFacts.append_nil, ?PriceFacts.append_cons.
      * discriminate.
      * intros [= _ H]. now apply (IH p).
Qed.

Lemma source_id_of_href_parts (href : string) :
  match source_id_of_href href with
  | None => href = ""
  | Some sid =>
      href <> ""
      /\ Price.has_char "/" sid = false
      /\ (exists pre, strip_char "/" href = pre ++ sid
                      /\ (pre = "" \/ exists p, pre = p ++ "/"))
      /\ (sid = "" <-> strip_char "/" href = "")
  end.
Proof.
  unfold source_id_of_href. destruct href as [|h0 href0]; [reflexivity|].
  cbn [truthy]. split; [discriminate|].
  set (st := strip_char "/" (String h0 href0)).
  unfold split_char. rewrite split_from_last, PriceFacts.append_nil.
  pose proof (after_last_spec "/" st) as Hspec.
  destruct (Price.after_last "/" st) as [r|] eqn:Hal.
  - destruct Hspec as [Hr (p & Hst)]. split; [exact Hr|]. split.
    + exists (p ++ "/"). split.
      * rewrite PriceFacts.append_assoc, PriceFacts.append_cons, PriceFacts.append_nil.
        exact Hst.
      * right. now exists p.
    + split.
      * intros ->. exfalso. apply (rstrip_char_end "/" (lstrip_char "/" (String h0 href0)) p).
        exact Hst.
      * intros H0. rewrite H0 in Hst. symmetry in Hst. now apply append_not_nil in Hst.
  - split; [exact Hspec|]. split; [|tauto].
    exists "". rewrite PriceFacts.append_nil. auto.
Qed.

(** X16. An empty [href] gives no source id. Any other [href] gives
    the text after the last slash of the [href] stripped of its leading
    and trailing slashes: the id holds no slash, and it is empty only
    when the stripped [href] is empty. *)
Theorem source_id_of_href_spec (href : string) :
  match source_id_of_href href with
  | None => href = ""
  | Some sid =>
      href <> ""
      /\ Price.has_char "/" sid = false
      /\ (exists pre, strip_char "/" href = pre ++ sid
                      /\ (pre = "" \/ exists p, pre = p ++ "/"))
      /\ (sid = "" <-> strip_char "/" href = "")
  end.
Proof. exact (source_id_of_href_parts href). Qed.

(** X17. The source id Kamernet derives from a non-empty [href] holds
    neither a slash nor a hyphen. *)
Theorem kamernet_source_id_spec (href : string) :
  match kamernet_source_id href with
  | None => href = ""
  | Some sid =>
      href <> "" /\ Price.has_char "/" sid = false /\ Price.has_char "-" sid = false
  end.
Proof.
  unfold kamernet_source_id. pose proof (source_id_of_href_parts href) as H.
  destruct (source_id_of_href href) as [sid|]; [|exact H].
  destruct H as (Hne & Hslash & _).
  destruct (truthy sid && Price.has_char "-" sid) eqn:Hcond.
  - split; [exact Hne|]. unfold split_char.
    rewrite split_from_last, PriceFacts.append_nil.
    pose proof (after_last_spec "-" sid) as Hspec.
    destruct (Price.after_last "-" sid) as [r|].
    + destruct Hspec as [Hr (p & Hsid)]. split; [|exact Hr].
      rewrite Hsid, PriceFacts.has_char_app, PriceFacts.has_char_cons in Hslash.
      apply orb_false_iff in Hslash as [_ Hslash].
      now apply orb_false_iff in Hslash as [_ Hslash].
    + apply andb_true_iff in Hcond as [_ Hcond]. congruence.
  - split; [exact Hne|]. split; [exact Hslash|].
    destruct sid; [reflexivity|]. cbn [truthy andb] in Hcond. exact Hcond.
Qed.

(** Ids as the sites link them. *)
Lemma source_id_examples :
  source_id_of_href "/appartement-te-huur/amsterdam/abc123/" = Some "abc123"
  /\ source_id_of_href "//" = Some ""
  /\ kamernet_source_id "/huren/kamer-amsterdam/straat/kamer-2361069" = Some "2361069".
Proof. repeat split. Qed.

End HrefFacts.

(** ** Spacing of requests *)

Module RateLimitFacts.
Import RateLimit.

Lemma rate_limit_step (self : Limiter) (now after : Q) :
  clock_respects self now after ->
  (_last_request_time self + REQUEST_DELAY_SEC
   <= _last_request_time (fst (_rate_limit self now after)))%Q.
Proof.
  unfold clock_respects, _rate_limit. cbn [fst snd _last_request_time].
  destruct (Qltb (now - _last_request_time self) REQUEST_DELAY_SEC) eqn:E.
  - intros H. lra.
  - apply Qltb_ge in E. intros H. lra.
Qed.

(** X18. As long as the clock does not go back and a sleep lasts at
    least as long as asked, the limiter records request times that are
    at least [REQUEST_DELAY_SEC] apart: the first one from the time
    recorded before, and each next one from the one before it. *)
Theorem request_times_spaced (self : Limiter) (clock : list (Q * Q)) :
  clock_respected self clock ->
  (forall t, request_times self clock !! 0%nat = Some t ->
             (_last_request_time self + REQUEST_DELAY_SEC <= t)%Q)
  /\ (forall i t1 t2,
        request_times self clock !! i = Some t1 ->
        request_times self clock !! S i = Some t2 ->
        (t1 + REQUEST_DELAY_SEC <= t2)%Q).
Proof.
  revert self. induction clock as [|[now after] rest IH]; intros self Hclock.
  - split; intros; discriminate.
  - destruct Hclock as [Hstep Hrest]. cbn [request_times].
    destruct (IH _ Hrest) as [IH0 IHn]. split.
    + intros t [= <-]. exact (rate_limit_step self now after Hstep).
    + intros [|i] t1 t2 H1 H2.
      * injection H1 as <-. now apply IH0.
      * now apply (IHn i).
Qed.

Lemma request_times_spaced_witness :
  let self := {| _last_request_time := 0 |} in
  let clock := [(100, 100); (100 + (1 # 4), 101); (103, 103)]%Q in
  (forall t, request_times self clock !! 0%nat = Some t ->
             (_last_request_time self + REQUEST_DELAY_SEC <= t)%Q)
  /\ (forall i t1 t2,
        request_times self clock !! i = Some t1 ->
        request_times self clock !! S i = Some t2 ->
        (t1 + REQUEST_DELAY_SEC <= t2)%Q).
Proof.
  apply (request_times_spaced {| _last_request_time := 0 |}
           [(100, 100); (100 + (1 # 4), 101); (103, 103)]%Q).
  vm_compute. repeat split; discriminate.
Defined.

End RateLimitFacts.

(** ** Cleaned titles *)

Module TitleFacts.
Import Text TextShape Engine.

Section Chars.
Variable p : ascii -> bool.

Lemma drop_prefix_chars (w s rest : string) :
  all_chars p s = true -> drop_prefix w s = Some rest -> all_chars p rest = true.
Proof.
  revert s. induction w as [|a w IH]; intros s Hs; cbn [drop_prefix].
  - now intros [= <-].
  - destruct s as [|b s]; [discriminate|].
    rewrite TextShapeFacts.all_chars_cons in Hs. apply andb_true_iff in Hs as [_ Hs].
    destruct (Ascii.eqb a b); [now apply IH | discriminate].
Qed.

Lemma match_words_chars (ws : list string) (s rest : string) :
  all_chars p s = true -> match_words ws s = Some rest -> all_chars p rest = true.
Proof.
  revert s. induction ws as [|w ws IH]; intros s Hs; cbn [match_words].
  - now intros [= <-].
  - destruct (drop_prefix w s) as [r|] eqn:Hd; [|discriminate].
    pose proof (drop_prefix_chars w s r Hs Hd) as Hr.
    destruct ws as [|w' ws']; [now intros [= <-]|].
    destruct r as [|c r']; [discriminate|].
    destruct (is_space c); [|discriminate].
    apply IH. now apply TextShapeFacts.lstrip_plain.
Qed.

Lemma remove_prefix_chars (ws : list string) (title : string) :
  all_chars p title = true -> all_chars p (remove_prefix ws title) = true.
Proof.
  intros Ht. unfold remove_prefix.
  destruct (match_words ws title) as [rest|] eqn:Hm; [|exact Ht].
  pose proof (TextShapeFacts.lstrip_plain p rest (match_words_chars ws title rest Ht Hm)) as Hl.
  destruct (lstrip rest) as [|c rest']; [exact Ht|].
  destruct (is_prefix_mark c); [|exact Ht].
  rewrite TextShapeFacts.all_chars_cons in Hl. apply andb_true_iff in Hl as [_ Hl].
  now apply TextShapeFacts.lstrip_plain.
Qed.

Lemma sub_runs_space_chars (b : bool) (s : string) :
  p " "%char = true -> all_chars p s = true ->
  all_chars p (sub_runs_from is_space b s) = true.
Proof.
  intros Hsp. revert b. induction s as [|c s IH]; intros b; [reflexivity|].
  rewrite TextShapeFacts.all_chars_cons. intros [Hc Hs]%andb_true_iff.
  cbn [sub_runs_from]. destruct (is_space c).
  - destruct b; [now apply IH|]. rewrite TextShapeFacts.all_chars_cons, Hsp. now apply IH.
  - rewrite TextShapeFacts.all_chars_cons, Hc. now apply IH.
Qed.

End Chars.

Lemma lower_idem (s : string) : lower (lower s) = lower s.
Proof. apply TextShapeFacts.lower_id, TextShapeFacts.lower_fixed. Qed.

(** X19. A cleaned title is text that [str.lower] leaves alone, in
    which white space is the single space character, never doubled,
    never first and never last; and cleaning does not depend on the case
    of the letters of the title. *)
Theorem clean_title_shape (title : string) :
  let s := _clean_title title in
  lower s = s
  /\ spaced true s = true
  /\ no_trailing_space s = true
  /\ _clean_title (lower title) = s.
Proof.
  cbv zeta. unfold _clean_title, strip, sub_runs.
  split; [|split; [|split]].
  - apply TextShapeFacts.lower_id.
    apply TextShapeFacts.rstrip_plain, TextShapeFacts.lstrip_plain.
    apply sub_runs_space_chars; [reflexivity|].
    unfold prefixes. cbn [fold_left].
    repeat apply remove_prefix_chars. apply TextShapeFacts.lower_fixed.
  - apply TextShapeFacts.rstrip_spaced, (TextShapeFacts.lstrip_spaced false).
    apply TextShapeFacts.sub_runs_space_spaced.
  - apply TextShapeFacts.rstrip_no_trailing.
  - now rewrite lower_idem.
Qed.

(** The prefixes of the source at work. *)
Lemma clean_title_examples :
  _clean_title "Te huur: Appartement Ferdinand Bolstraat 45"
    = "appartement ferdinand bolstraat 45"
  /\ _clean_title "TE  HUUR -  Studio:   De Pijp " = "de pijp"
  /\ _clean_title "Huurwoning Centrum" = "huurwoning centrum".
Proof. repeat split. Qed.

End TitleFacts.

(** ** Price and area closeness *)

Module ClosenessFacts.
Import Engine.



End ClosenessFacts.

(** ** The cross-source loop and [find_duplicate] *)

Module CrossOrderFacts.
Import Text Pipeline CrossOrder.

Section Loop.
Context {fuzz : RapidFuzz} {urllib : UrlLib}.

Lemma first_best_cross_skip (listing : NormalizedListing) (x : StoredListing)
    (seen : list StoredListing) (st : option string * Q) :
  (match st with
   | (Some _, best_score) => cross_match listing x -> (cross_score listing x <= best_score)%Q
   | (None, _) => ~ cross_match listing x
   end) ->
  first_best_cross listing seen st -> first_best_cross listing (seen ++ [x]) st.
Proof.
  destruct st as [[d|] bs]; simpl; intros Hx.
  - intros (k & sl & Hk & Hm & Hd & Hbs & Hmax & Hfirst). exists k, sl.
    split; [rewrite lookup_app_l; [exact Hk | now apply lookup_lt_Some in Hk]|].
    split; [exact Hm|]. split; [exact Hd|]. split; [exact Hbs|]. split.
    + intros j sl' Hj Hm'. apply lookup_snoc_Some in Hj as [[_ Hj] | [_ <-]].
      * now apply (Hmax j).
      * rewrite <- Hbs. now apply Hx.
    + intros j sl' Hjk Hj Hm'. apply lookup_snoc_Some in Hj as [[_ Hj] | [Hj _]].
      * now apply (Hfirst j).
      * apply lookup_lt_Some in Hk. lia.
  - intros [Hbs Hnone]. split; [exact Hbs|].
    intros j sl Hj. apply lookup_snoc_Some in Hj as [[_ Hj] | [_ <-]].
    + now apply (Hnone j).
    + exact Hx.
Qed.

Lemma first_best_cross_step (listing : NormalizedListing) (x : StoredListing)
    (seen : list StoredListing) (st : option string * Q) :
  first_best_cross listing seen st ->
  first_best_cross listing (seen ++ [x])
    (cross_source_step listing st (to_normalized x, x)).
Proof.
  intros Hinv. unfold cross_source_step. destruct st as [best bs].
  change (source (to_normalized x)) with (sl_source x).
  change (Engine.combined (Engine.compute_dedupe_score listing (to_normalized x)))
    with (cross_score listing x).
  destruct (String.eqb (sl_source x) (source listing)) eqn:Hsrc.
  { apply first_best_cross_skip; [|exact Hinv].
    apply String.eqb_eq in Hsrc. destruct best; intros [H _]; contradiction. }
  apply String.eqb_neq in Hsrc.
  destruct (Qle_bool Config.DEDUPE_COMBINED_THRESHOLD (cross_score listing x)) eqn:Hthr.
  2:{ apply first_best_cross_skip; [|exact Hinv].
      destruct best; intros [_ H]; apply Qle_bool_iff in H; congruence. }
  apply Qle_bool_iff in Hthr.
  destruct (Qltb bs (cross_score listing x)) eqn:Hlt; cbn [andb].
  - apply Qltb_lt in Hlt. simpl. exists (length seen), x.
    split; [apply list_lookup_middle; reflexivity|].
    split; [now split|]. split; [reflexivity|]. split; [reflexivity|].
    assert (Hbefore : forall j sl', seen !! j = Some sl' -> cross_match listing sl' ->
              (cross_score listing sl' < cross_score listing x)%Q).
    { intros j sl' Hj Hm'. destruct best as [d|]; simpl in Hinv.
      - destruct Hinv as (k & sl & _ & _ & _ & Hbs & Hmax & _).
        eapply Qle_lt_trans; [apply (Hmax j sl' Hj Hm')|]. now rewrite <- Hbs.
      - destruct Hinv as [_ Hnone]. now destruct (Hnone j sl' Hj). }
    split.
    + intros j sl' Hj Hm'. apply lookup_snoc_Some in Hj as [[_ Hj] | [_ <-]].
      * apply Qlt_le_weak. now apply (Hbefore j).
      * apply Qle_refl.
    + intros j sl' Hjk Hj Hm'. apply lookup_snoc_Some in Hj as [[_ Hj] | [Hj _]]; [|lia].
      now apply (Hbefore j).
  - apply Qltb_ge in Hlt. apply first_best_cross_skip; [|exact Hinv].
    destruct best as [d|]; [intros _; exact Hlt|].
    destruct Hinv as [-> _]. intros _.
    apply (Qlt_not_le _ _ PipelineFacts.threshold_positive).
    eapply Qle_trans; eassumption.
Qed.

Lemma cross_source_loop_first_best (listing : NormalizedListing)
    (existing : list StoredListing) :
  first_best_cross listing existing (cross_source_loop listing existing).
Proof.
  unfold cross_source_loop. rewrite PipelineFacts.zip_map_fold.
  assert (H : forall rest seen st,
             first_best_cross listing seen st ->
             first_best_cross listing (seen ++ rest)
               (fold_left (fun st x => cross_source_step listing st (to_normalized x, x))
                  rest st)).
  { induction rest as [|x rest IH]; intros seen st Hinv.
    - rewrite app_nil_r. exact Hinv.
    - cbn [fold_left].
      replace (seen ++ x :: rest) with ((seen ++ [x]) ++ rest)
        by (now rewrite <- app_assoc).
      apply IH. now apply first_best_cross_step. }
  apply (H existing [] (None, 0%Q)). simpl. split; [reflexivity|].
  intros j sl Hj. discriminate.
Qed.

Lemma qualifies_cross_match (listing : NormalizedListing) (sl : StoredListing) :
  Engine.neighborhoods_differ listing (to_normalized sl) = false ->
  Engine.qualifies listing (to_normalized sl) <-> cross_match listing sl.
Proof.
  intros Hnb. rewrite EngineFacts.qualifies_guards. unfold cross_match, cross_score.
  change (source (to_normalized sl)) with (sl_source sl).
  rewrite String.eqb_neq, Qle_bool_iff. tauto.
Qed.

Lemma lookup_normalized (existing : list StoredListing) (j : nat) (e : NormalizedListing) :
  map to_normalized existing !! j = Some e ->
  exists sl, existing !! j = Some sl /\ e = to_normalized sl.
Proof.
  change (map to_normalized existing) with (to_normalized <$> existing).
  rewrite list_lookup_fmap. destruct (existing !! j) as [sl|]; [|discriminate].
  intros [= <-]. now exists sl.
Qed.

(** X22. When no row of the snapshot has a known neighborhood that
    disagrees with the listing's, the loop of the pipeline and
    [find_duplicate] of the engine choose the same row: the pipeline
    adopts the [dedupe_id] of the row whose [source_id] and score
    [find_duplicate] returns, and adopts nothing when [find_duplicate]
    finds no match. *)
Theorem loops_agree (listing : NormalizedListing) (existing : list StoredListing) :
  (forall sl, sl ∈ existing ->
     Engine.neighborhoods_differ listing (to_normalized sl) = false) ->
  match Engine.find_duplicate listing (map to_normalized existing) with
  | (sid, Some s) =>
      exists k sl,
        existing !! k = Some sl
        /\ sid = sl_source_id sl
        /\ s = Engine.compute_dedupe_score listing (to_normalized sl)
        /\ cross_source_loop listing existing
           = (Some (sl_dedupe_id sl), Engine.combined s)
  | (sid, None) => sid = None /\ fst (cross_source_loop listing existing) = None
  end.
Proof.
  intros Hnb.
  assert (Hq : forall j sl, existing !! j = Some sl ->
            (Engine.qualifies listing (to_normalized sl) <-> cross_match listing sl)).
  { intros j sl Hj. apply qualifies_cross_match, Hnb.
    now apply list_elem_of_lookup_2 in Hj. }
  pose proof (cross_source_loop_first_best listing existing) as Hcross.
  destruct (EngineFacts.find_duplicate_cases listing (map to_normalized existing))
    as [(k & s & e & _ & Hinv & Hk & ->) | (_ & Hinv & ->)].
  - destruct Hinv as (e' & Hk' & Hqual & Hs & Hmax & Hfirst).
    assert (e' = e) as -> by congruence.
    destruct (lookup_normalized _ _ _ Hk) as (sl & Hsl & ->).
    exists k, sl. split; [exact Hsl|]. split; [reflexivity|]. split; [exact Hs|].
    destruct (cross_source_loop listing existing) as [[d|] bs]; simpl in Hcross.
    + destruct Hcross as (k' & sl' & Hk'' & Hm' & -> & -> & Hcmax & Hcfirst).
      assert (Hkk : k' = k).
      { destruct (Nat.lt_trichotomy k' k) as [Hlt | [Heq | Hgt]]; [|exact Heq|].
        - exfalso.
          assert (He : map to_normalized existing !! k' = Some (to_normalized sl')).
          { change (map to_normalized existing) with (to_normalized <$> existing).
            now rewrite list_lookup_fmap, Hk''. }
          pose proof (Hfirst k' _ Hlt He (proj2 (Hq k' sl' Hk'') Hm')) as H1.
          pose proof (Hcmax k sl Hsl (proj1 (Hq k sl Hsl) Hqual)) as H2.
          rewrite Hs in H1. unfold cross_score in *. lra.
        - exfalso.
          pose proof (Hcfirst k sl Hgt Hsl (proj1 (Hq k sl Hsl) Hqual)) as H1.
          assert (He : map to_normalized existing !! k' = Some (to_normalized sl')).
          { change (map to_normalized existing) with (to_normalized <$> existing).
            now rewrite list_lookup_fmap, Hk''. }
          pose proof (Hmax k' _ He (proj2 (Hq k' sl' Hk'') Hm')) as H2.
          rewrite Hs in H2. unfold cross_score in *. lra. }
      subst k'. assert (sl' = sl) as -> by congruence.
      rewrite Hs. reflexivity.
    + destruct Hcross as [_ Hnone]. exfalso.
      apply (Hnone k sl Hsl). now apply (Hq k sl Hsl).
  - split; [reflexivity|].
    destruct (cross_source_loop listing existing) as [[d|] bs]; [|reflexivity].
    simpl in Hcross. destruct Hcross as (k' & sl' & Hk'' & Hm' & _).
    exfalso. apply (Hinv k' (to_normalized sl')).
    + change (map to_normalized existing) with (to_normalized <$> existing).
      now rewrite list_lookup_fmap, Hk''.
    + now apply (Hq k' sl' Hk'').
Qed.

End Loop.

Import Lib Samples.

Lemma loops_agree_witness :
  let existing := [ stored "d-0" "2024-01-01" ACTIVE 0 pijp_funda;
                    stored "d-1" "2024-01-01" ACTIVE 0 pijp_pararius;
                    stored "d-2" "2024-01-01" ACTIVE 0 pijp_huurwoningen ] in
  match Engine.find_duplicate pijp_funda (map to_normalized existing) with
  | (sid, Some s) =>
      exists k sl,
        existing !! k = Some sl
        /\ sid = sl_source_id sl
        /\ s = Engine.compute_dedupe_score pijp_funda (to_normalized sl)
        /\ cross_source_loop pijp_funda existing
           = (Some (sl_dedupe_id sl), Engine.combined s)
  | (sid, None) => sid = None /\ fst (cross_source_loop pijp_funda existing) = None
  end.
Proof.
  intros existing. apply (loops_agree pijp_funda existing).
  intros sl Hin. unfold existing in Hin.
  repeat (apply elem_of_cons in Hin as [-> | Hin]; [reflexivity|]).
  now apply elem_of_nil in Hin.
Defined.

(** Pararius and Huurwoningen tie at 0.75: the id of the first is
    adopted. *)
Lemma cross_source_loop_tie :
  fst (cross_source_loop pijp_funda
         [ stored "d-1" "2024-01-01" ACTIVE 0 pijp_pararius;
           stored "d-2" "2024-01-01" ACTIVE 0 pijp_huurwoningen ]) = Some "d-1"
  /\ fst (cross_source_loop pijp_funda
            [ stored "d-2" "2024-01-01" ACTIVE 0 pijp_huurwoningen;
              stored "d-1" "2024-01-01" ACTIVE 0 pijp_pararius ]) = Some "d-2".
Proof. vm_compute. split; reflexivity. Qed.

End CrossOrderFacts.

(** ** Page loops *)

Module PagingFacts.
Import Text Paging.

Lemma parse_items_app (listings : list RawListing) (items : list ItemResult) :
  parse_items listings items = listings ++ parse_items [] items.
Proof.
  unfold parse_items. revert listings.
  induction items as [|item items IH]; intros listings; cbn [fold_left].
  - now rewrite app_nil_r.
  - rewrite (IH (match item with
                 | Parsed (Some listing) => [] ++ [listing]
                 | _ => []
                 end)).
    destruct item as [[l|]|]; rewrite IH; [now rewrite <- app_assoc | | ];
      now rewrite ?app_nil_r.
Qed.

Lemma paged_loop_app (site : nat -> PageResult) (rounds page : nat)
    (listings : list RawListing) :
  paged_loop site rounds page listings = listings ++ paged_loop site rounds page [].
Proof.
  revert page listings. induction rounds as [|rounds IH]; intros page listings;
    cbn [paged_loop].
  - now rewrite app_nil_r.
  - destruct (site page) as [|[|item items] has_next]; try now rewrite app_nil_r.
    cbv zeta. rewrite (parse_items_app listings).
    destruct has_next.
    + rewrite IH, (IH _ (parse_items [] (item :: items))). now rewrite app_assoc.
    + reflexivity.
Qed.

(** X23. The page loop returns what it gathered when a page fails:
    when the first pages are read with items and a next-page link, and
    the page after them raises or has no item, the listings parsed from
    those first pages are returned, in page order. Items on which
    parsing raised or returned nothing are left out. *)
Theorem paged_collect_partial (max_pages : nat) (site : nat -> PageResult)
    (good : list (list ItemResult)) :
  (length good < max_pages)%nat ->
  (forall i items, good !! i = Some items -> items <> [] /\ site (S i) = Page items true) ->
  (site (S (length good)) = PageError \/ exists b, site (S (length good)) = Page [] b) ->
  paged_collect max_pages site = concat (map (parse_items []) good).
Proof.
  unfold paged_collect.
  assert (H : forall rounds page good,
            (length good < rounds)%nat ->
            (forall i items, good !! i = Some items ->
               items <> [] /\ site (page + i)%nat = Page items true) ->
            (site (page + length good)%nat = PageError
             \/ exists b, site (page + length good)%nat = Page [] b) ->
            paged_loop site rounds page [] = concat (map (parse_items []) good)).
  { clear good. induction rounds as [|rounds IH]; intros page good Hlen Hgood Hstop; [lia|].
    cbn [paged_loop]. destruct good as [|items good].
    - cbn [length] in Hstop. rewrite Nat.add_0_r in Hstop.
      destruct Hstop as [-> | [b ->]]; reflexivity.
    - destruct (Hgood 0%nat items eq_refl) as [Hne Hsite].
      rewrite Nat.add_0_r in Hsite. rewrite Hsite.
      destruct items as [|item items]; [congruence|]. cbv zeta.
      rewrite paged_loop_app. cbn [map concat]. f_equal.
      apply IH.
      + cbn [length] in Hlen. lia.
      + intros i its Hi. replace (S page + i)%nat with (page + S i)%nat by lia.
        now apply Hgood.
      + cbn [length] in Hstop.
        now replace (S page + length good)%nat with (page + S (length good))%nat by lia. }
  intros Hlen Hgood Hstop. apply H; assumption.
Qed.

(** X24. The page loop never asks for a page beyond [max_pages], nor
    for page 0: two sites that agree on the pages 1 to [max_pages] give
    the same listings. *)
Theorem paged_collect_page_cap (max_pages : nat) (site site' : nat -> PageResult) :
  (forall page, (1 <= page <= max_pages)%nat -> site page = site' page) ->
  paged_collect max_pages site = paged_collect max_pages site'.
Proof.
  unfold paged_collect.
  assert (H : forall rounds page listings,
            (forall p, (page <= p < page + rounds)%nat -> site p = site' p) ->
            paged_loop site rounds page listings = paged_loop site' rounds page listings).
  { induction rounds as [|rounds IH]; intros page listings Hagree; [reflexivity|].
    cbn [paged_loop]. rewrite <- (Hagree page) by lia.
    destruct (site page) as [|[|item items] has_next]; try reflexivity.
    cbv zeta. destruct has_next; [|reflexivity].
    apply IH. intros p Hp. apply Hagree. lia. }
  intros Hagree. apply H. intros p Hp. apply Hagree. lia.
Qed.

(** *** Kamernet *)

Lemma anchor_fold_app (anchors : list (string * ItemResult)) (processed : gset string)
    (listings : list RawListing) :
  snd (fold_left anchor_step anchors (processed, listings))
  = listings ++ snd (fold_left anchor_step anchors (processed, [])).
Proof.
  revert processed listings.
  induction anchors as [|[href item] anchors IH]; intros processed listings;
    cbn [fold_left].
  - now rewrite app_nil_r.
  - unfold anchor_step at 2 4.
    destruct (negb (truthy href) || bool_decide (href ∈ processed)); [apply IH|].
    rewrite IH. rewrite (IH _ (match item with
                               | Parsed (Some listing) => [] ++ [listing]
                               | _ => []
                               end)).
    destruct item as [[l|]|]; rewrite ?app_nil_r; [now rewrite <- app_assoc | | ];
      reflexivity.
Qed.

(** X25. The two result pages of Kamernet are independent: the
    listings are those of the first page followed by those of the
    second, whatever hrefs the first page processed, and a page that
    fails contributes nothing without stopping the other. *)
Theorem kamernet_pages_independent (first second : AnchorPage) :
  kamernet_collect [first; second]
  = kamernet_collect [first] ++ kamernet_collect [second]
  /\ kamernet_collect [AnchorsError; second] = kamernet_collect [second]
  /\ kamernet_collect [first; AnchorsError] = kamernet_collect [first].
Proof.
  unfold kamernet_collect. cbn [fold_left]. split; [|split].
  - destruct second as [|anchors]; [now rewrite app_nil_r|].
    unfold anchors_loop. apply anchor_fold_app.
  - reflexivity.
  - reflexivity.
Qed.

(** The [processed_urls] set after some anchors: their non-empty hrefs. *)
Lemma anchor_fold_processed (anchors : list (string * ItemResult)) (processed : gset string)
    (listings : list RawListing) (href : string) :
  href ∈ fst (fold_left anchor_step anchors (processed, listings)) <->
  href ∈ processed \/ (href <> "" /\ href ∈ map fst anchors).
Proof.
  revert processed listings.
  induction anchors as [|[h item] anchors IH]; intros processed listings;
    cbn [fold_left map].
  - rewrite elem_of_nil. tauto.
  - unfold anchor_step at 2. rewrite elem_of_cons. cbn [fst].
    destruct (truthy h) eqn:Ht; cbn [negb orb].
    + assert (Hne : h <> "") by (destruct h; [discriminate | discriminate]).
      destruct (bool_decide (h ∈ processed)) eqn:Hin.
      * apply bool_decide_eq_true in Hin. rewrite IH.
        split; [tauto|]. intros [H | [H1 [-> | H2]]]; tauto.
      * rewrite IH, elem_of_union, elem_of_singleton.
        split; [intros [[-> | H] | H]; tauto|].
        intros [H | [H1 [-> | H2]]]; tauto.
    + assert (h = "") as -> by (destruct h; [reflexivity | discriminate]).
      rewrite IH. split; [tauto|]. intros [H | [H1 [-> | H2]]]; tauto.
Qed.

(** X26. Within a page Kamernet parses each href once: an anchor whose
    href is empty, or is the href of an earlier anchor of the page, adds
    nothing, whatever parsing it would give. *)
Theorem anchors_loop_skips_repeats (before after : list (string * ItemResult))
    (href : string) (item : ItemResult) (listings : list RawListing) :
  href = "" \/ href ∈ map fst before ->
  anchors_loop (before ++ (href, item) :: after) listings
  = anchors_loop (before ++ after) listings.
Proof.
  intros Hrep. unfold anchors_loop. rewrite !fold_left_app. cbn [fold_left].
  destruct (fold_left anchor_step before (∅, listings)) as [processed ls] eqn:Hfold.
  unfold anchor_step at 2.
  assert (Hskip : negb (truthy href) || bool_decide (href ∈ processed) = true).
  { destruct href as [|c href]; [reflexivity|]. cbn [truthy negb orb].
    destruct Hrep as [Hrep | Hrep]; [discriminate|].
    apply bool_decide_eq_true.
    change processed with (fst (processed, ls)). rewrite <- Hfold.
    apply anchor_fold_processed. right. split; [discriminate | exact Hrep]. }
  now rewrite Hskip.
Qed.

Lemma paged_collect_partial_witness :
  let site page :=
    match page with
    | 1%nat => Page [Parsed (Some Samples.sample_raw); ParseError] true
    | 2%nat => Page [Parsed None; Parsed (Some Samples.sample_raw)] true
    | _ => PageError
    end in
  pararius_collect site
  = concat (map (parse_items [])
              [ [Parsed (Some Samples.sample_raw); ParseError];
                [Parsed None; Parsed (Some Samples.sample_raw)] ]).
Proof.
  intros site. apply (paged_collect_partial 10 site).
  - simpl. lia.
  - intros [|[|i]] items Hi; simpl in Hi; try discriminate;
      injection Hi as <-; (split; [discriminate | reflexivity]).
  - left. reflexivity.
Defined.

Lemma paged_collect_page_cap_witness :
  wonen123_collect (fun page => Page [Parsed (Some Samples.sample_raw)] true)
  = wonen123_collect
      (fun page => if (page <=? 5)%nat
                   then Page [Parsed (Some Samples.sample_raw)] true
                   else PageError).
Proof.
  apply (paged_collect_page_cap 5).
  intros page Hp. destruct (Nat.leb_spec page 5); [reflexivity | lia].
Defined.

Lemma anchors_loop_skips_repeats_witness :
  anchors_loop
    ([("/huren/kamer-amsterdam/a-1", Parsed (Some Samples.sample_raw))]
     ++ ("/huren/kamer-amsterdam/a-1", Parsed (Some Samples.sample_raw)) :: []) []
  = anchors_loop
      ([("/huren/kamer-amsterdam/a-1", Parsed (Some Samples.sample_raw))] ++ []) [].
Proof.
  apply anchors_loop_skips_repeats. right. apply elem_of_cons. now left.
Defined.

End PagingFacts.

(** ** The selection loops in binary64 *)

Module Binary64Facts.
Import Text.
Import PrimFloat.
Import Binary64.
#[local] Set Warnings "-inexact-float".
Local Open Scope float_scope.

(** *** The order of binary64 values

    [<=?] and [<?] are specified by [SFcompare] on the decoded values;
    a value compares with another one only when neither is a NaN. *)

Lemma SFleb_trans (x y z : SpecFloat.spec_float) :
  SpecFloat.SFleb x y = true -> SpecFloat.SFleb y z = true -> SpecFloat.SFleb x z = true.
Proof.
  unfold SpecFloat.SFleb, SpecFloat.SFcompare.
  destruct x as [[|]|[|]| |[|] mx ex], y as [[|]|[|]| |[|] my ey],
           z as [[|]|[|]| |[|] mz ez];
    try discriminate; try reflexivity;
    change (PosDef.Pos.compare_cont Eq) with Pos.compare;
    destruct (Z.compare_spec ex ey), (Z.compare_spec ey ez), (Z.compare_spec ex ez);
    try discriminate; try reflexivity; try lia; subst;
    destruct (Pos.compare_spec mx my), (Pos.compare_spec my mz), (Pos.compare_spec mx mz);
    cbn; try discriminate; try reflexivity; try lia.
Qed.

Lemma SFleb_ltb_trans (x y z : SpecFloat.spec_float) :
  SpecFloat.SFleb x y = true -> SpecFloat.SFltb y z = true -> SpecFloat.SFltb x z = true.
Proof.
  unfold SpecFloat.SFleb, SpecFloat.SFltb, SpecFloat.SFcompare.
  destruct x as [[|]|[|]| |[|] mx ex], y as [[|]|[|]| |[|] my ey],
           z as [[|]|[|]| |[|] mz ez];
    try discriminate; try reflexivity;
    change (PosDef.Pos.compare_cont Eq) with Pos.compare;
    destruct (Z.compare_spec ex ey), (Z.compare_spec ey ez), (Z.compare_spec ex ez);
    try discriminate; try reflexivity; try lia; subst;
    destruct (Pos.compare_spec mx my), (Pos.compare_spec my mz), (Pos.compare_spec mx mz);
    cbn; try discriminate; try reflexivity; try lia.
Qed.

Lemma SFltb_leb_trans (x y z : SpecFloat.spec_float) :
  SpecFloat.SFltb x y = true -> SpecFloat.SFleb y z = true -> SpecFloat.SFltb x z = true.
Proof.
  unfold SpecFloat.SFleb, SpecFloat.SFltb, SpecFloat.SFcompare.
  destruct x as [[|]|[|]| |[|] mx ex], y as [[|]|[|]| |[|] my ey],
           z as [[|]|[|]| |[|] mz ez];
    try discriminate; try reflexivity;
    change (PosDef.Pos.compare_cont Eq) with Pos.compare;
    destruct (Z.compare_spec ex ey), (Z.compare_spec ey ez), (Z.compare_spec ex ez);
    try discriminate; try reflexivity; try lia; subst;
    destruct (Pos.compare_spec mx my), (Pos.compare_spec my mz), (Pos.compare_spec mx mz);
    cbn; try discriminate; try reflexivity; try lia.
Qed.

Lemma SFltb_leb (x y : SpecFloat.spec_float) :
  SpecFloat.SFltb x y = true -> SpecFloat.SFleb x y = true.
Proof.
  unfold SpecFloat.SFleb, SpecFloat.SFltb.
  destruct (SpecFloat.SFcompare x y) as [[| |]|]; intros H; try discriminate; reflexivity.
Qed.

Lemma SFleb_refl (a x : SpecFloat.spec_float) :
  SpecFloat.SFleb a x = true -> SpecFloat.SFleb x x = true.
Proof.
  unfold SpecFloat.SFleb, SpecFloat.SFcompare.
  destruct a as [[|]|[|]| |[|] ma ea], x as [[|]|[|]| |[|] mx ex];
    try discriminate; try reflexivity; intros _;
    change (PosDef.Pos.compare_cont Eq) with Pos.compare;
    rewrite Z.compare_refl, Pos.compare_refl; reflexivity.
Qed.

Lemma SFleb_total (x y : SpecFloat.spec_float) :
  SpecFloat.SFleb x x = true -> SpecFloat.SFleb y y = true ->
  SpecFloat.SFltb x y = false -> SpecFloat.SFleb y x = true.
Proof.
  unfold SpecFloat.SFleb, SpecFloat.SFltb, SpecFloat.SFcompare.
  destruct x as [[|]|[|]| |[|] mx ex], y as [[|]|[|]| |[|] my ey];
    try discriminate; try reflexivity; intros _ _;
    change (PosDef.Pos.compare_cont Eq) with Pos.compare;
    destruct (Z.compare_spec ex ey), (Z.compare_spec ey ex);
    try discriminate; try reflexivity; try lia; subst;
    destruct (Pos.compare_spec mx my), (Pos.compare_spec my mx);
    cbn; try discriminate; try reflexivity; try lia.
Qed.

Lemma leb_trans (x y z : float) :
  (x <=? y) = true -> (y <=? z) = true -> (x <=? z) = true.
Proof. rewrite !FloatAxioms.leb_spec. apply SFleb_trans. Qed.

Lemma leb_ltb_trans (x y z : float) :
  (x <=? y) = true -> (y <? z) = true -> (x <? z) = true.
Proof. rewrite !FloatAxioms.leb_spec, !FloatAxioms.ltb_spec. apply SFleb_ltb_trans. Qed.

Lemma ltb_leb_trans (x y z : float) :
  (x <? y) = true -> (y <=? z) = true -> (x <? z) = true.
Proof. rewrite !FloatAxioms.leb_spec, !FloatAxioms.ltb_spec. apply SFltb_leb_trans. Qed.

Lemma ltb_leb (x y : float) : (x <? y) = true -> (x <=? y) = true.
Proof. rewrite FloatAxioms.leb_spec, FloatAxioms.ltb_spec. apply SFltb_leb. Qed.

(** A value that is at least some value is not a NaN. *)
Lemma leb_refl (a x : float) : (a <=? x) = true -> (x <=? x) = true.
Proof. rewrite !FloatAxioms.leb_spec. apply SFleb_refl. Qed.

(** Of two values that are not NaN, one is strictly below the other or
    the other is at most the one. *)
Lemma leb_total (x y : float) :
  (x <=? x) = true -> (y <=? y) = true -> (x <? y) = false -> (y <=? x) = true.
Proof. rewrite !FloatAxioms.leb_spec, FloatAxioms.ltb_spec. apply SFleb_total. Qed.

(** Scores at or above the threshold compare with each other. *)
Lemma above_threshold_total (x y : float) :
  (DEDUPE_COMBINED_THRESHOLD <=? x) = true ->
  (DEDUPE_COMBINED_THRESHOLD <=? y) = true ->
  (x <? y) = false -> (y <=? x) = true.
Proof.
  intros Hx Hy. apply leb_total; eapply leb_refl; eassumption.
Qed.

(** A score at or above the threshold is above the initial [0.0] of
    the cross-source loop. *)
Lemma above_threshold_positive (x : float) :
  (DEDUPE_COMBINED_THRESHOLD <=? x) = true -> (0 <? x) = true.
Proof.
  apply ltb_leb_trans. reflexivity.
Qed.

Section Loops.
Context {fuzz : RapidFuzz} {urllib : UrlLib} {uuid : UuidSource}.

Lemma truthy_opt_known64 (o : option string) : truthy_opt o = true <-> known o.
Proof.
  unfold known. destruct o as [[|c s]|]; simpl; split.
  - discriminate.
  - intros (s & [= <-] & H). now destruct H.
  - intros _. eexists. split; [reflexivity | discriminate].
  - reflexivity.
  - discriminate.
  - now intros (s & H & _).
Qed.

(** The three guards of the loop body amount to [qualifies]. *)
Lemma qualifies_guards64 (listing e : NormalizedListing) :
  qualifies listing e <->
  String.eqb (source e) (source listing) = false
  /\ neighborhoods_differ listing e = false
  /\ (DEDUPE_COMBINED_THRESHOLD <=? combined (compute_dedupe_score listing e)) = true.
Proof.
  unfold qualifies, neighborhoods_differ.
  rewrite String.eqb_neq, <- (not_true_iff_false (_ && _ && _)).
  rewrite !andb_true_iff, negb_true_iff, bool_decide_eq_false, !truthy_opt_known64.
  tauto.
Qed.

Lemma best_among_skip64 (listing x : NormalizedListing) (seen : list NormalizedListing)
    (best : option (nat * DedupeScore)) :
  (match best with
   | Some (_, s) =>
       qualifies listing x ->
       (combined (compute_dedupe_score listing x) <=? combined s) = true
   | None => ~ qualifies listing x
   end) ->
  best_among listing seen best ->
  best_among listing (seen ++ [x]) best.
Proof.
  destruct best as [[k s]|]; simpl; intros Hx.
  - intros (e & Hk & Hq & Hs & Hmax & Hfirst). exists e. split.
    { rewrite lookup_app_l; [exact Hk | now apply lookup_lt_Some in Hk]. }
    split; [exact Hq|]. split; [exact Hs|]. split.
    + intros j e' Hj Hq'. apply lookup_snoc_Some in Hj as [[_ Hj] | [_ <-]].
      * now apply (Hmax j).
      * now apply Hx.
    + intros j e' Hjk Hj Hq'. apply lookup_snoc_Some in Hj as [[_ Hj] | [Hj' _]].
      * now apply (Hfirst j).
      * apply lookup_lt_Some in Hk. lia.
  - intros Hnone j e Hj. apply lookup_snoc_Some in Hj as [[_ Hj] | [_ <-]].
    + now apply (Hnone j).
    + exact Hx.
Qed.

Lemma best_among_step64 (listing x : NormalizedListing) (seen : list NormalizedListing)
    (best : option (nat * DedupeScore)) :
  best_among listing seen best ->
  best_among listing (seen ++ [x])
    (if String.eqb (source x) (source listing) then best
     else if neighborhoods_differ listing x then best
     else
       let score := compute_dedupe_score listing x in
       if DEDUPE_COMBINED_THRESHOLD <=? combined score then
         match best with
         | None => Some (length seen, score)
         | Some (_, best_score) =>
             if combined best_score <? combined score
             then Some (length seen, score) else best
         end
       else best).
Proof.
  intros Hinv. pose proof (qualifies_guards64 listing x) as Hg.
  assert (Hnot : forall b : option (nat * DedupeScore),
            ~ qualifies listing x ->
            match b with
            | Some (_, s) =>
                qualifies listing x ->
                (combined (compute_dedupe_score listing x) <=? combined s) = true
            | None => ~ qualifies listing x
            end).
  { intros [[? ?]|] Hn; [intros Hq; contradiction | exact Hn]. }
  destruct (String.eqb (source x) (source listing)) eqn:Hsrc.
  { apply best_among_skip64; [|exact Hinv]. apply Hnot.
    intros H. apply Hg in H as [H _]. discriminate. }
  destruct (neighborhoods_differ listing x) eqn:Hnb.
  { apply best_among_skip64; [|exact Hinv]. apply Hnot.
    intros H. apply Hg in H as (_ & H & _). discriminate. }
  cbv zeta.
  destruct (DEDUPE_COMBINED_THRESHOLD <=? combined (compute_dedupe_score listing x))
    eqn:Hthr.
  2:{ apply best_among_skip64; [|exact Hinv]. apply Hnot.
      intros H. apply Hg in H as (_ & _ & H). congruence. }
  assert (Hq : qualifies listing x) by (apply Hg; auto).
  assert (Hhere : (seen ++ [x]) !! length seen = Some x)
    by (apply list_lookup_middle; reflexivity).
  destruct best as [[k s]|]; simpl in Hinv.
  - destruct Hinv as (e & Hk & Hqe & Hs & Hmax & Hfirst).
    destruct (combined s <? combined (compute_dedupe_score listing x)) eqn:Hlt.
    + simpl. exists x.
      split; [exact Hhere|]. split; [exact Hq|]. split; [reflexivity|].
      assert (Hbefore : forall j e', seen !! j = Some e' -> qualifies listing e' ->
                (combined (compute_dedupe_score listing e')
                 <? combined (compute_dedupe_score listing x)) = true).
      { intros j e' Hj Hq'. eapply leb_ltb_trans; [exact (Hmax j e' Hj Hq') | exact Hlt]. }
      split.
      * intros j e' Hj Hq'. apply lookup_snoc_Some in Hj as [[_ Hj] | [_ <-]].
        -- apply ltb_leb. now apply (Hbefore j).
        -- eapply leb_refl. exact Hthr.
      * intros j e' Hjk Hj Hq'. apply lookup_snoc_Some in Hj as [[_ Hj] | [Hj' _]]; [|lia].
        now apply (Hbefore j).
    + apply (best_among_skip64 listing x seen (Some (k, s))).
      * intros _. apply above_threshold_total; [|exact Hthr|exact Hlt].
        rewrite Hs. now destruct Hqe as (_ & _ & H).
      * simpl. exists e. auto 10.
  - simpl. exists x.
    split; [exact Hhere|]. split; [exact Hq|]. split; [reflexivity|]. split.
    + intros j e' Hj Hq'. apply lookup_snoc_Some in Hj as [[_ Hj] | [_ <-]].
      * now destruct (Hinv j e' Hj).
      * eapply leb_refl. exact Hthr.
    + intros j e' Hjk Hj Hq'. apply lookup_snoc_Some in Hj as [[_ Hj] | [Hj' _]]; [|lia].
      now destruct (Hinv j e' Hj).
Qed.

Lemma find_loop_best64 (listing : NormalizedListing) (rest seen : list NormalizedListing)
    (best : option (nat * DedupeScore)) :
  best_among listing seen best ->
  best_among listing (seen ++ rest) (find_loop listing (length seen) rest best).
Proof.
  revert seen best. induction rest as [|x rest IH]; intros seen best Hinv.
  - rewrite app_nil_r. exact Hinv.
  - cbn [find_loop].
    replace (S (length seen)) with (length (seen ++ [x]))
      by (rewrite length_app; simpl; lia).
    replace (seen ++ x :: rest) with ((seen ++ [x]) ++ rest)
      by (now rewrite <- app_assoc).
    apply IH. now apply best_among_step64.
Qed.

(** C2. [find_duplicate] returns a match exactly when some candidate
    of another source, whose known neighborhood does not disagree with
    the listing's, scores at or above [DEDUPE_COMBINED_THRESHOLD]. The
    match is then such a candidate of highest combined score, and the
    first one in the list to reach that score: every earlier qualifying
    candidate scores strictly less. Otherwise the result is no match.
    Scores are the binary64 values the code computes and are compared
    as the code compares them. *)
Theorem find_duplicate_first_best (listing : NormalizedListing)
    (existing : list NormalizedListing) :
  match find_duplicate listing existing with
  | (sid, Some s) =>
      exists i e,
        existing !! i = Some e
        /\ qualifies listing e
        /\ s = compute_dedupe_score listing e
        /\ sid = source_id e
        /\ (forall j e', existing !! j = Some e' -> qualifies listing e' ->
              (combined (compute_dedupe_score listing e') <=? combined s) = true)
        /\ (forall j e', (j < i)%nat -> existing !! j = Some e' -> qualifies listing e' ->
              (combined (compute_dedupe_score listing e') <? combined s) = true)
  | (sid, None) =>
      sid = None /\ forall j e, existing !! j = Some e -> ~ qualifies listing e
  end.
Proof.
  pose proof (find_loop_best64 listing existing [] None) as H.
  simpl in H. specialize (H ltac:(intros j e Hj; discriminate)).
  unfold find_duplicate.
  destruct (find_loop listing 0 existing None) as [[k s]|] eqn:Hloop.
  - pose proof H as (e & Hk & Hq & Hs & Hmax & Hfirst). rewrite Hk.
    exists k, e. auto 10.
  - split; [reflexivity | exact H].
Qed.

(** *** The cross-source loop *)

Lemma first_best_cross_skip64 (listing : NormalizedListing) (x : StoredListing)
    (seen : list StoredListing) (st : option string * float) :
  (match st with
   | (Some _, best_score) =>
       cross_match listing x -> (cross_score listing x <=? best_score) = true
   | (None, _) => ~ cross_match listing x
   end) ->
  first_best_cross listing seen st -> first_best_cross listing (seen ++ [x]) st.
Proof.
  destruct st as [[d|] bs]; simpl; intros Hx.
  - intros (k & sl & Hk & Hm & Hd & Hbs & Hmax & Hfirst). exists k, sl.
    split; [rewrite lookup_app_l; [exact Hk | now apply lookup_lt_Some in Hk]|].
    split; [exact Hm|]. split; [exact Hd|]. split; [exact Hbs|]. split.
    + intros j sl' Hj Hm'. apply lookup_snoc_Some in Hj as [[_ Hj] | [_ <-]].
      * now apply (Hmax j).
      * rewrite <- Hbs. now apply Hx.
    + intros j sl' Hjk Hj Hm'. apply lookup_snoc_Some in Hj as [[_ Hj] | [Hj _]].
      * now apply (Hfirst j).
      * apply lookup_lt_Some in Hk. lia.
  - intros [Hbs Hnone]. split; [exact Hbs|].
    intros j sl Hj. apply lookup_snoc_Some in Hj as [[_ Hj] | [_ <-]].
    + now apply (Hnone j).
    + exact Hx.
Qed.

Lemma first_best_cross_step64 (listing : NormalizedListing) (x : StoredListing)
    (seen : list StoredListing) (st : option string * float) :
  first_best_cross listing seen st ->
  first_best_cross listing (seen ++ [x])
    (cross_source_step listing st (to_normalized x, x)).
Proof.
  intros Hinv. unfold cross_source_step. destruct st as [best bs].
  change (source (to_normalized x)) with (sl_source x).
  change (combined (compute_dedupe_score listing (to_normalized x)))
    with (cross_score listing x).
  destruct (String.eqb (sl_source x) (source listing)) eqn:Hsrc.
  { apply first_best_cross_skip64; [|exact Hinv].
    apply String.eqb_eq in Hsrc. destruct best; intros [H _]; contradiction. }
  apply String.eqb_neq in Hsrc.
  destruct (DEDUPE_COMBINED_THRESHOLD <=? cross_score listing x) eqn:Hthr.
  2:{ apply first_best_cross_skip64; [|exact Hinv].
      destruct best; intros [_ H]; congruence. }
  destruct (bs <? cross_score listing x) eqn:Hlt; cbn [andb].
  - simpl. exists (length seen), x.
    split; [apply list_lookup_middle; reflexivity|].
    split; [now split|]. split; [reflexivity|]. split; [reflexivity|].
    assert (Hbefore : forall j sl', seen !! j = Some sl' -> cross_match listing sl' ->
              (cross_score listing sl' <? cross_score listing x) = true).
    { intros j sl' Hj Hm'. destruct best as [d|]; simpl in Hinv.
      - destruct Hinv as (k & sl & _ & _ & _ & Hbs & Hmax & _).
        eapply leb_ltb_trans; [apply (Hmax j sl' Hj Hm')|]. now rewrite <- Hbs.
      - destruct Hinv as [_ Hnone]. now destruct (Hnone j sl' Hj). }
    split.
    + intros j sl' Hj Hm'. apply lookup_snoc_Some in Hj as [[_ Hj] | [_ <-]].
      * apply ltb_leb. now apply (Hbefore j).
      * eapply leb_refl. exact Hthr.
    + intros j sl' Hjk Hj Hm'. apply lookup_snoc_Some in Hj as [[_ Hj] | [Hj _]]; [|lia].
      now apply (Hbefore j).
  - apply first_best_cross_skip64; [|exact Hinv].
    destruct best as [d|].
    + intros _. simpl in Hinv. destruct Hinv as (k & sl & _ & [_ Hm] & _ & Hbs & _).
      apply above_threshold_total; [|exact Hthr|exact Hlt]. now rewrite Hbs.
    + destruct Hinv as [-> _]. intros _.
      rewrite (above_threshold_positive _ Hthr) in Hlt. discriminate.
Qed.

Lemma cross_source_loop_first_best64 (listing : NormalizedListing)
    (existing : list StoredListing) :
  first_best_cross listing existing (cross_source_loop listing existing).
Proof.
  unfold cross_source_loop. rewrite PipelineFacts.zip_map_fold.
  assert (H : forall rest seen st,
             first_best_cross listing seen st ->
             first_best_cross listing (seen ++ rest)
               (fold_left (fun st x => cross_source_step listing st (to_normalized x, x))
                  rest st)).
  { induction rest as [|x rest IH]; intros seen st Hinv.
    - rewrite app_nil_r. exact Hinv.
    - cbn [fold_left].
      replace (seen ++ x :: rest) with ((seen ++ [x]) ++ rest)
        by (now rewrite <- app_assoc).
      apply IH. now apply first_best_cross_step64. }
  apply (H existing [] (None, 0)). simpl. split; [reflexivity|].
  intros j sl Hj. discriminate.
Qed.

(** X21. The cross-source loop adopts the [dedupe_id] of the first
    row of the snapshot among the rows of another source with the
    highest score at or above the threshold: every earlier such row
    scores strictly less. It adopts nothing exactly when there is no
    such row. The score of a row is the binary64 score of the listing
    against the [NormalizedListing] built from the fields of the row. *)
Theorem cross_source_loop_first_row (listing : NormalizedListing)
    (existing : list StoredListing) :
  let as_listing (sl : StoredListing) : NormalizedListing :=
    {| source := sl_source sl; source_id := sl_source_id sl; url := sl_url sl;
       title := sl_title sl; raw_location_text := sl_raw_location_text sl;
       neighborhood_match := sl_neighborhood_match sl;
       neighborhood_confidence := sl_neighborhood_confidence sl;
       price_total_eur := sl_price_total_eur sl;
       price_quality := sl_price_quality sl;
       price_includes_service_costs := sl_price_includes_service_costs sl;
       gwl_included := sl_gwl_included sl; area_m2 := sl_area_m2 sl;
       bedrooms := sl_bedrooms sl; property_type := sl_property_type sl;
       available_from := sl_available_from sl;
       description_snippet := sl_description_snippet sl;
       images_hash := sl_images_hash sl;
       ambiguous_neighborhood := sl_ambiguous_neighborhood sl |} in
  let score sl := combined (compute_dedupe_score listing (as_listing sl)) in
  let matches sl :=
    sl_source sl <> source listing /\ (DEDUPE_COMBINED_THRESHOLD <=? score sl) = true in
  match cross_source_loop listing existing with
  | (None, _) => forall j sl, existing !! j = Some sl -> ~ matches sl
  | (Some d, best_score) =>
      exists k sl,
        existing !! k = Some sl /\ matches sl
        /\ d = sl_dedupe_id sl /\ best_score = score sl
        /\ (forall j sl', existing !! j = Some sl' -> matches sl' ->
              (score sl' <=? score sl) = true)
        /\ (forall j sl', (j < k)%nat -> existing !! j = Some sl' -> matches sl' ->
              (score sl' <? score sl) = true)
  end.
Proof.
  intros as_listing score matches.
  pose proof (cross_source_loop_first_best64 listing existing) as H.
  destruct (cross_source_loop listing existing) as [[d|] bs]; simpl in H.
  - exact H.
  - now destruct H.
Qed.



End Loops.

Import Lib.

(** Rounding decides between two candidates whose scores are equal as
    fractions (567/800): the Pararius candidate scores 0.70875, the
    Huurwoningen one 0.7087500000000001, and the second replaces the
    first in both loops. *)
Lemma rounding_breaks_tie :
  (combined (compute_dedupe_score pijp_funda pijp_pararius)
   <? combined (compute_dedupe_score pijp_funda pijp_huurwoningen)) = true
  /\ fst (find_duplicate pijp_funda [pijp_pararius; pijp_huurwoningen]) = Some "789"
  /\ fst (cross_source_loop pijp_funda
            [stored "d-1" ACTIVE pijp_pararius; stored "d-2" ACTIVE pijp_huurwoningen])
     = Some "d-2".
Proof. vm_compute. repeat split. Qed.


(** On that store the record adopts the id of the Huurwoningen row,
    whose score is the higher float; on an empty store it draws a new
    identifier. *)
Lemma resolve_dedupe_id_runs :
  resolve_dedupe_id
    (get_listings
       [ stored "d-1" ACTIVE pijp_pararius;
         stored "d-2" ACTIVE pijp_huurwoningen;
         stored "d-3" REMOVED
           (make_listing "Vesteda" "1" "https://www.vesteda.com/1"
              (Some 1500) (Some 50)) ] ACTIVE)
    pijp_funda 7 = ("d-2", 7%nat)
  /\ resolve_dedupe_id (get_listings [] ACTIVE) pijp_funda 7
     = ("00000000-0000-4000-8000-7", 8%nat).
Proof. vm_compute. split; reflexivity. Qed.


End Binary64Facts.
